(** * wdtaggerv2: the inference-result pipeline of [app.py]

    A shallow embedding of [load_labels], [mcut_threshold] and the
    [Predictor] class ([load_model], [prepare_image], [predict]).

    Modelling conventions.
    - Confidences are numpy float64 numbers in the source.  The value of
      such a number is a rational, so confidences are embedded in [Q];
      comparisons are exact in both, and equality of confidences is [Qeq].
      The arithmetic of [mcut_threshold] is embedded twice:
      [mcut_threshold_with rnd] rounds the result of every operation with
      [rnd], and [round64] is the rounding of binary64; [mcut_threshold] is
      the same computation without rounding, for the statements in which the
      threshold is only compared with confidences.
    - A Python exception is a [Raise e] result.  Attribute writes made before
      an exception is raised persist, so the [Predictor] state is threaded
      through failing computations as well.
    - The Hugging Face hub, pandas' CSV reader, the ONNX runtime and the two
      numeric kernels of PIL (alpha blending of one pixel, resampling) are
      external collaborators, gathered in the record [Extern].  Every call to
      the hub, to the CSV reader, to the session constructor and to the
      classifier is written to a trace. *)

From Stdlib Require Import List String Ascii Bool Arith ZArith QArith Qminmax Lia.
From Stdlib Require Import Permutation Sorted Lqa DecimalString.
From Stdlib Require Import Qround Qabs Qpower.
Import ListNotations.

Local Open Scope nat_scope.

(** ** Exceptions and results *)

Inductive exn : Type :=
| KeyError        (* a missing column of the label table *)
| ValueError      (* argmax of an empty array, tuple unpacking *)
| IndexError      (* list index out of range *)
| TypeError       (* a size that is not an integer *)
| AttributeError  (* an attribute or a method that the object lacks *)
| FetchError      (* raised by the artifact store *)
| ParseError      (* raised by the CSV reader *)
| SessionError    (* raised by the classifier constructor *)
| RunError.       (* raised by the classifier *)

Inductive result (A : Type) : Type :=
| Ok (a : A)
| Raise (e : exn).
Arguments Ok {A} a.
Arguments Raise {A} e.

Definition is_ok {A} (r : result A) : bool :=
  match r with Ok _ => true | Raise _ => false end.

Module Pure.
Definition bind {A B} (r : result A) (k : A -> result B) : result B :=
  match r with Ok a => k a | Raise e => Raise e end.
End Pure.

Declare Scope pure_scope.
Delimit Scope pure_scope with pure.
Notation "x <- c ;; k" := (Pure.bind c (fun x => k))
  (at level 61, c at next level, right associativity) : pure_scope.

(** [l[i]] for a non-negative index. *)
Definition getitem {A} (l : list A) (i : nat) : result A :=
  match nth_error l i with Some a => Ok a | None => Raise IndexError end.

(** [[f(i) for i in l]] where [f] may raise. *)
Fixpoint comprehension {A B} (f : A -> result B) (l : list A) : result (list B) :=
  match l with
  | [] => Ok []
  | i :: l' =>
      match f i with
      | Raise e => Raise e
      | Ok b => match comprehension f l' with
                | Raise e => Raise e
                | Ok bs => Ok (b :: bs)
                end
      end
  end.

(** ** Confidences *)

(** [x > y] on confidences. *)
Definition Qgtb (x y : Q) : bool := negb (Qle_bool x y).

(** Python's [max(a, b)]: [b] when [b > a], otherwise [a]. *)
Definition py_max (a b : Q) : Q := if Qgtb b a then b else a.

(** ** Sorting

    One stable insertion sort serves both [ndarray.argsort] (ascending) and
    [sorted(..., reverse=True)] (descending): [le x y] says that [x] may
    stand before [y].  An element is put in front of the first element it may
    stand before, so elements that compare equal keep their input order. *)

Section Sort.
Context {A : Type} (le : A -> A -> bool).

Fixpoint insert_sorted (x : A) (l : list A) : list A :=
  match l with
  | [] => [x]
  | y :: l' => if le x y then x :: y :: l' else y :: insert_sorted x l'
  end.

Fixpoint stable_sort (l : list A) : list A :=
  match l with
  | [] => []
  | x :: l' => insert_sorted x (stable_sort l')
  end.
End Sort.

(** ** Strings *)

(** [s.replace(old, new)] for a pattern [old] of one character. *)
Fixpoint str_replace (old : ascii) (new : string) (s : string) : string :=
  match s with
  | EmptyString => EmptyString
  | String c s' =>
      if Ascii.eqb c old then (new ++ str_replace old new s')%string
      else String c (str_replace old new s')
  end.

(** [sep.join(l)] *)
Fixpoint str_join (sep : string) (l : list string) : string :=
  match l with
  | [] => EmptyString
  | [s] => s
  | s :: l' => (s ++ sep ++ str_join sep l')%string
  end.

(** [x in l] for a list of strings. *)
Definition str_in (x : string) (l : list string) : bool :=
  existsb (String.eqb x) l.

(** ** Dictionaries

    A Python [dict] keeps its keys in insertion order; assigning to a key
    that is present replaces the value and leaves the position. *)

Definition dict : Type := list (string * Q).

Fixpoint dict_set (d : dict) (k : string) (v : Q) : dict :=
  match d with
  | [] => [(k, v)]
  | (k', v') :: d' =>
      if String.eqb k' k then (k, v) :: d' else (k', v') :: dict_set d' k v
  end.

Fixpoint dict_get (d : dict) (k : string) : option Q :=
  match d with
  | [] => None
  | (k', v') :: d' => if String.eqb k' k then Some v' else dict_get d' k
  end.

(** [d.update(pairs)]: the pairs are assigned from left to right. *)
Definition dict_update (d : dict) (pairs : list (string * Q)) : dict :=
  fold_left (fun d kv => dict_set d (fst kv) (snd kv)) pairs d.

(** [dict(pairs)] *)
Definition py_dict (pairs : list (string * Q)) : dict :=
  dict_update [] pairs.

(** [d.items()] *)
Definition items (d : dict) : list (string * Q) := d.

Definition keys (d : dict) : list string := map fst d.

(** ** The label table *)

Definition kaomojis : list string :=
  [ "0_0"; "(o)_(o)"; "+_+"; "+_-"; "._."; "<o>_<o>"; "<|>_<|>"; "=_=";
    ">_<"; "3_3"; "6_9"; ">_o"; "@_@"; "^_^"; "o_o"; "u_u"; "x_x"; "|_|";
    "||_||" ]%string.

(** The two columns the code reads; [None] is a column the table lacks. *)
Record DataFrame : Type := {
  df_name : option (list string);
  df_category : option (list Z)
}.

(** [np.where(column == code)[0]], counting rows from [i]. *)
Fixpoint np_where_from (i : nat) (code : Z) (column : list Z) : list nat :=
  match column with
  | [] => []
  | c :: column' =>
      if Z.eqb c code then i :: np_where_from (S i) code column'
      else np_where_from (S i) code column'
  end.

Definition np_where (code : Z) (column : list Z) : list nat :=
  np_where_from 0 code column.

Definition normalize_name (x : string) : string :=
  if negb (str_in x kaomojis) then str_replace "_"%char " "%string x else x.

Definition load_labels (dataframe : DataFrame)
  : result (list string * list nat * list nat * list nat) :=
  match df_name dataframe with
  | None => Raise KeyError
  | Some name_series =>
      let name_series := map normalize_name name_series in
      let tag_names := name_series in
      match df_category dataframe with
      | None => Raise KeyError
      | Some category =>
          let rating_indexes := np_where 9%Z category in
          let general_indexes := np_where 0%Z category in
          let character_indexes := np_where 4%Z category in
          Ok (tag_names, rating_indexes, general_indexes, character_indexes)
      end
  end.

(** *** Names that are not strings

    [pd.read_csv] gives an empty or NA cell of the [name] column as the
    float NaN.  Such a value is not in [kaomojis], and it has no [replace]:
    the function mapped over the names raises [AttributeError] on it.
    [load_labels] above is the function on tables whose names are all
    strings; [load_labels_cells] is the function on tables as they are
    read. *)

Inductive cell : Type :=
| Str (s : string)
| NotStr.

Record CsvTable : Type := {
  csv_name : option (list cell);
  csv_category : option (list Z)
}.

(** [x.replace("_", " ") if x not in kaomojis else x] *)
Definition normalize_cell (x : cell) : result string :=
  match x with
  | Str s => Ok (normalize_name s)
  | NotStr => Raise AttributeError
  end.

Definition load_labels_cells (dataframe : CsvTable)
  : result (list string * list nat * list nat * list nat) :=
  match csv_name dataframe with
  | None => Raise KeyError
  | Some name_series =>
      match comprehension normalize_cell name_series with
      | Raise e => Raise e
      | Ok name_series =>
          let tag_names := name_series in
          match csv_category dataframe with
          | None => Raise KeyError
          | Some category =>
              let rating_indexes := np_where 9%Z category in
              let general_indexes := np_where 0%Z category in
              let character_indexes := np_where 4%Z category in
              Ok (tag_names, rating_indexes, general_indexes,
                  character_indexes)
          end
      end
  end.

(** A table of strings, as a table of cells. *)
Definition cells_of (dataframe : DataFrame) : CsvTable :=
  {| csv_name := option_map (map Str) (df_name dataframe);
     csv_category := df_category dataframe |}.

(** ** Maximum Cut Thresholding *)

(** The (position, value) pairs of [probs], by ascending value. *)
Definition sorted_pairs (probs : list Q) : list (nat * Q) :=
  stable_sort (fun a b => Qle_bool (snd a) (snd b))
              (combine (seq 0 (List.length probs)) probs).

(** [probs.argsort()]: the positions of [probs], by ascending value. *)
Definition argsort (probs : list Q) : list nat :=
  map fst (sorted_pairs probs).

(** [probs[idx]] for an index array [idx]. *)
Definition take_indices (probs : list Q) (idx : list nat) : list Q :=
  map (fun i => nth i probs 0%Q) idx.

(** [a - b] on arrays of one length. *)
Definition np_sub (a b : list Q) : list Q :=
  map (fun p => (fst p - snd p)%Q) (combine a b).

(** [a[:-1]] and [a[1:]] are [removelast a] and [tl a]. *)
Definition consecutive_difs (a : list Q) : list Q :=
  np_sub (removelast a) (tl a).

(** The scan of [ndarray.argmax]: [best_i] holds the first position of the
    largest value seen so far, [i] is the position of the head of [l]. *)
Fixpoint argmax_from (best_i : nat) (best : Q) (i : nat) (l : list Q) : nat :=
  match l with
  | [] => best_i
  | x :: l' =>
      if Qgtb x best then argmax_from i x (S i) l'
      else argmax_from best_i best (S i) l'
  end.

(** [a.argmax()]; numpy raises [ValueError] on an empty array. *)
Definition argmax (a : list Q) : result nat :=
  match a with
  | [] => Raise ValueError
  | x :: a' => Ok (argmax_from 0 x 1 a')
  end.

Definition mcut_threshold (probs : list Q) : result Q :=
  (let sorted_probs := take_indices probs (rev (argsort probs)) in
   let difs := consecutive_difs sorted_probs in
   t <- argmax difs ;;
   lo <- getitem sorted_probs t ;;
   hi <- getitem sorted_probs (t + 1) ;;
   Ok ((lo + hi) / 2)%Q)%pure.

(** ** Binary64 arithmetic

    numpy computes [sorted_probs[:-1] - sorted_probs[1:]], the sum and the
    division by 2 on float64 numbers: every operation returns its exact result
    rounded to the format.  [mcut_threshold_with rnd] is [mcut_threshold]
    with the rounding [rnd] applied to the result of every operation;
    [mcut_threshold] above is the same computation without rounding. *)

(** [a - b] on arrays of one length, every difference rounded. *)
Definition np_sub_with (rnd : Q -> Q) (a b : list Q) : list Q :=
  map (fun p => rnd (fst p - snd p)%Q) (combine a b).

Definition mcut_threshold_with (rnd : Q -> Q) (probs : list Q) : result Q :=
  (let sorted_probs := take_indices probs (rev (argsort probs)) in
   let difs := np_sub_with rnd (removelast sorted_probs) (tl sorted_probs) in
   t <- argmax difs ;;
   upper <- getitem sorted_probs t ;;
   lower <- getitem sorted_probs (t + 1) ;;
   Ok (rnd (rnd (upper + lower) / 2))%Q)%pure.

(** The integer nearest to [x]; of two integers equally near, the even
    one. *)
Definition round_half_even (x : Q) : Z :=
  let f := Qfloor x in
  match (x - inject_Z f ?= 1 # 2)%Q with
  | Lt => f
  | Gt => (f + 1)%Z
  | Eq => if Z.even f then f else (f + 1)%Z
  end.

(** [2 ^ e] for an integer [e]. *)
Definition pow2 (e : Z) : Q := Qpower 2 e.

(** The exponent [e] with [2 ^ e <= |x| < 2 ^ (e + 1)], for [x] other than
    0: the logarithms of numerator and denominator give it up to one. *)
Definition binade (x : Q) : Z :=
  let e := (Z.log2 (Z.abs (Qnum x)) - Z.log2 (Zpos (Qden x)))%Z in
  if Qle_bool (pow2 e) (Qabs x) then e else (e - 1)%Z.

(** The exponent of the last of the 53 bits of the significand; the
    smallest positive binary64 number is [2 ^ -1074]. *)
Definition ulp_exponent (x : Q) : Z := Z.max (binade x - 52) (-1074).

(** The multiple of [2 ^ u] nearest to [x], ties to the even multiple. *)
Definition round_to (u : Z) (x : Q) : Q :=
  (inject_Z (round_half_even (x / pow2 u)) * pow2 u)%Q.

(** The binary64 number nearest to [x], ties to even, subnormal numbers
    included.  Overflow is left out: numpy gives infinity for a result
    beyond the largest finite binary64 number, [2 ^ 1024 - 2 ^ 971].  The
    statements on binary64 are made for numbers of magnitude at most
    [2 ^ 1022], whose sums and differences stay within [2 ^ 1023]. *)
Definition round64 (x : Q) : Q :=
  if Qeq_bool x 0 then 0%Q else round_to (ulp_exponent x) x.

(** [x] is the value of a binary64 number. *)
Definition binary64 (x : Q) : Prop := (round64 x == x)%Q.

(** ** Images and tensors *)

(** Channel values are the integers 0..255; [np.asarray(_, dtype=np.float32)]
    represents each of them exactly, so array entries stay integers here. *)
Definition RGBA : Type := (Z * Z * Z * Z)%type.
Definition RGB : Type := (Z * Z * Z)%type.

(** A PIL image: [size] is [(width, height)], [getpixel x y] the pixel in
    column [x] of row [y] (read only for [x < width] and [y < height]). *)
Record Image (P : Type) : Type := {
  size : nat * nat;
  getpixel : nat -> nat -> P
}.
Arguments size {P} _.
Arguments getpixel {P} _ _ _.
Arguments Build_Image {P} _ _.

Definition width {P} (im : Image P) : nat := fst (size im).
Definition height {P} (im : Image P) : nat := snd (size im).

(** [np.ndarray] of rank 3 ([rows][columns][channels]) and rank 4. *)
Definition Array3 : Type := list (list (list Z)).
Definition Tensor : Type := list Array3.

(** [Image.new(mode, size, color)] *)
Definition Image_new {P} (sz : nat * nat) (color : P) : Image P :=
  {| size := sz; getpixel := fun _ _ => color |}.

(** [canvas.alpha_composite(image)]: in place, pixel by pixel, with the
    blending kernel [blend destination source]. *)
Definition alpha_composite (blend : RGBA -> RGBA -> RGBA)
    (canvas image : Image RGBA) : Image RGBA :=
  {| size := size canvas;
     getpixel := fun x y => blend (getpixel canvas x y) (getpixel image x y) |}.

(** [canvas.convert("RGB")] drops the alpha channel. *)
Definition convert_RGB (im : Image RGBA) : Image RGB :=
  {| size := size im;
     getpixel := fun x y => let '(r, g, b, _) := getpixel im x y in (r, g, b) |}.

(** [canvas.paste(image, (x0, y0))]: the upper left corner of [image] goes to
    column [x0] of row [y0]. *)
Definition paste {P} (canvas image : Image P) (box : nat * nat) : Image P :=
  let '(x0, y0) := box in
  {| size := size canvas;
     getpixel := fun x y =>
       if (x0 <=? x) && (x <? x0 + width image)
          && (y0 <=? y) && (y <? y0 + height image)
       then getpixel image (x - x0) (y - y0)
       else getpixel canvas x y |}.

(** [np.asarray(image)]: shape [(height, width, 3)]. *)
Definition asarray (im : Image RGB) : Array3 :=
  map (fun y =>
         map (fun x => let '(r, g, b) := getpixel im x y in [r; g; b])
             (seq 0 (width im)))
      (seq 0 (height im)).

(** [a[:, :, ::-1]] *)
Definition reverse_channels (a : Array3) : Array3 :=
  map (map (@rev Z)) a.

(** [np.expand_dims(a, axis=0)] *)
Definition expand_dims (a : Array3) : Tensor := [a].

(** ** The external collaborators *)

(** An [onnxruntime.InferenceSession]: the declared shape of its first input
    (a dimension that is not an integer is [None]) and the classifier. *)
Record Session : Type := {
  input_shape : list (option nat);
  run : Tensor -> result (list (list Q))
}.

Record Extern : Type := {
  hf_hub_download : string -> string -> result string;
  read_csv : string -> result DataFrame;
  InferenceSession : string -> result Session;
  pil_blend : RGBA -> RGBA -> RGBA;
  pil_resize : Image RGB -> nat * nat -> Image RGB
}.

Inductive event : Type :=
| EvDownload (repo filename : string)
| EvReadCsv (path : string)
| EvSession (path : string)
| EvRun.

Definition MODEL_FILENAME : string := "model.onnx".
Definition LABEL_FILENAME : string := "selected_tags.csv".

(** ** The predictor *)

(** The attributes of a [Predictor].  [__init__] assigns [None] to
    [model_target_size] and [last_loaded_repo]; the five others do not exist
    before [load_model] assigns them. *)
Record Predictor : Type := {
  tag_names : option (list string);
  rating_indexes : option (list nat);
  general_indexes : option (list nat);
  character_indexes : option (list nat);
  model : option Session;
  model_target_size : option nat;
  last_loaded_repo : option string
}.

Definition Predictor_init : Predictor :=
  {| tag_names := None; rating_indexes := None; general_indexes := None;
     character_indexes := None; model := None;
     model_target_size := None; last_loaded_repo := None |}.

(** The object together with the trace of external calls, oldest first. *)
Record World : Type := {
  self : Predictor;
  trace : list event
}.

(** A method body: it ends in a value or an exception, and in a world. *)
Definition M (A : Type) : Type := World -> result A * World.

Module Eff.
Definition ret {A} (a : A) : M A := fun w => (Ok a, w).
Definition raise {A} (e : exn) : M A := fun w => (Raise e, w).
Definition bind {A B} (m : M A) (k : A -> M B) : M B :=
  fun w => match m w with
           | (Ok a, w') => k a w'
           | (Raise e, w') => (Raise e, w')
           end.
Definition lift {A} (r : result A) : M A := fun w => (r, w).
Definition emit (ev : event) : M unit :=
  fun w => (Ok tt, {| self := self w; trace := trace w ++ [ev] |}).
(** Reading an attribute that was never assigned raises. *)
Definition attr {A} (field : Predictor -> option A) : M A :=
  fun w => match field (self w) with
           | Some a => (Ok a, w)
           | None => (Raise AttributeError, w)
           end.
Definition update (f : Predictor -> Predictor) : M unit :=
  fun w => (Ok tt, {| self := f (self w); trace := trace w |}).
End Eff.

Declare Scope eff_scope.
Delimit Scope eff_scope with eff.
Notation "x <- c ;; k" := (Eff.bind c (fun x => k))
  (at level 61, c at next level, right associativity) : eff_scope.
Notation "c ;;; k" := (Eff.bind c (fun _ => k))
  (at level 61, right associativity) : eff_scope.

Definition set_tag_names v (p : Predictor) : Predictor :=
  {| tag_names := Some v; rating_indexes := rating_indexes p;
     general_indexes := general_indexes p;
     character_indexes := character_indexes p; model := model p;
     model_target_size := model_target_size p;
     last_loaded_repo := last_loaded_repo p |}.
Definition set_rating_indexes v (p : Predictor) : Predictor :=
  {| tag_names := tag_names p; rating_indexes := Some v;
     general_indexes := general_indexes p;
     character_indexes := character_indexes p; model := model p;
     model_target_size := model_target_size p;
     last_loaded_repo := last_loaded_repo p |}.
Definition set_general_indexes v (p : Predictor) : Predictor :=
  {| tag_names := tag_names p; rating_indexes := rating_indexes p;
     general_indexes := Some v;
     character_indexes := character_indexes p; model := model p;
     model_target_size := model_target_size p;
     last_loaded_repo := last_loaded_repo p |}.
Definition set_character_indexes v (p : Predictor) : Predictor :=
  {| tag_names := tag_names p; rating_indexes := rating_indexes p;
     general_indexes := general_indexes p;
     character_indexes := Some v; model := model p;
     model_target_size := model_target_size p;
     last_loaded_repo := last_loaded_repo p |}.
Definition set_model v (p : Predictor) : Predictor :=
  {| tag_names := tag_names p; rating_indexes := rating_indexes p;
     general_indexes := general_indexes p;
     character_indexes := character_indexes p; model := Some v;
     model_target_size := model_target_size p;
     last_loaded_repo := last_loaded_repo p |}.
Definition set_model_target_size v (p : Predictor) : Predictor :=
  {| tag_names := tag_names p; rating_indexes := rating_indexes p;
     general_indexes := general_indexes p;
     character_indexes := character_indexes p; model := model p;
     model_target_size := v;
     last_loaded_repo := last_loaded_repo p |}.
Definition set_last_loaded_repo v (p : Predictor) : Predictor :=
  {| tag_names := tag_names p; rating_indexes := rating_indexes p;
     general_indexes := general_indexes p;
     character_indexes := character_indexes p; model := model p;
     model_target_size := model_target_size p;
     last_loaded_repo := Some v |}.

Section Methods.
Variable ext : Extern.
Local Open Scope eff_scope.

Definition download_model (model_repo : string) : M (string * string) :=
  Eff.emit (EvDownload model_repo LABEL_FILENAME) ;;;
  csv_path <- Eff.lift (hf_hub_download ext model_repo LABEL_FILENAME) ;;
  Eff.emit (EvDownload model_repo MODEL_FILENAME) ;;;
  model_path <- Eff.lift (hf_hub_download ext model_repo MODEL_FILENAME) ;;
  Eff.ret (csv_path, model_path).

(** [_, height, width, _ = shape] *)
Definition unpack4 {A} (shape : list A) : result (A * A * A * A) :=
  match shape with
  | [a; b; c; d] => Ok (a, b, c, d)
  | _ => Raise ValueError
  end.

(** [model_repo == self.last_loaded_repo] *)
Definition repo_eqb (model_repo : string) (last : option string) : bool :=
  match last with
  | Some r => String.eqb model_repo r
  | None => false
  end.

Definition load_model (model_repo : string) : M unit :=
  fun w =>
    if repo_eqb model_repo (last_loaded_repo (self w)) then (Ok tt, w)
    else
      (paths <- download_model model_repo ;;
       let '(csv_path, model_path) := paths in
       Eff.emit (EvReadCsv csv_path) ;;;
       tags_df <- Eff.lift (read_csv ext csv_path) ;;
       sep_tags <- Eff.lift (load_labels tags_df) ;;
       let '(names, ratings, generals, characters) := sep_tags in
       Eff.update (set_tag_names names) ;;;
       Eff.update (set_rating_indexes ratings) ;;;
       Eff.update (set_general_indexes generals) ;;;
       Eff.update (set_character_indexes characters) ;;;
       Eff.emit (EvSession model_path) ;;;
       session <- Eff.lift (InferenceSession ext model_path) ;;
       dims <- Eff.lift (unpack4 (input_shape session)) ;;
       let '(_, height, _, _) := dims in
       Eff.update (set_model_target_size height) ;;;
       Eff.update (set_last_loaded_repo model_repo) ;;;
       Eff.update (set_model session)) w.

Definition prepare_image (image : Image RGBA) : M Tensor :=
  fun w =>
    let target_size := model_target_size (self w) in
    let canvas := Image_new (size image) (255, 255, 255, 255)%Z in
    let canvas := alpha_composite (pil_blend ext) canvas image in
    let image := convert_RGB canvas in
    (* Pad image to square *)
    let image_shape := size image in
    let max_dim := Nat.max (fst image_shape) (snd image_shape) in
    let pad_left := (max_dim - fst image_shape) / 2 in
    let pad_top := (max_dim - snd image_shape) / 2 in
    let padded_image := Image_new (max_dim, max_dim) (255, 255, 255)%Z in
    let padded_image := paste padded_image image (pad_left, pad_top) in
    (* Resize: a target size that is not an integer differs from [max_dim]
       and is refused by [resize]. *)
    match target_size with
    | None => (Raise TypeError, w)
    | Some target_size =>
        let padded_image :=
          if negb (max_dim =? target_size)
          then pil_resize ext padded_image (target_size, target_size)
          else padded_image in
        let image_array := asarray padded_image in
        let image_array := reverse_channels image_array in
        (Ok (expand_dims image_array), w)
    end.

(** [[x for x in names if x[1] > thresh]] *)
Definition above (thresh : Q) (names : list (string * Q)) : list (string * Q) :=
  filter (fun x => Qgtb (snd x) thresh) names.

(** The last three statements of [predict]. *)
Definition format_general (general_res : dict) : string :=
  let sorted_general_strings :=
    stable_sort (fun a b => Qle_bool (snd b) (snd a)) (items general_res) in
  let sorted_general_strings := map fst sorted_general_strings in
  str_replace ")"%char "\)"%string
    (str_replace "("%char "\("%string
       (str_join ", "%string sorted_general_strings)).

Definition predict (image : Image RGBA) (model_repo : string)
    (general_thresh : Q) (general_mcut_enabled : bool)
    (character_thresh : Q) (character_mcut_enabled : bool)
  : M (string * dict * dict * dict) :=
  load_model model_repo ;;;
  image <- prepare_image image ;;
  session <- Eff.attr model ;;
  Eff.emit EvRun ;;;
  preds <- Eff.lift (run session image) ;;
  names <- Eff.attr tag_names ;;
  preds0 <- Eff.lift (getitem preds 0) ;;
  let labels := combine names preds0 in
  (* ratings *)
  idx <- Eff.attr rating_indexes ;;
  ratings_names <- Eff.lift (comprehension (getitem labels) idx) ;;
  let rating := py_dict ratings_names in
  (* general tags *)
  idx <- Eff.attr general_indexes ;;
  general_names <- Eff.lift (comprehension (getitem labels) idx) ;;
  general_thresh <-
    (if general_mcut_enabled
     then let general_probs := map snd general_names in
          Eff.lift (mcut_threshold general_probs)
     else Eff.ret general_thresh) ;;
  let general_res := above general_thresh general_names in
  let general_res := py_dict general_res in
  (* characters *)
  idx <- Eff.attr character_indexes ;;
  character_names <- Eff.lift (comprehension (getitem labels) idx) ;;
  character_thresh <-
    (if character_mcut_enabled
     then let character_probs := map snd character_names in
          character_thresh <- Eff.lift (mcut_threshold character_probs) ;;
          Eff.ret (py_max 0.15 character_thresh)
     else Eff.ret character_thresh) ;;
  let character_res := above character_thresh character_names in
  let character_res := py_dict character_res in
  Eff.ret (format_general general_res, rating, character_res, general_res).
End Methods.

(** The statements of [predict] that follow the classifier call, as a
    function of the attributes they read: [labels] is
    [list(zip(self.tag_names, preds[0]))] and [ri], [gi], [ci] are the three
    index groups.  [predict_unfold] and [predict_inv] below relate it to
    [predict]. *)
Definition predict_from_labels (labels : list (string * Q))
    (ri gi ci : list nat)
    (general_thresh : Q) (general_mcut_enabled : bool)
    (character_thresh : Q) (character_mcut_enabled : bool)
  : result (string * dict * dict * dict) :=
  (ratings_names <- comprehension (getitem labels) ri ;;
   general_names <- comprehension (getitem labels) gi ;;
   general_thresh <-
     (if general_mcut_enabled then mcut_threshold (map snd general_names)
      else Ok general_thresh) ;;
   character_names <- comprehension (getitem labels) ci ;;
   character_thresh <-
     (if character_mcut_enabled
      then m <- mcut_threshold (map snd character_names) ;; Ok (py_max 0.15 m)
      else Ok character_thresh) ;;
   Ok (format_general (py_dict (above general_thresh general_names)),
       py_dict ratings_names,
       py_dict (above character_thresh character_names),
       py_dict (above general_thresh general_names)))%pure.

(** [predict] got as far as the zipped labels: the model is loaded (world
    [w1]), the image prepared, the classifier has answered. *)
Definition reaches_labels (ext : Extern) (image : Image RGBA)
    (model_repo : string) (w w1 : World)
    (names : list string) (preds0 : list Q) (ri gi ci : list nat) : Prop :=
  load_model ext model_repo w = (Ok tt, w1) /\
  tag_names (self w1) = Some names /\
  rating_indexes (self w1) = Some ri /\
  general_indexes (self w1) = Some gi /\
  character_indexes (self w1) = Some ci /\
  exists session img preds,
    model (self w1) = Some session /\
    prepare_image ext image w1 = (Ok img, w1) /\
    run session img = Ok preds /\
    getitem preds 0 = Ok preds0.

(** The world [predict] ends in once the classifier has been called. *)
Definition after_run (w1 : World) : World :=
  {| self := self w1; trace := trace w1 ++ [EvRun] |}.

(** * A small artifact store

    Concrete collaborators on which the methods can be run: six
    repositories, a nearest-neighbour resampler and the usual integer
    blending of a pixel over an opaque one. *)
Module Demo.
Local Open Scope string_scope.

Definition table (names : list string) (codes : list Z) : DataFrame :=
  {| df_name := Some names; df_category := Some codes |}.

Definition classifier (preds0 : list Q) : Session :=
  {| input_shape := [Some 1; Some 2; Some 2; Some 3];
     run := fun _ => Ok [preds0] |}.

Definition fetch (repo filename : string) : result string :=
  if String.eqb repo "missing" then Raise FetchError
  else Ok (repo ++ "/" ++ filename).

Definition tables (path : string) : result DataFrame :=
  if String.eqb path "demo/selected_tags.csv" then
    Ok (table ["general"; "sensitive"; "long_hair"; "smile";
               "hatsune_miku"; "kagamine_rin"] [9; 9; 0; 0; 4; 4]%Z)
  else if String.eqb path "dup/selected_tags.csv" then
    Ok (table ["general"; "a_b"; "a b"] [9; 0; 0]%Z)
  else if String.eqb path "long/selected_tags.csv" then
    Ok (table ["general"; "smile"] [9; 0]%Z)
  else if String.eqb path "short/selected_tags.csv" then
    Ok (table ["general"; "smile"; "meta"] [9; 0; 5]%Z)
  else if String.eqb path "skew/selected_tags.csv" then
    Ok (table ["general"; "smile"] [9; 0]%Z)
  else if String.eqb path "broken/selected_tags.csv" then
    Ok (table ["explicit"] [9]%Z)
  else Raise ParseError.

Definition sessions (path : string) : result Session :=
  if String.eqb path "demo/model.onnx" then
    Ok (classifier [0.7; 0.3; 0.1; 0; 0.1; 0]%Q)
  else if String.eqb path "dup/model.onnx" then
    Ok (classifier [1; 0.9; 0.5]%Q)
  else if String.eqb path "long/model.onnx" then
    Ok (classifier [0.9; 0.8; 0.7]%Q)
  else if String.eqb path "short/model.onnx" then
    Ok (classifier [0.9; 0.8]%Q)
  else if String.eqb path "skew/model.onnx" then
    Ok (classifier [0.9]%Q)
  else Raise SessionError.

Definition blend (dst src : RGBA) : RGBA :=
  let '(dr, dg, db, _) := dst in
  let '(sr, sg, sb, sa) := src in
  ((sr * sa + dr * (255 - sa)) / 255,
   (sg * sa + dg * (255 - sa)) / 255,
   (sb * sa + db * (255 - sa)) / 255, 255)%Z.

Definition nearest (im : Image RGB) (sz : nat * nat) : Image RGB :=
  {| size := sz;
     getpixel := fun x y =>
       getpixel im (x * width im / fst sz) (y * height im / snd sz) |}.

Definition hub : Extern :=
  {| hf_hub_download := fetch; read_csv := tables;
     InferenceSession := sessions;
     pil_blend := blend; pil_resize := nearest |}.

Definition fresh : World := {| self := Predictor_init; trace := [] |}.

(** One opaque pixel. *)
Definition dot : Image RGBA :=
  {| size := (1, 1); getpixel := fun _ _ => (10, 20, 30, 255)%Z |}.

(** Three columns, two rows; the pixel in column [x] of row [y] has red
    [10 * x] and green [y], and every pixel of the left column is
    transparent. *)
Definition strip : Image RGBA :=
  {| size := (3, 2);
     getpixel := fun x y =>
       ((10 * Z.of_nat x)%Z, Z.of_nat y, 7%Z,
        if Nat.eqb x 0 then 0%Z else 255%Z) |}.
End Demo.

(** * Reference definitions

    The statements of the specification that the code is compared with. *)

(** [d[k] = sorted[k] - sorted[k+1]] *)
Definition gap (sorted : list Q) (k : nat) : Q :=
  (nth k sorted 0 - nth (S k) sorted 0)%Q.

(** [sorted] is [probs] in descending order, [k] is the first position of
    the largest gap of [sorted], and [t] is the midpoint at [k]. *)
Definition MCut_spec (probs sorted : list Q) (k : nat) (t : Q) : Prop :=
  Permutation sorted probs /\
  StronglySorted (fun a b => (b <= a)%Q) sorted /\
  S k < List.length sorted /\
  (forall j, S j < List.length sorted -> (gap sorted j <= gap sorted k)%Q) /\
  (forall j, j < k -> (gap sorted j < gap sorted k)%Q) /\
  t = ((nth k sorted 0 + nth (S k) sorted 0) / 2)%Q.

(** [d[k]], rounded. *)
Definition gap_with (rnd : Q -> Q) (sorted : list Q) (k : nat) : Q :=
  rnd (nth k sorted 0 - nth (S k) sorted 0)%Q.

(** [MCut_spec] in rounded arithmetic: [k] is the first position of the
    largest rounded gap, and [t] is the rounded half of the rounded sum at
    [k]. *)
Definition MCut_spec_with (rnd : Q -> Q) (probs sorted : list Q) (k : nat)
    (t : Q) : Prop :=
  Permutation sorted probs /\
  StronglySorted (fun a b => (b <= a)%Q) sorted /\
  S k < List.length sorted /\
  (forall j, S j < List.length sorted ->
             (gap_with rnd sorted j <= gap_with rnd sorted k)%Q) /\
  (forall j, j < k -> (gap_with rnd sorted j < gap_with rnd sorted k)%Q) /\
  t = rnd (rnd (nth k sorted 0 + nth (S k) sorted 0) / 2)%Q.

(** A binary64 number of magnitude at most [2 ^ 1022]; every probability
    is one.  On such numbers no difference and no sum comes near the largest
    finite binary64 number. *)
Definition in_range (x : Q) : Prop := binary64 x /\ (Qabs x <= pow2 1022)%Q.

(** The confidence paired with the last occurrence of the name [k]. *)
Fixpoint last_assoc (l : list (string * Q)) (k : string) : option Q :=
  match l with
  | [] => None
  | (k', v) :: l' =>
      match last_assoc l' k with
      | Some v' => Some v'
      | None => if String.eqb k' k then Some v else None
      end
  end.

(** A name with a backslash before each parenthesis, nothing else changed. *)
Fixpoint escape_parens (s : string) : string :=
  match s with
  | EmptyString => EmptyString
  | String c s' =>
      if Ascii.eqb c "("%char || Ascii.eqb c ")"%char
      then String "\"%char (String c (escape_parens s'))
      else String c (escape_parens s')
  end.

(** [prob[i]] and the label at row [i] of the zipped list. *)
Definition label_at (labels : list (string * Q)) (i : nat) : string * Q :=
  nth i labels (EmptyString, 0%Q).
Definition prob (labels : list (string * Q)) (i : nat) : Q :=
  snd (label_at labels i).

(** The labels of a group, in the order of its index list. *)
Definition group (labels : list (string * Q)) (idx : list nat)
  : list (string * Q) :=
  map (label_at labels) idx.

(** The indexes [i] of a group with [prob[i] > t]. *)
Definition accepted (labels : list (string * Q)) (idx : list nat) (t : Q)
  : list nat :=
  filter (fun i => Qgtb (prob labels i) t) idx.

(** What [load_model] obtains before it assigns anything: the two paths and
    the parsed label table. *)
Definition fetch_and_parse (ext : Extern) (model_repo : string)
  : result (string * string * (list string * list nat * list nat * list nat)) :=
  (csv_path <- hf_hub_download ext model_repo LABEL_FILENAME ;;
   model_path <- hf_hub_download ext model_repo MODEL_FILENAME ;;
   tags_df <- read_csv ext csv_path ;;
   sep_tags <- load_labels tags_df ;;
   Ok (csv_path, model_path, sep_tags))%pure.

(** The construction of the classifier and the reading of its input size. *)
Definition build_session (ext : Extern) (model_path : string)
  : result (Session * option nat) :=
  (session <- InferenceSession ext model_path ;;
   dims <- unpack4 (input_shape session) ;;
   let '(_, height, _, _) := dims in
   Ok (session, height))%pure.

(** The external calls of one complete fetch and build. *)
Definition load_events (model_repo csv_path model_path : string) : list event :=
  [EvDownload model_repo LABEL_FILENAME; EvDownload model_repo MODEL_FILENAME;
   EvReadCsv csv_path; EvSession model_path].

(** The four attributes of the catalog, assigned in the order of the code. *)
Definition set_catalog (names : list string) (ri gi ci : list nat)
    (p : Predictor) : Predictor :=
  set_character_indexes ci
    (set_general_indexes gi (set_rating_indexes ri (set_tag_names names p))).

(** The three attributes of the classifier. *)
Definition set_classifier (session : Session) (target : option nat)
    (model_repo : string) (p : Predictor) : Predictor :=
  set_model session
    (set_last_loaded_repo model_repo (set_model_target_size target p)).

(** Shapes of arrays: [has_shape3 a h w c] is [a.shape == (h, w, c)]. *)
Definition has_shape3 (a : Array3) (h w c : nat) : Prop :=
  List.length a = h /\
  Forall (fun row => List.length row = w /\
                     Forall (fun px => List.length px = c) row) a.
Definition has_shape4 (t : Tensor) (n h w c : nat) : Prop :=
  List.length t = n /\ Forall (fun a => has_shape3 a h w c) t.

Definition white : RGB := (255, 255, 255)%Z.
Definition opaque_white : RGBA := (255, 255, 255, 255)%Z.

(** The colour channels of a pixel, in the order red, green, blue and in
    the order blue, green, red. *)
Definition rgb_of (p : RGBA) : RGB := let '(r, g, b, _) := p in (r, g, b).
Definition bgr_of (p : RGB) : list Z := let '(r, g, b) := p in [b; g; r].

(** The entry [t[0][y][x]] of a tensor. *)
Definition entry (t : Tensor) (y x : nat) : list Z :=
  nth x (nth y (nth 0 t []) []) [].

(** [c in s] for a character [c]. *)
Fixpoint contains_char (c : ascii) (s : string) : bool :=
  match s with
  | EmptyString => false
  | String c' s' => Ascii.eqb c' c || contains_char c s'
  end.

(** Every attribute that [predict] reads has been assigned. *)
Definition loaded (p : Predictor) : Prop :=
  tag_names p <> None /\ rating_indexes p <> None /\
  general_indexes p <> None /\ character_indexes p <> None /\
  model p <> None.

(** The state of a predictor between two calls: as long as an identifier is
    cached, the attributes exist. *)
Definition coherent (p : Predictor) : Prop :=
  last_loaded_repo p = None \/ loaded p.

(** A computation that leaves the world as it found it. *)
Definition silent {A} (m : M A) : Prop := forall w, snd (m w) = w.

(** * Batch processing

    [save_caption_to_file] and the generator [process_batch_images].  The
    generator is embedded as the list of the pairs it yields, in order,
    together with the pair it returns; a consumer that stops early sees an
    initial part of that list.  PIL's file decoding, [pathlib], [os] and the
    text of an exception are collaborators of the host, gathered in [Host];
    their calls are written to a second log. *)

Inductive outcome (E A : Type) : Type :=
| Done (a : A)
| Thrown (e : E).
Arguments Done {E A} a.
Arguments Thrown {E A} e.

(** What PIL and [os] raise. *)
Inductive host_exn : Type :=
| FileNotFoundError
| UnidentifiedImageError
| OSError.

(** What the [except Exception] clause of the generator can catch. *)
Inductive caught : Type :=
| PredictExn (e : exn)
| HostExn (e : host_exn).

(** The result of [Image.open]: an image in mode [RGBA], or an image in
    another mode, known by its mode and a handle. *)
Inductive PILImage : Type :=
| RGBAImage (im : Image RGBA)
| OtherImage (mode : string) (handle : nat).

Record Host : Type := {
  image_open : string -> outcome host_exn PILImage;
  image_convert_RGBA : string -> nat -> outcome host_exn (Image RGBA);
  path_name : string -> string;
  path_stem : string -> string;
  path_join : string -> string -> string;
  makedirs : string -> outcome host_exn unit;
  open_write : string -> outcome host_exn unit;
  exn_message : caught -> string
}.

(** The calls [Image.open(path)], [os.makedirs(dir, exist_ok=True)] and
    [time.sleep(0.1)], and a file opened for writing and filled with [text]. *)
Inductive host_event : Type :=
| HvOpen (path : string)
| HvMakedirs (dir : string)
| HvWrite (path text : string)
| HvSleep.

(** The predictor with its trace, and the log of the host. *)
Record Batch : Type := {
  world : World;
  host_log : list host_event
}.

(** The body of a [try]: a value or a caught exception, and a state. *)
Definition T (A : Type) : Type := Batch -> outcome caught A * Batch.

Module Try.
Definition ret {A} (a : A) : T A := fun b => (Done a, b).
Definition bind {A B} (m : T A) (k : A -> T B) : T B :=
  fun b => match m b with
           | (Done a, b') => k a b'
           | (Thrown e, b') => (Thrown e, b')
           end.
Definition host {A} (r : outcome host_exn A) : T A :=
  fun b => match r with
           | Done a => (Done a, b)
           | Thrown e => (Thrown (HostExn e), b)
           end.
Definition log (ev : host_event) : T unit :=
  fun b => (Done tt, {| world := world b; host_log := host_log b ++ [ev] |}).
(** A method of the predictor, run on the world of the batch. *)
Definition method {A} (m : M A) : T A :=
  fun b => match m (world b) with
           | (Ok a, w') => (Done a, {| world := w'; host_log := host_log b |})
           | (Raise e, w') =>
               (Thrown (PredictExn e), {| world := w'; host_log := host_log b |})
           end.
End Try.

Declare Scope try_scope.
Delimit Scope try_scope with try.
Notation "x <- c ;; k" := (Try.bind c (fun x => k))
  (at level 61, c at next level, right associativity) : try_scope.
Notation "c ;;; k" := (Try.bind c (fun _ => k))
  (at level 61, right associativity) : try_scope.

(** [str(n)] for a non-negative integer. *)
Definition str_nat (n : nat) : string :=
  NilEmpty.string_of_uint (Nat.to_uint n).

(** The separator of the transcript: two line feeds. *)
Definition blank_line : string :=
  String (ascii_of_nat 10) (String (ascii_of_nat 10) EmptyString).

(** The truth value of a string: it is not empty. *)
Definition truthy (s : string) : bool :=
  match s with EmptyString => false | String _ _ => true end.

Section Batch.
Variable host : Host.
Variable ext : Extern.
Local Open Scope try_scope.

Definition save_caption_to_file (image_path caption output_dir : string)
  : T unit :=
  if negb (truthy output_dir) then Try.ret tt
  else
    let output_path :=
      path_join host output_dir
        (path_stem host image_path ++ ".txt")%string in
    Try.log (HvMakedirs output_dir) ;;;
    Try.host (makedirs host output_dir) ;;;
    Try.host (open_write host output_path) ;;;
    Try.log (HvWrite output_path caption).

(** [if img.mode != "RGBA": img = img.convert("RGBA")] *)
Definition ensure_RGBA (img : PILImage) : outcome host_exn (Image RGBA) :=
  match img with
  | RGBAImage im => Done im
  | OtherImage mode handle => image_convert_RGBA host mode handle
  end.

(** The statements of the [try] block up to the caption of the image. *)
Definition caption_of (img_path model_repo : string)
    (general_thresh : Q) (general_mcut_enabled : bool)
    (character_thresh : Q) (character_mcut_enabled : bool)
    (output_dir : string) : T string :=
  Try.log (HvOpen img_path) ;;;
  img <- Try.host (image_open host img_path) ;;
  img <- Try.host (ensure_RGBA img) ;;
  out <- Try.method
           (predict ext img model_repo general_thresh general_mcut_enabled
                    character_thresh character_mcut_enabled) ;;
  let '(sorted_general_strings, _, _, _) := out in
  (if truthy output_dir
   then save_caption_to_file img_path sorted_general_strings output_dir
   else Try.ret tt) ;;;
  Try.ret sorted_general_strings.

(** One turn of the loop: the pair it yields, the list [results] and the
    state after it. *)
Definition iteration (model_repo : string)
    (general_thresh : Q) (general_mcut_enabled : bool)
    (character_thresh : Q) (character_mcut_enabled : bool)
    (output_dir : string) (total idx : nat) (img_path : string)
    (results : list string) (b : Batch)
  : (string * string) * list string * Batch :=
  match caption_of img_path model_repo general_thresh general_mcut_enabled
                   character_thresh character_mcut_enabled output_dir b with
  | (Done sorted_general_strings, b') =>
      let results := results ++ [sorted_general_strings] in
      let progress_text :=
        ("Processing " ++ path_name host img_path ++ " ("
         ++ str_nat idx ++ "/" ++ str_nat total ++ ")")%string in
      ((progress_text, str_join blank_line results), results,
       {| world := world b'; host_log := host_log b' ++ [HvSleep] |})
  | (Thrown e, b') =>
      let error_msg :=
        ("Error processing " ++ path_name host img_path ++ ": "
         ++ exn_message host e)%string in
      let results := results ++ [error_msg] in
      ((("Error (" ++ str_nat idx ++ "/" ++ str_nat total ++ ")")%string,
        str_join blank_line results), results, b')
  end.

(** [for idx, img_path in enumerate(images, idx)] *)
Fixpoint batch_loop (model_repo : string)
    (general_thresh : Q) (general_mcut_enabled : bool)
    (character_thresh : Q) (character_mcut_enabled : bool)
    (output_dir : string) (total idx : nat) (images : list string)
    (results : list string) (b : Batch)
  : list (string * string) * list string * Batch :=
  match images with
  | [] => ([], results, b)
  | img_path :: images' =>
      let '(yielded, results', b') :=
        iteration model_repo general_thresh general_mcut_enabled
                  character_thresh character_mcut_enabled output_dir
                  total idx img_path results b in
      let '(rest, results'', b'') :=
        batch_loop model_repo general_thresh general_mcut_enabled
                   character_thresh character_mcut_enabled output_dir
                   total (S idx) images' results' b' in
      (yielded :: rest, results'', b'')
  end.

(** The state in which the generator starts: [Predictor()] and empty logs. *)
Definition batch_start : Batch :=
  {| world := {| self := Predictor_init; trace := [] |}; host_log := [] |}.

(** [images] is [None] when nothing was uploaded; [len(None)] raises. *)
Definition process_batch_images (images : option (list string))
    (model_repo : string)
    (general_thresh : Q) (general_mcut_enabled : bool)
    (character_thresh : Q) (character_mcut_enabled : bool)
    (output_dir : string)
  : result (list (string * string) * (string * string)) * Batch :=
  match images with
  | None => (Raise TypeError, batch_start)
  | Some images =>
      let total := List.length images in
      let '(yields, results, b) :=
        batch_loop model_repo general_thresh general_mcut_enabled
                   character_thresh character_mcut_enabled output_dir
                   total 1 images [] batch_start in
      (Ok (yields, ("Done!"%string, str_join blank_line results)), b)
  end.
End Batch.

(** A host and a seventh repository on which the batch can be run. *)
Module BatchDemo.
Local Open Scope string_scope.

Definition tables (path : string) : result DataFrame :=
  if String.eqb path "chars/selected_tags.csv" then
    Ok (Demo.table ["general"; "miku"; "rin"; "smile"] [9; 4; 4; 0]%Z)
  else if String.eqb path "dynamic/selected_tags.csv" then
    Ok (Demo.table ["general"] [9]%Z)
  else Demo.tables path.

Definition sessions (path : string) : result Session :=
  if String.eqb path "chars/model.onnx" then
    Ok (Demo.classifier [1; 0.9; 0.2; 0.8]%Q)
  else if String.eqb path "dynamic/model.onnx" then
    Ok {| input_shape := [None; None; None; Some 3];
          run := fun _ => Ok [[1%Q]] |}
  else Demo.sessions path.

Definition hub : Extern :=
  {| hf_hub_download := Demo.fetch; read_csv := tables;
     InferenceSession := sessions;
     pil_blend := Demo.blend; pil_resize := Demo.nearest |}.

Definition files (path : string) : outcome host_exn PILImage :=
  if String.eqb path "in/cat.png" then Done (RGBAImage Demo.dot)
  else if String.eqb path "in/dog.jpg" then Done (OtherImage "RGB" 0)
  else if String.eqb path "other/cat.gif" then Done (OtherImage "P" 1)
  else if String.eqb path "in/notes.txt" then Thrown UnidentifiedImageError
  else Thrown FileNotFoundError.

Definition names (path : string) : string :=
  if String.eqb path "in/cat.png" then "cat.png"
  else if String.eqb path "in/dog.jpg" then "dog.jpg"
  else if String.eqb path "other/cat.gif" then "cat.gif"
  else if String.eqb path "in/notes.txt" then "notes.txt"
  else path.

Definition stems (path : string) : string :=
  if String.eqb path "in/cat.png" then "cat"
  else if String.eqb path "in/dog.jpg" then "dog"
  else if String.eqb path "other/cat.gif" then "cat"
  else if String.eqb path "in/notes.txt" then "notes"
  else path.

Definition messages (e : caught) : string :=
  match e with
  | PredictExn FetchError => "repository not found"
  | PredictExn _ => "prediction failed"
  | HostExn FileNotFoundError => "no such file"
  | HostExn UnidentifiedImageError => "cannot identify image file"
  | HostExn OSError => "permission denied"
  end.

Definition host : Host :=
  {| image_open := files;
     image_convert_RGBA := fun _ _ => Done Demo.dot;
     path_name := names; path_stem := stems;
     path_join := fun d n => d ++ "/" ++ n;
     makedirs := fun d => if String.eqb d "/proc" then Thrown OSError
                          else Done tt;
     open_write := fun _ => Done tt;
     exn_message := messages |}.
End BatchDemo.

(** ** Reference definitions for the batch *)

(** The files written, in order: the [HvWrite] events of a log. *)
Fixpoint writes (log : list host_event) : list (string * string) :=
  match log with
  | [] => []
  | HvWrite path text :: log' => (path, text) :: writes log'
  | _ :: log' => writes log'
  end.

(** The directories that [os.makedirs] was called with. *)
Fixpoint made_dirs (log : list host_event) : list string :=
  match log with
  | [] => []
  | HvMakedirs dir :: log' => dir :: made_dirs log'
  | _ :: log' => made_dirs log'
  end.

(** The files that [Image.open] was called with. *)
Fixpoint opened (log : list host_event) : list string :=
  match log with
  | [] => []
  | HvOpen path :: log' => path :: opened log'
  | _ :: log' => opened log'
  end.

(** The calls of the hub in a trace of the predictor. *)
Definition is_download (ev : event) : bool :=
  match ev with EvDownload _ _ => true | _ => false end.

(** The two progress texts and the transcript line of a failure. *)
Definition processing_text (host : Host) (total idx : nat) (img_path : string)
  : string :=
  ("Processing " ++ path_name host img_path ++ " ("
   ++ str_nat idx ++ "/" ++ str_nat total ++ ")")%string.
Definition error_text (total idx : nat) : string :=
  ("Error (" ++ str_nat idx ++ "/" ++ str_nat total ++ ")")%string.
Definition error_line (host : Host) (img_path : string) (e : caught) : string :=
  ("Error processing " ++ path_name host img_path ++ ": "
   ++ exn_message host e)%string.

(** Where the caption of an image goes. *)
Definition caption_path (host : Host) (output_dir img_path : string) : string :=
  path_join host output_dir (path_stem host img_path ++ ".txt")%string.

(** The image that the loop passes to [predict], when [Image.open] and the
    conversion succeed. *)
Definition usable (host : Host) (img_path : string) : option (Image RGBA) :=
  match image_open host img_path with
  | Done img =>
      match ensure_RGBA host img with
      | Done im => Some im
      | Thrown _ => None
      end
  | Thrown _ => None
  end.

Definition is_usable (host : Host) (img_path : string) : bool :=
  match usable host img_path with Some _ => true | None => false end.

(** The run of the loop of [process_batch_images]: what it yields, the list
    [results] at its end and the final state. *)
Definition batch_run (host : Host) (ext : Extern) (images : list string)
    (model_repo : string)
    (general_thresh : Q) (general_mcut_enabled : bool)
    (character_thresh : Q) (character_mcut_enabled : bool)
    (output_dir : string)
  : list (string * string) * list string * Batch :=
  batch_loop host ext model_repo general_thresh general_mcut_enabled
             character_thresh character_mcut_enabled output_dir
             (List.length images) 1 images [] batch_start.

(** The captions written for the images that went through. *)
Fixpoint written_by (host : Host) (output_dir : string)
    (images : list string) (oks : list bool) (lines : list string)
  : list (string * string) :=
  match images, oks, lines with
  | img_path :: images', ok :: oks', line :: lines' =>
      (if ok then [(caption_path host output_dir img_path, line)] else [])
      ++ written_by host output_dir images' oks' lines'
  | _, _, _ => []
  end.

(** The predictor and its trace after a batch: only the images that could
    be opened reach [predict]. *)
Fixpoint batch_world (host : Host) (ext : Extern) (model_repo : string)
    (general_thresh : Q) (general_mcut_enabled : bool)
    (character_thresh : Q) (character_mcut_enabled : bool)
    (images : list string) (w : World) : World :=
  match images with
  | [] => w
  | img_path :: images' =>
      batch_world host ext model_repo general_thresh general_mcut_enabled
        character_thresh character_mcut_enabled images'
        (match usable host img_path with
         | Some im =>
             snd (predict ext im model_repo general_thresh
                          general_mcut_enabled character_thresh
                          character_mcut_enabled w)
         | None => w
         end)
  end.

(** The calls of the classifier in a trace of the predictor. *)
Definition is_run (ev : event) : bool :=
  match ev with EvRun => true | _ => false end.

(** * Properties *)

(** ** Comparisons of confidences *)

Lemma Qgtb_lt (x y : Q) : Qgtb x y = true <-> (y < x)%Q.
Proof.
  unfold Qgtb. rewrite negb_true_iff. split; intros H.
  - apply Qnot_le_lt. intros Hle. apply Qle_bool_iff in Hle. congruence.
  - destruct (Qle_bool x y) eqn:E; trivial.
    apply Qle_bool_iff in E. exfalso. exact (Qlt_not_le _ _ H E).
Qed.

Lemma Qgtb_le (x y : Q) : Qgtb x y = false <-> (x <= y)%Q.
Proof.
  unfold Qgtb. rewrite negb_false_iff. apply Qle_bool_iff.
Qed.

Lemma py_max_spec (a b : Q) :
  (a <= py_max a b)%Q /\ (b <= py_max a b)%Q /\ (py_max a b = a \/ py_max a b = b).
Proof.
  unfold py_max. destruct (Qgtb b a) eqn:E.
  - apply Qgtb_lt in E. repeat split; auto using Qlt_le_weak, Qle_refl.
  - apply Qgtb_le in E. repeat split; auto using Qle_refl.
Qed.


(** ** The insertion sort *)

Section SortFacts.
Context {A : Type} (le : A -> A -> bool).

Lemma insert_sorted_perm (x : A) (l : list A) :
  Permutation (insert_sorted le x l) (x :: l).
Proof.
  induction l as [|y l IH]; simpl; [reflexivity|].
  destruct (le x y); [reflexivity|].
  rewrite IH. apply perm_swap.
Qed.

Lemma stable_sort_perm (l : list A) : Permutation (stable_sort le l) l.
Proof.
  induction l as [|x l IH]; simpl; [constructor|].
  rewrite insert_sorted_perm. now constructor.
Qed.

Lemma stable_sort_length (l : list A) :
  List.length (stable_sort le l) = List.length l.
Proof. apply Permutation_length, stable_sort_perm. Qed.

(** Elements that may stand before one another in both directions are
    never exchanged. *)
Lemma insert_sorted_filter (p : A -> bool) (x : A) (l : list A) :
  (forall a b, p a = true -> p b = true -> le a b = true) ->
  filter p (insert_sorted le x l) = filter p (x :: l).
Proof.
  intros Hp. induction l as [|y l IH]; [reflexivity|].
  cbn [insert_sorted]. destruct (le x y) eqn:E; [reflexivity|].
  cbn [filter] in *. rewrite IH.
  destruct (p x) eqn:Px, (p y) eqn:Py; trivial.
  rewrite (Hp x y Px Py) in E. discriminate.
Qed.

Lemma stable_sort_filter (p : A -> bool) (l : list A) :
  (forall a b, p a = true -> p b = true -> le a b = true) ->
  filter p (stable_sort le l) = filter p l.
Proof.
  intros Hp. induction l as [|x l IH]; [reflexivity|].
  cbn [stable_sort]. rewrite insert_sorted_filter by exact Hp.
  cbn [filter]. now rewrite IH.
Qed.

Hypothesis le_total : forall a b, le a b = true \/ le b a = true.
Hypothesis le_trans :
  forall a b c, le a b = true -> le b c = true -> le a c = true.

Lemma insert_sorted_sorted (x : A) (l : list A) :
  StronglySorted (fun a b => le a b = true) l ->
  StronglySorted (fun a b => le a b = true) (insert_sorted le x l).
Proof.
  induction 1 as [|y l Hs IH Hy]; simpl.
  - repeat constructor.
  - destruct (le x y) eqn:E.
    + constructor; [now constructor|].
      constructor; [exact E|].
      eapply Forall_impl; [|exact Hy].
      intros z Hz. exact (le_trans _ _ _ E Hz).
    + constructor; [exact IH|].
      eapply Permutation_Forall;
        [symmetry; apply insert_sorted_perm|].
      constructor; [|exact Hy].
      destruct (le_total x y) as [H|H]; [congruence|exact H].
Qed.

Lemma stable_sort_sorted (l : list A) :
  StronglySorted (fun a b => le a b = true) (stable_sort le l).
Proof.
  induction l as [|x l IH]; simpl; [constructor|].
  now apply insert_sorted_sorted.
Qed.
End SortFacts.

Lemma StronglySorted_snoc {A} (R : A -> A -> Prop) (l : list A) (x : A) :
  StronglySorted R l -> Forall (fun y => R y x) l ->
  StronglySorted R (l ++ [x]).
Proof.
  induction 1 as [|y l Hs IH Hy]; intros Hx; simpl.
  - repeat constructor.
  - inversion Hx; subst. constructor; [now apply IH|].
    apply Forall_app. split; [exact Hy|now constructor].
Qed.

Lemma StronglySorted_rev {A} (R : A -> A -> Prop) (l : list A) :
  StronglySorted R l -> StronglySorted (fun a b => R b a) (rev l).
Proof.
  induction 1 as [|y l Hs IH Hy]; simpl; [constructor|].
  apply StronglySorted_snoc; [exact IH|].
  apply Forall_rev. exact Hy.
Qed.

Lemma StronglySorted_map {A B} (f : A -> B) (R : B -> B -> Prop) (l : list A) :
  StronglySorted (fun a b => R (f a) (f b)) l -> StronglySorted R (map f l).
Proof.
  induction 1 as [|y l Hs IH Hy]; simpl; constructor; trivial.
  apply Forall_map. exact Hy.
Qed.

(** ** [mcut_threshold] *)

Lemma combine_seq_In (l : list Q) (k i : nat) (v : Q) :
  In (i, v) (combine (seq k (List.length l)) l) ->
  k <= i /\ nth_error l (i - k) = Some v.
Proof.
  revert k. induction l as [|x l IH]; intros k; simpl; [tauto|].
  intros [H|H].
  - inversion H; subst. rewrite Nat.sub_diag. auto.
  - apply IH in H. destruct H as [Hk Hn]. split; [lia|].
    replace (i - k) with (S (i - S k)) by lia. exact Hn.
Qed.

Lemma take_indices_pairs (probs : list Q) (ps : list (nat * Q)) :
  Forall (fun p => nth_error probs (fst p) = Some (snd p)) ps ->
  take_indices probs (map fst ps) = map snd ps.
Proof.
  unfold take_indices. induction 1 as [|[i v] ps H _ IH]; simpl; [reflexivity|].
  f_equal; [|exact IH]. simpl in H. now apply nth_error_nth.
Qed.

Lemma sorted_probs_eq (probs : list Q) :
  take_indices probs (rev (argsort probs)) = rev (map snd (sorted_pairs probs)).
Proof.
  unfold argsort.
  rewrite <- map_rev, <- map_rev. apply take_indices_pairs.
  apply Forall_forall. intros [i v] Hin. simpl.
  apply In_rev in Hin.
  eapply Permutation_in in Hin; [|apply stable_sort_perm].
  apply combine_seq_In in Hin. destruct Hin as [_ Hin].
  now rewrite Nat.sub_0_r in Hin.
Qed.

Lemma map_snd_combine_seq (l : list Q) (k : nat) :
  map snd (combine (seq k (List.length l)) l) = l.
Proof.
  revert k. induction l as [|x l IH]; intros k; simpl; [reflexivity|].
  now rewrite IH.
Qed.

Lemma sorted_probs_perm (probs : list Q) :
  Permutation (take_indices probs (rev (argsort probs))) probs.
Proof.
  rewrite sorted_probs_eq, <- Permutation_rev.
  unfold sorted_pairs.
  rewrite (Permutation_map snd (stable_sort_perm _ _)).
  now rewrite map_snd_combine_seq.
Qed.

Lemma StronglySorted_impl {A} (R R' : A -> A -> Prop) (l : list A) :
  (forall a b, R a b -> R' a b) -> StronglySorted R l -> StronglySorted R' l.
Proof.
  intros HR. induction 1 as [|y l Hs IH Hy]; constructor; trivial.
  eapply Forall_impl; [|exact Hy]. intros z. apply HR.
Qed.

Lemma sorted_probs_descending (probs : list Q) :
  StronglySorted (fun a b => (b <= a)%Q) (take_indices probs (rev (argsort probs))).
Proof.
  rewrite sorted_probs_eq.
  apply (StronglySorted_rev Qle), (StronglySorted_map snd Qle).
  apply StronglySorted_impl
    with (R := fun a b : nat * Q => Qle_bool (snd a) (snd b) = true).
  - intros a b. apply Qle_bool_iff.
  - apply stable_sort_sorted.
    + intros a b. rewrite !Qle_bool_iff.
      destruct (Qlt_le_dec (snd b) (snd a)); auto using Qlt_le_weak.
    + intros a b c. rewrite !Qle_bool_iff. apply Qle_trans.
Qed.

Lemma getitem_nth {A} (l : list A) (i : nat) (d : A) :
  i < List.length l -> getitem l i = Ok (nth i l d).
Proof.
  intros H. unfold getitem.
  destruct (nth_error l i) eqn:E.
  - now rewrite (nth_error_nth _ _ d E).
  - apply nth_error_None in E. lia.
Qed.

Lemma getitem_Ok {A} (l : list A) (i : nat) (a : A) :
  getitem l i = Ok a <-> nth_error l i = Some a.
Proof.
  unfold getitem. destruct (nth_error l i); split; congruence.
Qed.

Lemma getitem_Raise {A} (l : list A) (i : nat) (e : exn) :
  getitem l i = Raise e <-> (List.length l <= i /\ e = IndexError).
Proof.
  unfold getitem. destruct (nth_error l i) eqn:E; split.
  - discriminate.
  - intros [H _]. apply nth_error_None in H. congruence.
  - intros H. inversion H. split; trivial. now apply nth_error_None.
  - intros [_ ->]. reflexivity.
Qed.

Lemma consecutive_difs_cons (x y : Q) (a : list Q) :
  consecutive_difs (x :: y :: a) = (x - y)%Q :: consecutive_difs (y :: a).
Proof. reflexivity. Qed.

Lemma consecutive_difs_length (a : list Q) :
  List.length (consecutive_difs a) = List.length a - 1.
Proof.
  induction a as [|x [|y a] IH]; try reflexivity.
  rewrite consecutive_difs_cons. cbn [List.length] in *. lia.
Qed.

Lemma consecutive_difs_nth (a : list Q) (j : nat) :
  S j < List.length a -> nth j (consecutive_difs a) 0%Q = gap a j.
Proof.
  revert j. induction a as [|x [|y a] IH]; intros j Hj;
    try (cbn [List.length] in Hj; lia).
  rewrite consecutive_difs_cons. destruct j as [|j]; [reflexivity|].
  cbn [nth]. rewrite IH by (cbn [List.length] in *; lia).
  reflexivity.
Qed.

(** What the scan returns, for the array [pre ++ l] of which [pre] has been
    read. *)
Lemma argmax_from_spec (l pre : list Q) (best_i : nat) (best : Q) :
  best_i < List.length pre ->
  nth best_i pre 0%Q = best ->
  (forall j, j < List.length pre -> (nth j pre 0 <= best)%Q) ->
  (forall j, j < best_i -> (nth j pre 0 < best)%Q) ->
  let k := argmax_from best_i best (List.length pre) l in
  k < List.length (pre ++ l) /\
  (forall j, j < List.length (pre ++ l) ->
             (nth j (pre ++ l) 0 <= nth k (pre ++ l) 0)%Q) /\
  (forall j, j < k -> (nth j (pre ++ l) 0 < nth k (pre ++ l) 0)%Q).
Proof.
  revert pre best_i best.
  induction l as [|x l IH]; intros pre best_i best Hi Hb Hle Hlt; cbn [argmax_from].
  - rewrite app_nil_r. rewrite Hb. auto.
  - assert (Hpre : List.length (pre ++ [x]) = S (List.length pre))
      by (rewrite length_app; simpl; lia).
    assert (Hfull : pre ++ x :: l = (pre ++ [x]) ++ l)
      by (rewrite <- app_assoc; reflexivity).
    rewrite Hfull, <- Hpre.
    assert (Hold : forall j, j < List.length pre ->
                             nth j (pre ++ [x]) 0%Q = nth j pre 0%Q)
      by (intros j Hj; now apply app_nth1).
    assert (Hnew : nth (List.length pre) (pre ++ [x]) 0%Q = x)
      by apply nth_middle.
    destruct (Qgtb x best) eqn:E.
    + apply Qgtb_lt in E. apply IH.
      * lia.
      * exact Hnew.
      * intros j Hj. rewrite Hpre in Hj.
        destruct (Nat.eq_dec j (List.length pre)) as [->|Hne].
        -- rewrite Hnew. apply Qle_refl.
        -- rewrite Hold by lia. apply Qlt_le_weak.
           eapply Qle_lt_trans; [apply Hle; lia|exact E].
      * intros j Hj. rewrite Hold by lia.
        eapply Qle_lt_trans; [apply Hle; lia|exact E].
    + apply Qgtb_le in E. apply IH.
      * lia.
      * rewrite Hold by lia. exact Hb.
      * intros j Hj. rewrite Hpre in Hj.
        destruct (Nat.eq_dec j (List.length pre)) as [->|Hne].
        -- now rewrite Hnew.
        -- rewrite Hold by lia. apply Hle. lia.
      * intros j Hj. rewrite Hold by lia. now apply Hlt.
Qed.

Lemma argmax_spec (a : list Q) :
  a <> [] ->
  exists k, argmax a = Ok k /\ k < List.length a /\
    (forall j, j < List.length a -> (nth j a 0 <= nth k a 0)%Q) /\
    (forall j, j < k -> (nth j a 0 < nth k a 0)%Q).
Proof.
  destruct a as [|x a]; [congruence|]. intros _.
  exists (argmax_from 0 x 1 a). split; [reflexivity|].
  apply (argmax_from_spec a [x] 0 x); simpl; try lia; trivial.
  intros j Hj. replace j with 0 by lia. apply Qle_refl.
Qed.

(** *** The specification determines the threshold

    numpy's default [argsort] is not stable, and the order it gives to equal
    confidences is not specified.  The threshold does not depend on it: any
    two descending arrangements of a vector agree position by position. *)

Lemma filter_length_perm {A} (f : A -> bool) (l l' : list A) :
  Permutation l l' -> List.length (filter f l) = List.length (filter f l').
Proof.
  induction 1 as [|x l l' _ IH|x y l|l l' l'' _ IH1 _ IH2]; simpl.
  - reflexivity.
  - destruct (f x); simpl; congruence.
  - destruct (f x), (f y); reflexivity.
  - congruence.
Qed.

Lemma descending_above_is_prefix (s : list Q) (v : Q) :
  StronglySorted (fun a b => (b <= a)%Q) s ->
  forall i, i < List.length s ->
    (Qgtb (nth i s 0%Q) v = true <->
     i < List.length (filter (fun x => Qgtb x v) s)).
Proof.
  induction 1 as [|a s Hs IH Ha]; intros i Hi; simpl in Hi; [lia|].
  cbn [filter]. destruct (Qgtb a v) eqn:E.
  - destruct i as [|i]; cbn [nth List.length].
    + split; [lia|now intros _].
    + rewrite IH by lia. lia.
  - apply Qgtb_le in E.
    assert (Hnone : forall x, In x s -> Qgtb x v = false).
    { intros x Hx. apply Qgtb_le.
      rewrite Forall_forall in Ha. exact (Qle_trans _ _ _ (Ha x Hx) E). }
    assert (Hempty : filter (fun x => Qgtb x v) s = []).
    { clear -Hnone. induction s as [|x s IHs]; [reflexivity|].
      cbn [filter]. rewrite (Hnone x) by now left.
      apply IHs. intros y Hy. apply Hnone. now right. }
    rewrite Hempty. cbn [List.length].
    split; [|lia]. intros Hgt. exfalso.
    destruct i as [|i]; cbn [nth] in Hgt.
    + apply Qgtb_le in E. congruence.
    + rewrite (Hnone (nth i s 0%Q)) in Hgt; [discriminate|].
      apply nth_In. lia.
Qed.

Lemma descending_arrangements_agree (s s' : list Q) :
  StronglySorted (fun a b => (b <= a)%Q) s ->
  StronglySorted (fun a b => (b <= a)%Q) s' ->
  Permutation s s' ->
  forall i, (nth i s 0 == nth i s' 0)%Q.
Proof.
  intros Hs Hs' Hp i.
  pose proof (Permutation_length Hp) as Hlen.
  destruct (le_lt_dec (List.length s) i) as [Hout|Hin].
  - rewrite !nth_overflow by lia. reflexivity.
  - assert (Hhalf : forall a b : list Q,
      StronglySorted (fun x y => (y <= x)%Q) a ->
      StronglySorted (fun x y => (y <= x)%Q) b ->
      Permutation a b -> i < List.length a ->
      (nth i a 0 <= nth i b 0)%Q).
    { intros a b Ha Hb Hab Hi.
      destruct (Qlt_le_dec (nth i b 0%Q) (nth i a 0%Q)) as [Hlt|]; trivial.
      exfalso. apply Qgtb_lt in Hlt.
      apply (descending_above_is_prefix a _ Ha i Hi) in Hlt.
      rewrite (filter_length_perm _ _ _ Hab) in Hlt.
      pose proof (Permutation_length Hab) as Hl.
      apply (descending_above_is_prefix b _ Hb i) in Hlt; [|lia].
      apply Qgtb_lt in Hlt. exact (Qlt_irrefl _ Hlt). }
    apply Qle_antisym.
    + apply Hhalf; trivial.
    + apply Hhalf; trivial; [now symmetry|lia].
Qed.

Lemma MCut_spec_unique (probs s s' : list Q) (k k' : nat) (t t' : Q) :
  MCut_spec probs s k t -> MCut_spec probs s' k' t' -> (t == t')%Q.
Proof.
  intros (Hp & Hs & Hk & Hmax & Hfirst & ->)
         (Hp' & Hs' & Hk' & Hmax' & Hfirst' & ->).
  assert (Hss : Permutation s s') by (rewrite Hp; now symmetry).
  pose proof (Permutation_length Hss) as Hlen.
  pose proof (descending_arrangements_agree s s' Hs Hs' Hss) as Hnth.
  assert (Hgap : forall j, (gap s j == gap s' j)%Q).
  { intros j. unfold gap. now rewrite (Hnth j), (Hnth (S j)). }
  assert (Hkk : k = k').
  { destruct (lt_eq_lt_dec k k') as [[Hlt|Heq]|Hgt]; trivial; exfalso.
    - specialize (Hfirst' k Hlt). rewrite <- !Hgap in Hfirst'.
      apply (Qlt_not_le _ _ Hfirst'). apply Hmax. lia.
    - specialize (Hfirst k' Hgt). rewrite !Hgap in Hfirst.
      apply (Qlt_not_le _ _ Hfirst). apply Hmax'. lia. }
  subst k'. now rewrite (Hnth k), (Hnth (S k)).
Qed.

Lemma mcut_threshold_meets_spec (probs : list Q) :
  2 <= List.length probs ->
  exists sorted k t,
    mcut_threshold probs = Ok t /\ MCut_spec probs sorted k t.
Proof.
  intros Hlen. unfold mcut_threshold.
  set (s := take_indices probs (rev (argsort probs))).
  assert (Hperm : Permutation s probs) by apply sorted_probs_perm.
  assert (Hs : List.length s = List.length probs)
    by now apply Permutation_length.
  assert (Hd : List.length (consecutive_difs s) = List.length s - 1)
    by apply consecutive_difs_length.
  destruct (argmax_spec (consecutive_difs s)) as (k & Hk & Hkl & Hmax & Hfirst).
  { intros E. rewrite E in Hd. simpl in Hd. lia. }
  exists s, k, ((nth k s 0 + nth (S k) s 0) / 2)%Q. split.
  - rewrite Hk. cbn [Pure.bind].
    rewrite (getitem_nth s k 0%Q) by lia. cbn [Pure.bind].
    rewrite Nat.add_1_r, (getitem_nth s (S k) 0%Q) by lia. reflexivity.
  - repeat split.
    + exact Hperm.
    + apply sorted_probs_descending.
    + lia.
    + intros j Hj. rewrite <- !consecutive_difs_nth by lia. apply Hmax. lia.
    + intros j Hj. rewrite <- !consecutive_difs_nth by lia. now apply Hfirst.
Qed.

(** ** Binary64 arithmetic *)

Lemma pow2_pos (e : Z) : (0 < pow2 e)%Q.
Proof. apply Qpower_0_lt. reflexivity. Qed.

Lemma pow2_nonzero (e : Z) : ~ (pow2 e == 0)%Q.
Proof. intros H. pose proof (pow2_pos e) as Hp. rewrite H in Hp. discriminate. Qed.

Lemma pow2_plus (a b : Z) : (pow2 (a + b) == pow2 a * pow2 b)%Q.
Proof. apply Qpower_plus. discriminate. Qed.

Lemma pow2_le (a b : Z) : (a <= b)%Z -> (pow2 a <= pow2 b)%Q.
Proof. intros H. apply Qpower_le_compat_l; [exact H|discriminate]. Qed.

Lemma pow2_lt (a b : Z) : (a < b)%Z -> (pow2 a < pow2 b)%Q.
Proof. intros H. apply Qpower_lt_compat_l; [exact H|reflexivity]. Qed.

Lemma pow2_lt_inv (a b : Z) : (pow2 a < pow2 b)%Q -> (a < b)%Z.
Proof. intros H. apply (Qpower_lt_compat_l_inv 2); [exact H|reflexivity]. Qed.

Lemma pow2_Z (k : Z) : (0 <= k)%Z -> (pow2 k == inject_Z (2 ^ k))%Q.
Proof. intros H. unfold pow2. now rewrite Zpower_Qpower. Qed.

Lemma pow2_div (x : Q) (u : Z) : (x / pow2 u * pow2 u == x)%Q.
Proof. field. apply pow2_nonzero. Qed.

(** *** The binade *)

Lemma Qabs_make (x : Q) :
  (Qabs x == inject_Z (Z.abs (Qnum x)) / inject_Z (Zpos (Qden x)))%Q.
Proof. destruct x as [n d]. cbn [Qabs Qnum Qden]. apply Qmake_Qdiv. Qed.

Lemma binade_spec (x : Q) :
  ~ (x == 0)%Q -> (pow2 (binade x) <= Qabs x /\ Qabs x < pow2 (binade x + 1))%Q.
Proof.
  intros Hx.
  set (n := Z.abs (Qnum x)). set (d := Zpos (Qden x)).
  assert (Hn : (0 < n)%Z).
  { unfold n. destruct x as [[|p|p] q]; cbn; try lia.
    exfalso. apply Hx. reflexivity. }
  assert (Hd : (0 < d)%Z) by (unfold d; lia).
  pose proof (Z.log2_spec n Hn) as [Hn1 Hn2].
  pose proof (Z.log2_spec d Hd) as [Hd1 Hd2].
  pose proof (Z.log2_nonneg n) as Ha. pose proof (Z.log2_nonneg d) as Hb.
  set (a := Z.log2 n) in *. set (b := Z.log2 d) in *.
  assert (Habs : (Qabs x == inject_Z n / inject_Z d)%Q) by apply Qabs_make.
  assert (Hdq : (0 < inject_Z d)%Q)
    by (change 0%Q with (inject_Z 0); rewrite <- Zlt_Qlt; exact Hd).
  assert (Hlow : (pow2 (a - b - 1) <= Qabs x)%Q).
  { rewrite Habs. apply Qle_shift_div_l; [exact Hdq|].
    replace (a - b - 1)%Z with (a + - (b + 1))%Z by lia.
    rewrite pow2_plus. unfold pow2 at 2. rewrite Qpower_opp.
    fold (pow2 (b + 1)).
    apply Qle_trans with (pow2 a * / pow2 (b + 1) * pow2 (b + 1))%Q.
    - apply Qmult_le_compat_nonneg. split.
      + apply Qlt_le_weak. apply Qmult_lt_0_compat; [apply pow2_pos|].
        apply Qinv_lt_0_compat, pow2_pos.
      + apply Qle_refl.
      + split; [apply Qlt_le_weak, Hdq|].
        rewrite pow2_Z by lia. rewrite <- Zle_Qle.
        replace (b + 1)%Z with (Z.succ b) by lia. lia.
    - rewrite <- Qmult_assoc, (Qmult_comm (/ _)), Qmult_inv_r by apply pow2_nonzero.
      rewrite Qmult_1_r, pow2_Z by lia. rewrite <- Zle_Qle. exact Hn1. }
  assert (Hhigh : (Qabs x < pow2 (a - b + 1))%Q).
  { rewrite Habs. apply Qlt_shift_div_r; [exact Hdq|].
    replace (a - b + 1)%Z with ((a + 1) + - b)%Z by lia.
    rewrite pow2_plus. unfold pow2 at 2. rewrite Qpower_opp. fold (pow2 b).
    apply Qlt_le_trans with (pow2 (a + 1) * / pow2 b * pow2 b)%Q.
    - rewrite <- Qmult_assoc, (Qmult_comm (/ _)), Qmult_inv_r by apply pow2_nonzero.
      rewrite Qmult_1_r, pow2_Z by lia. rewrite <- Zlt_Qlt.
      replace (a + 1)%Z with (Z.succ a) by lia. exact Hn2.
    - apply Qmult_le_compat_nonneg. split.
      + apply Qlt_le_weak. apply Qmult_lt_0_compat; [apply pow2_pos|].
        apply Qinv_lt_0_compat, pow2_pos.
      + apply Qle_refl.
      + split; [apply Qlt_le_weak, pow2_pos|].
        rewrite pow2_Z by lia. rewrite <- Zle_Qle. exact Hd1. }
  unfold binade. fold n d a b.
  destruct (Qle_bool (pow2 (a - b)) (Qabs x)) eqn:E.
  - apply Qle_bool_iff in E. split; [exact E|exact Hhigh].
  - split; [exact Hlow|].
    replace (a - b - 1 + 1)%Z with (a - b)%Z by lia.
    apply Qnot_le_lt. intros H. apply Qle_bool_iff in H. congruence.
Qed.

Lemma binade_unique (x : Q) (e : Z) :
  (pow2 e <= Qabs x)%Q -> (Qabs x < pow2 (e + 1))%Q -> binade x = e.
Proof.
  intros H1 H2.
  assert (Hx : ~ (x == 0)%Q).
  { intros E. rewrite E in H1. apply (Qlt_not_le _ _ (pow2_pos e)). exact H1. }
  destruct (binade_spec x Hx) as [H3 H4].
  assert (binade x < e + 1)%Z
    by (apply pow2_lt_inv; eapply Qle_lt_trans; eassumption).
  assert (e < binade x + 1)%Z
    by (apply pow2_lt_inv; eapply Qle_lt_trans; eassumption).
  lia.
Qed.

Lemma binade_comp (x y : Q) : ~ (x == 0)%Q -> (x == y)%Q -> binade x = binade y.
Proof.
  intros Hx E. symmetry. destruct (binade_spec x Hx) as [H1 H2].
  apply binade_unique; rewrite <- E; assumption.
Qed.

(** *** Rounding to an integer *)

Lemma Qfloor_unique (x : Q) (n : Z) :
  (inject_Z n <= x)%Q -> (x < inject_Z (n + 1))%Q -> Qfloor x = n.
Proof.
  intros H1 H2.
  pose proof (Qfloor_le x) as H3. pose proof (Qlt_floor x) as H4.
  assert (Qfloor x < n + 1)%Z
    by (rewrite Zlt_Qlt; eapply Qle_lt_trans; eassumption).
  assert (n < Qfloor x + 1)%Z
    by (rewrite Zlt_Qlt; eapply Qle_lt_trans; eassumption).
  lia.
Qed.

Lemma round_half_even_comp (x y : Q) :
  (x == y)%Q -> round_half_even x = round_half_even y.
Proof.
  intros E. unfold round_half_even.
  rewrite (Qfloor_comp x y E).
  assert (E' : (x - inject_Z (Qfloor y) == y - inject_Z (Qfloor y))%Q)
    by now rewrite E.
  now rewrite (Qcompare_comp _ _ E' _ _ (Qeq_refl (1 # 2))).
Qed.

Lemma round_half_even_Z (m : Z) : round_half_even (inject_Z m) = m.
Proof.
  unfold round_half_even. rewrite Qfloor_Z.
  replace (inject_Z m - inject_Z m ?= 1 # 2)%Q with Lt; [reflexivity|].
  symmetry. apply -> Qlt_alt. lra.
Qed.

Lemma round_half_even_bounds (x : Q) :
  (Qfloor x <= round_half_even x <= Qfloor x + 1)%Z.
Proof.
  unfold round_half_even.
  destruct (x - inject_Z (Qfloor x) ?= 1 # 2)%Q; [destruct (Z.even _)| |]; lia.
Qed.

Lemma round_half_even_mono (x y : Q) :
  (x <= y)%Q -> (round_half_even x <= round_half_even y)%Z.
Proof.
  intros H.
  pose proof (Qfloor_resp_le x y H) as Hf.
  pose proof (round_half_even_bounds x) as Hx.
  pose proof (round_half_even_bounds y) as Hy.
  destruct (Z.eq_dec (Qfloor x) (Qfloor y)) as [E|Hne]; [|lia].
  unfold round_half_even in *. rewrite E in *.
  set (f := Qfloor y) in *.
  destruct (Qcompare_spec (x - inject_Z f) (1 # 2)) as [Ex|Ex|Ex];
    destruct (Qcompare_spec (y - inject_Z f) (1 # 2)) as [Ey|Ey|Ey];
    try (destruct (Z.even f)); try lia; exfalso; lra.
Qed.

Lemma inject_Z_succ (n : Z) : (inject_Z (n + 1) == inject_Z n + 1)%Q.
Proof. rewrite inject_Z_plus. reflexivity. Qed.

Lemma inject_Z_pred_opp (n : Z) : (inject_Z (- n - 1) == - inject_Z n - 1)%Q.
Proof. unfold Z.sub. rewrite inject_Z_plus, inject_Z_opp. reflexivity. Qed.

Lemma round_half_even_opp (x : Q) :
  round_half_even (- x) = (- round_half_even x)%Z.
Proof.
  pose proof (Qfloor_le x) as H1. pose proof (Qlt_floor x) as H2.
  set (f := Qfloor x) in *.
  rewrite inject_Z_succ in H2.
  destruct (Qeq_dec x (inject_Z f)) as [E|Hne].
  - rewrite (round_half_even_comp (- x) (inject_Z (- f)))
      by (rewrite E, inject_Z_opp; reflexivity).
    rewrite (round_half_even_comp x (inject_Z f) E).
    now rewrite !round_half_even_Z.
  - assert (Hlt : (inject_Z f < x)%Q).
    { apply Qle_lteq in H1. destruct H1 as [|E]; trivial.
      exfalso. apply Hne. now symmetry. }
    pose proof (inject_Z_pred_opp f) as Hinj.
    assert (Hf : Qfloor (- x) = (- f - 1)%Z).
    { apply Qfloor_unique.
      - rewrite Hinj. lra.
      - replace (- f - 1 + 1)%Z with (- f)%Z by lia. rewrite inject_Z_opp. lra. }
    unfold round_half_even. rewrite Hf. fold f.
    destruct (Qcompare_spec (x - inject_Z f) (1 # 2)) as [Ex|Ex|Ex];
      destruct (Qcompare_spec (- x - inject_Z (- f - 1)) (1 # 2)) as [Ey|Ey|Ey];
      rewrite Hinj in Ey; try (exfalso; lra); try lia.
    replace (- f - 1)%Z with (- (f + 1))%Z by lia.
    rewrite Z.even_opp, Z.even_add. cbn.
    destruct (Z.even f); cbn; lia.
Qed.

(** *** Rounding to a multiple of a power of two *)

Lemma round_to_comp (u : Z) (x y : Q) :
  (x == y)%Q -> (round_to u x == round_to u y)%Q.
Proof.
  intros E. unfold round_to.
  rewrite (round_half_even_comp (x / pow2 u) (y / pow2 u)); [reflexivity|].
  apply Qmult_comp; [exact E|reflexivity].
Qed.

Lemma round_to_mono (u : Z) (x y : Q) :
  (x <= y)%Q -> (round_to u x <= round_to u y)%Q.
Proof.
  intros H. unfold round_to.
  apply Qmult_le_compat_r; [|apply Qlt_le_weak, pow2_pos].
  rewrite <- Zle_Qle. apply round_half_even_mono.
  apply Qmult_le_compat_r; [exact H|].
  apply Qlt_le_weak, Qinv_lt_0_compat, pow2_pos.
Qed.

Lemma round_to_multiple (u m : Z) :
  (round_to u (inject_Z m * pow2 u) == inject_Z m * pow2 u)%Q.
Proof.
  unfold round_to.
  rewrite (round_half_even_comp _ (inject_Z m)).
  - now rewrite round_half_even_Z.
  - field. apply pow2_nonzero.
Qed.

Lemma round_to_ge (u m : Z) (x : Q) :
  (inject_Z m * pow2 u <= x -> inject_Z m * pow2 u <= round_to u x)%Q.
Proof.
  intros H. rewrite <- (round_to_multiple u m) at 1. now apply round_to_mono.
Qed.

Lemma round_to_le (u m : Z) (x : Q) :
  (x <= inject_Z m * pow2 u -> round_to u x <= inject_Z m * pow2 u)%Q.
Proof.
  intros H. rewrite <- (round_to_multiple u m). now apply round_to_mono.
Qed.

Lemma round_to_opp (u : Z) (x : Q) : (round_to u (- x) == - round_to u x)%Q.
Proof.
  unfold round_to.
  rewrite (round_half_even_comp (- x / pow2 u) (- (x / pow2 u)))
    by (field; apply pow2_nonzero).
  rewrite round_half_even_opp, inject_Z_opp. ring.
Qed.

Lemma pow2_multiple (u k : Z) :
  (u <= k)%Z -> (pow2 k == inject_Z (2 ^ (k - u)) * pow2 u)%Q.
Proof.
  intros H. rewrite <- pow2_Z by lia. rewrite <- pow2_plus.
  now replace (k - u + u)%Z with k by lia.
Qed.

(** *** Rounding to binary64 *)

Lemma round64_eq (x : Q) :
  ~ (x == 0)%Q -> round64 x = round_to (ulp_exponent x) x.
Proof.
  intros H. unfold round64.
  destruct (Qeq_bool x 0) eqn:E; [|reflexivity].
  apply Qeq_bool_iff in E. contradiction.
Qed.

Lemma round64_0 (x : Q) : (x == 0)%Q -> round64 x = 0%Q.
Proof.
  intros H. unfold round64. apply Qeq_bool_iff in H. now rewrite H.
Qed.

Lemma round64_comp (x y : Q) : (x == y)%Q -> (round64 x == round64 y)%Q.
Proof.
  intros E. destruct (Qeq_dec x 0) as [Hx|Hx].
  - rewrite (round64_0 x Hx), (round64_0 y) by (now rewrite <- E). reflexivity.
  - rewrite (round64_eq x Hx), (round64_eq y) by (now rewrite <- E).
    unfold ulp_exponent. rewrite <- (binade_comp x y Hx E).
    now apply round_to_comp.
Qed.

(** The numbers that Python writes [0.1], [0.3], [0.45]; a third; half the
    smallest positive number, a tie that goes to 0, and three halves of it,
    a tie that goes to twice it. *)
Lemma round64_literals :
  (round64 0.1 == 3602879701896397 # 36028797018963968)%Q /\
  (round64 0.3 == 5404319552844595 # 18014398509481984)%Q /\
  (round64 0.45 == 8106479329266893 # 18014398509481984)%Q /\
  (round64 (1 # 3) == 6004799503160661 # 18014398509481984)%Q /\
  (round64 (pow2 (-1075)) == 0)%Q /\
  (round64 (3 * pow2 (-1075)) == pow2 (-1073))%Q.
Proof. repeat split; vm_compute; reflexivity. Qed.

Lemma binade_opp (x : Q) : ~ (x == 0)%Q -> binade (- x) = binade x.
Proof.
  intros Hx. destruct (binade_spec x Hx) as [H1 H2].
  apply binade_unique; rewrite Qabs_opp; assumption.
Qed.

Lemma round64_opp (x : Q) : (round64 (- x) == - round64 x)%Q.
Proof.
  destruct (Qeq_dec x 0) as [Hx|Hx].
  - rewrite (round64_0 x Hx), (round64_0 (- x)) by (rewrite Hx; reflexivity).
    reflexivity.
  - assert (Hx' : ~ (- x == 0)%Q) by (intros E; apply Hx; lra).
    rewrite (round64_eq x Hx), (round64_eq (- x) Hx').
    unfold ulp_exponent. rewrite (binade_opp x Hx). apply round_to_opp.
Qed.

Lemma round64_nonneg (x : Q) : (0 <= x -> 0 <= round64 x)%Q.
Proof.
  intros H. destruct (Qeq_dec x 0) as [Hx|Hx].
  - rewrite (round64_0 x Hx). apply Qle_refl.
  - rewrite (round64_eq x Hx).
    assert (H0 : (inject_Z 0 * pow2 (ulp_exponent x) == 0)%Q) by ring.
    rewrite <- H0. apply round_to_ge. now rewrite H0.
Qed.

Lemma binade_mono (x y : Q) :
  (0 < x)%Q -> (x <= y)%Q -> (binade x <= binade y)%Z.
Proof.
  intros Hx Hxy.
  destruct (binade_spec x) as [H1 _]; [lra|].
  destruct (binade_spec y) as [_ H2]; [lra|].
  rewrite Qabs_pos in H1, H2 by lra.
  assert (binade x < binade y + 1)%Z; [|lia].
  apply pow2_lt_inv. lra.
Qed.

Lemma round64_mono_pos (x y : Q) :
  (0 < x -> x <= y -> round64 x <= round64 y)%Q.
Proof.
  intros Hx Hxy.
  rewrite (round64_eq x), (round64_eq y) by lra.
  pose proof (binade_mono x y Hx Hxy) as He.
  destruct (binade_spec x) as [_ Hx2]; [lra|].
  destruct (binade_spec y) as [Hy1 _]; [lra|].
  rewrite Qabs_pos in Hx2, Hy1 by lra.
  destruct (Z.eq_dec (ulp_exponent x) (ulp_exponent y)) as [E|Hne].
  - rewrite E. now apply round_to_mono.
  - unfold ulp_exponent in *.
    set (k := binade y) in *.
    assert (Hk : (binade x + 1 <= k)%Z) by lia.
    apply Qle_trans with (pow2 k).
    + rewrite (pow2_multiple (Z.max (binade x - 52) (-1074)) k) by lia.
      apply round_to_le.
      rewrite <- pow2_multiple by lia.
      apply Qlt_le_weak. eapply Qlt_le_trans; [exact Hx2|]. now apply pow2_le.
    + rewrite (pow2_multiple (Z.max (k - 52) (-1074)) k) at 1 by lia.
      apply round_to_ge.
      rewrite <- pow2_multiple by lia. exact Hy1.
Qed.

Lemma round64_mono (x y : Q) : (x <= y -> round64 x <= round64 y)%Q.
Proof.
  intros Hxy.
  destruct (Qlt_le_dec 0 x) as [Hx|Hx]; [now apply round64_mono_pos|].
  assert (Hrx : (round64 x <= 0)%Q).
  { pose proof (round64_nonneg (- x) ltac:(lra)) as H.
    rewrite round64_opp in H. lra. }
  destruct (Qlt_le_dec y 0) as [Hy|Hy].
  - pose proof (round64_mono_pos (- y) (- x) ltac:(lra) ltac:(lra)) as H.
    rewrite !round64_opp in H. lra.
  - pose proof (round64_nonneg y Hy). lra.
Qed.

(** *** The binary64 numbers *)

Lemma Zabs_Qabs_inject (m : Z) : (Qabs (inject_Z m) == inject_Z (Z.abs m))%Q.
Proof. reflexivity. Qed.

Lemma round64_multiple (m v : Z) :
  (Z.abs m < 2 ^ 53)%Z -> (-1074 <= v)%Z ->
  (round64 (inject_Z m * pow2 v) == inject_Z m * pow2 v)%Q.
Proof.
  intros Hm Hv. set (x := (inject_Z m * pow2 v)%Q).
  destruct (Qeq_dec x 0) as [Hx|Hx].
  - rewrite (round64_0 x Hx). now symmetry.
  - rewrite (round64_eq x Hx).
    destruct (binade_spec x Hx) as [H1 _].
    assert (Habs : (Qabs x < pow2 (53 + v))%Q).
    { unfold x. rewrite Qabs_Qmult, Zabs_Qabs_inject.
      rewrite (Qabs_pos (pow2 v)) by apply Qlt_le_weak, pow2_pos.
      rewrite pow2_plus. apply Qmult_lt_compat_r; [apply pow2_pos|].
      rewrite pow2_Z by lia. now rewrite <- Zlt_Qlt. }
    assert (He : (binade x < 53 + v)%Z) by (apply pow2_lt_inv; lra).
    set (u := ulp_exponent x).
    assert (Hu : (u <= v)%Z) by (unfold u, ulp_exponent; lia).
    assert (E : (x == inject_Z (m * 2 ^ (v - u)) * pow2 u)%Q).
    { unfold x. rewrite inject_Z_mult, (pow2_multiple u v Hu). ring. }
    rewrite (round_to_comp u _ _ E), round_to_multiple. now symmetry.
Qed.

Lemma round64_multiple_le (m v : Z) :
  (Z.abs m <= 2 ^ 53)%Z -> (-1074 <= v)%Z ->
  (round64 (inject_Z m * pow2 v) == inject_Z m * pow2 v)%Q.
Proof.
  intros Hm Hv.
  destruct (Z.eq_dec (Z.abs m) (2 ^ 53)) as [E|Hne].
  - assert (Em : (inject_Z m * pow2 v == inject_Z (m / 2) * pow2 (v + 1))%Q).
    { rewrite pow2_plus.
      assert (H2 : m = (2 * (m / 2))%Z).
      { change (2 ^ 53)%Z with 9007199254740992%Z in E.
        destruct (Z.abs_eq_or_opp m) as [A|A]; rewrite A in E;
          [rewrite E|replace m with (- 9007199254740992)%Z by lia]; reflexivity. }
      rewrite H2 at 1. rewrite inject_Z_mult.
      change (pow2 1) with 2%Q. change (inject_Z 2) with 2%Q. ring. }
    rewrite (round64_comp _ _ Em). etransitivity; [|symmetry; exact Em].
    apply round64_multiple; [|lia].
    change (2 ^ 53)%Z with 9007199254740992%Z in *.
    destruct (Z.abs_eq_or_opp m) as [A|A]; rewrite A in E.
    + rewrite E. reflexivity.
    + replace m with (- 9007199254740992)%Z by lia. reflexivity.
  - apply round64_multiple; lia.
Qed.

Lemma round64_form (x : Q) :
  exists m v, (Z.abs m <= 2 ^ 53)%Z /\ (-1074 <= v)%Z /\
              (round64 x == inject_Z m * pow2 v)%Q.
Proof.
  destruct (Qeq_dec x 0) as [Hx|Hx].
  - exists 0%Z, 0%Z. rewrite (round64_0 x Hx).
    split; [cbn; lia|]. split; [lia|]. reflexivity.
  - rewrite (round64_eq x Hx).
    set (u := ulp_exponent x).
    exists (round_half_even (x / pow2 u)), u.
    split; [|split; [unfold u, ulp_exponent; lia|reflexivity]].
    destruct (binade_spec x Hx) as [_ H2].
    assert (Hb : (Qabs x <= inject_Z (2 ^ 53) * pow2 u)%Q).
    { rewrite <- pow2_Z, <- pow2_plus by lia.
      apply Qlt_le_weak. eapply Qlt_le_trans; [exact H2|].
      apply pow2_le. unfold u, ulp_exponent. lia. }
    apply Qabs_Qle_condition in Hb. destruct Hb as [Hlo Hhi].
    apply round_to_le in Hhi.
    assert (Hlo' : (inject_Z (- 2 ^ 53) * pow2 u <= x)%Q)
      by (rewrite inject_Z_opp; lra).
    apply round_to_ge in Hlo'.
    unfold round_to in Hhi, Hlo'.
    apply Qmult_le_r in Hhi, Hlo'; try apply pow2_pos.
    rewrite <- Zle_Qle in Hhi, Hlo'. lia.
Qed.

Lemma round64_idempotent (x : Q) : binary64 (round64 x).
Proof.
  unfold binary64.
  destruct (round64_form x) as (m & v & Hm & Hv & E).
  rewrite (round64_comp _ _ E). etransitivity; [|symmetry; exact E].
  now apply round64_multiple_le.
Qed.

Lemma binary64_double (x : Q) : binary64 x -> binary64 (x + x).
Proof.
  unfold binary64. intros Hx.
  destruct (round64_form x) as (m & v & Hm & Hv & E).
  rewrite Hx in E.
  assert (E2 : (x + x == inject_Z m * pow2 (v + 1))%Q).
  { rewrite pow2_plus, E. change (pow2 1) with 2%Q. ring. }
  rewrite (round64_comp _ _ E2). etransitivity; [|symmetry; exact E2].
  apply round64_multiple_le; lia.
Qed.

(** ** [mcut_threshold] in rounded arithmetic *)

Lemma mcut_threshold_without_rounding (probs : list Q) :
  mcut_threshold_with (fun q => q) probs = mcut_threshold probs.
Proof. reflexivity. Qed.

Lemma np_sub_with_map (rnd : Q -> Q) (a b : list Q) :
  np_sub_with rnd a b = map rnd (np_sub a b).
Proof. unfold np_sub_with, np_sub. now rewrite map_map. Qed.

Lemma rounded_difs_nth (rnd : Q -> Q) (a : list Q) (j : nat) :
  S j < List.length a ->
  nth j (np_sub_with rnd (removelast a) (tl a)) 0%Q = gap_with rnd a j.
Proof.
  intros Hj. rewrite np_sub_with_map. fold (consecutive_difs a).
  rewrite (nth_indep _ 0%Q (rnd 0%Q))
    by (rewrite length_map, consecutive_difs_length; lia).
  rewrite map_nth, consecutive_difs_nth by exact Hj. reflexivity.
Qed.

Lemma rounded_difs_length (rnd : Q -> Q) (a : list Q) :
  List.length (np_sub_with rnd (removelast a) (tl a)) = List.length a - 1.
Proof.
  rewrite np_sub_with_map. fold (consecutive_difs a).
  now rewrite length_map, consecutive_difs_length.
Qed.

Lemma mcut_threshold_with_meets_spec (rnd : Q -> Q) (probs : list Q) :
  2 <= List.length probs ->
  exists sorted k t,
    mcut_threshold_with rnd probs = Ok t /\ MCut_spec_with rnd probs sorted k t.
Proof.
  intros Hlen. unfold mcut_threshold_with.
  set (s := take_indices probs (rev (argsort probs))).
  assert (Hperm : Permutation s probs) by apply sorted_probs_perm.
  assert (Hs : List.length s = List.length probs)
    by now apply Permutation_length.
  pose proof (rounded_difs_length rnd s) as Hd.
  destruct (argmax_spec (np_sub_with rnd (removelast s) (tl s)))
    as (k & Hk & Hkl & Hmax & Hfirst).
  { intros E. rewrite E in Hd. simpl in Hd. lia. }
  exists s, k, (rnd (rnd (nth k s 0 + nth (S k) s 0) / 2))%Q. split.
  - rewrite Hk. cbn [Pure.bind].
    rewrite (getitem_nth s k 0%Q) by lia. cbn [Pure.bind].
    rewrite Nat.add_1_r, (getitem_nth s (S k) 0%Q) by lia. reflexivity.
  - repeat split.
    + exact Hperm.
    + apply sorted_probs_descending.
    + lia.
    + intros j Hj. rewrite <- !rounded_difs_nth by lia. apply Hmax. lia.
    + intros j Hj. rewrite <- !rounded_difs_nth by lia. now apply Hfirst.
Qed.

Lemma MCut_spec_with_unique (rnd : Q -> Q) (probs s s' : list Q) (k k' : nat)
    (t t' : Q) :
  (forall a b, (a == b)%Q -> (rnd a == rnd b)%Q) ->
  MCut_spec_with rnd probs s k t -> MCut_spec_with rnd probs s' k' t' ->
  (t == t')%Q.
Proof.
  intros Hrnd (Hp & Hs & Hk & Hmax & Hfirst & ->)
         (Hp' & Hs' & Hk' & Hmax' & Hfirst' & ->).
  assert (Hss : Permutation s s') by (rewrite Hp; now symmetry).
  pose proof (Permutation_length Hss) as Hlen.
  pose proof (descending_arrangements_agree s s' Hs Hs' Hss) as Hnth.
  assert (Hgap : forall j, (gap_with rnd s j == gap_with rnd s' j)%Q).
  { intros j. unfold gap_with. apply Hrnd. now rewrite (Hnth j), (Hnth (S j)). }
  assert (Hkk : k = k').
  { destruct (lt_eq_lt_dec k k') as [[Hlt|Heq]|Hgt]; trivial; exfalso.
    - specialize (Hfirst' k Hlt). rewrite <- !Hgap in Hfirst'.
      apply (Qlt_not_le _ _ Hfirst'). apply Hmax. lia.
    - specialize (Hfirst k' Hgt). rewrite !Hgap in Hfirst.
      apply (Qlt_not_le _ _ Hfirst). apply Hmax'. lia. }
  subst k'. apply Hrnd. apply Qdiv_comp; [|reflexivity].
  apply Hrnd. now rewrite (Hnth k), (Hnth (S k)).
Qed.

Lemma mcut_threshold_with_short (rnd : Q -> Q) (probs : list Q) :
  List.length probs < 2 -> mcut_threshold_with rnd probs = Raise ValueError.
Proof.
  intros Hlen. unfold mcut_threshold_with.
  pose proof (rounded_difs_length rnd (take_indices probs (rev (argsort probs))))
    as Hd.
  rewrite (Permutation_length (sorted_probs_perm probs)) in Hd.
  destruct (np_sub_with rnd _ _); [reflexivity|simpl in Hd; lia].
Qed.

(** *** No overflow *)

Lemma pow2_succ (e : Z) : (pow2 (e + 1) == pow2 e + pow2 e)%Q.
Proof. rewrite pow2_plus. change (pow2 1) with 2%Q. ring. Qed.

Lemma round64_pow2 (e : Z) : (-1074 <= e)%Z -> (round64 (pow2 e) == pow2 e)%Q.
Proof.
  intros He.
  assert (E : (pow2 e == inject_Z 1 * pow2 e)%Q) by ring.
  rewrite (round64_comp _ _ E). etransitivity; [|symmetry; exact E].
  apply round64_multiple; [reflexivity|exact He].
Qed.

Lemma round64_bounded (e : Z) (x : Q) :
  (-1074 <= e)%Z -> (Qabs x <= pow2 e)%Q -> (Qabs (round64 x) <= pow2 e)%Q.
Proof.
  intros He Hx. apply Qabs_Qle_condition in Hx. destruct Hx as [H1 H2].
  apply Qabs_Qle_condition. split.
  - rewrite <- (round64_pow2 e He), <- round64_opp. now apply round64_mono.
  - rewrite <- (round64_pow2 e He). now apply round64_mono.
Qed.

Lemma Qabs_sum_bounded (a b c : Q) :
  (Qabs a <= c)%Q -> (Qabs b <= c)%Q ->
  (Qabs (a + b) <= c + c)%Q /\ (Qabs (a - b) <= c + c)%Q.
Proof.
  intros Ha Hb.
  apply Qabs_Qle_condition in Ha, Hb. destruct Ha, Hb.
  split; apply Qabs_Qle_condition; split; lra.
Qed.

Lemma mcut_threshold_no_overflow (probs sorted : list Q) (k : nat) (t : Q) :
  (forall x, In x probs -> in_range x) ->
  MCut_spec_with round64 probs sorted k t ->
  (forall j, S j < List.length sorted ->
     (Qabs (nth j sorted 0 - nth (S j) sorted 0) <= pow2 1023)%Q) /\
  (Qabs (nth k sorted 0 + nth (S k) sorted 0) <= pow2 1023)%Q /\
  (Qabs (round64 (nth k sorted 0 + nth (S k) sorted 0) / 2) <= pow2 1022)%Q /\
  in_range t.
Proof.
  intros Hr (Hp & _ & Hk & _ & _ & ->).
  assert (Hin : forall j, j < List.length sorted ->
                          (Qabs (nth j sorted 0) <= pow2 1022)%Q).
  { intros j Hj. apply Hr, (Permutation_in _ Hp), nth_In, Hj. }
  assert (E : (pow2 1023 == pow2 1022 + pow2 1022)%Q) by apply (pow2_succ 1022).
  assert (Hsum : (Qabs (nth k sorted 0 + nth (S k) sorted 0) <= pow2 1023)%Q).
  { rewrite E. apply Qabs_sum_bounded; apply Hin; lia. }
  assert (Hhalf : (Qabs (round64 (nth k sorted 0 + nth (S k) sorted 0) / 2)
                   <= pow2 1022)%Q).
  { pose proof (round64_bounded 1023 _ ltac:(lia) Hsum) as H.
    apply Qabs_Qle_condition in H. destruct H as [H1 H2].
    apply Qabs_Qle_condition. rewrite E in H1, H2. split.
    - apply Qle_shift_div_l; lra.
    - apply Qle_shift_div_r; lra. }
  split; [|split; [exact Hsum|split; [exact Hhalf|]]].
  - intros j Hj. rewrite E. apply Qabs_sum_bounded; apply Hin; lia.
  - split; [apply round64_idempotent|].
    apply round64_bounded; [lia|exact Hhalf].
Qed.

(** ** [predict] and its pure part *)

Lemma prepare_image_world (ext : Extern) (image : Image RGBA) (w : World) :
  snd (prepare_image ext image w) = w.
Proof.
  unfold prepare_image. now destruct (model_target_size (self w)).
Qed.

Section EffLaws.
Context {A B : Type}.
Implicit Types (k : A -> M B) (w : World).

Lemma bind_eq (m : M A) k w a w' :
  m w = (Ok a, w') -> Eff.bind m k w = k a w'.
Proof. unfold Eff.bind. now intros ->. Qed.

Lemma bind_raise (m : M A) k w e w' :
  m w = (Raise e, w') -> Eff.bind m k w = (Raise e, w').
Proof. unfold Eff.bind. now intros ->. Qed.

Lemma bind_ret (a : A) k w : Eff.bind (Eff.ret a) k w = k a w.
Proof. reflexivity. Qed.

Lemma bind_lift_Ok (a : A) k w : Eff.bind (Eff.lift (Ok a)) k w = k a w.
Proof. reflexivity. Qed.

Lemma bind_lift_Raise (e : exn) k w :
  Eff.bind (Eff.lift (Raise e)) k w = (Raise e, w).
Proof. reflexivity. Qed.

Lemma bind_attr (field : Predictor -> option A) k w a :
  field (self w) = Some a -> Eff.bind (Eff.attr field) k w = k a w.
Proof. unfold Eff.bind, Eff.attr. now intros ->. Qed.

Lemma bind_attr_None (field : Predictor -> option A) k w :
  field (self w) = None ->
  Eff.bind (Eff.attr field) k w = (Raise AttributeError, w).
Proof. unfold Eff.bind, Eff.attr. now intros ->. Qed.
End EffLaws.

Lemma bind_emit {B} (ev : event) (k : unit -> M B) (w : World) :
  Eff.bind (Eff.emit ev) k w =
  k tt {| self := self w; trace := trace w ++ [ev] |}.
Proof. reflexivity. Qed.

Lemma bind_update {B} (f : Predictor -> Predictor) (k : unit -> M B) (w : World) :
  Eff.bind (Eff.update f) k w =
  k tt {| self := f (self w); trace := trace w |}.
Proof. reflexivity. Qed.

Lemma predict_unfold ext image model_repo w w1 names preds0 ri gi ci gt gm ct cm :
  reaches_labels ext image model_repo w w1 names preds0 ri gi ci ->
  predict ext image model_repo gt gm ct cm w =
  (predict_from_labels (combine names preds0) ri gi ci gt gm ct cm,
   after_run w1).
Proof.
  intros (Hload & Hn & Hri & Hgi & Hci & session & img & preds
          & Hm & Hprep & Hrun & Hp0).
  unfold predict.
  rewrite (bind_eq _ _ _ _ _ Hload), (bind_eq _ _ _ _ _ Hprep).
  rewrite (bind_attr _ _ _ _ Hm), bind_emit. fold (after_run w1).
  rewrite Hrun, bind_lift_Ok.
  rewrite (bind_attr tag_names _ (after_run w1) names Hn), Hp0, bind_lift_Ok.
  rewrite (bind_attr rating_indexes _ (after_run w1) ri Hri).
  unfold predict_from_labels.
  destruct (comprehension (getitem (combine names preds0)) ri) as [rn|];
    [|reflexivity].
  rewrite bind_lift_Ok, (bind_attr general_indexes _ (after_run w1) gi Hgi).
  cbn [Pure.bind].
  destruct (comprehension (getitem (combine names preds0)) gi) as [gn|];
    [|reflexivity].
  rewrite bind_lift_Ok. cbn [Pure.bind].
  assert (Htail : forall t : Q,
    Eff.bind (Eff.ret t) (fun general_thresh =>
      Eff.bind (Eff.attr character_indexes) (fun idx =>
      Eff.bind (Eff.lift (comprehension (getitem (combine names preds0)) idx))
        (fun character_names =>
      Eff.bind
        (if cm
         then Eff.bind (Eff.lift (mcut_threshold (map snd character_names)))
                (fun character_thresh => Eff.ret (py_max 0.15 character_thresh))
         else Eff.ret ct)
        (fun character_thresh =>
           Eff.ret (format_general (py_dict (above general_thresh gn)),
                    py_dict rn,
                    py_dict (above character_thresh character_names),
                    py_dict (above general_thresh gn))))))
      (after_run w1) =
    (Pure.bind (comprehension (getitem (combine names preds0)) ci)
       (fun character_names =>
        Pure.bind
          (if cm
           then Pure.bind (mcut_threshold (map snd character_names))
                  (fun m => Ok (py_max 0.15 m))
           else Ok ct)
          (fun character_thresh =>
             Ok (format_general (py_dict (above t gn)), py_dict rn,
                 py_dict (above character_thresh character_names),
                 py_dict (above t gn)))),
     after_run w1)).
  { intros t.
    rewrite bind_ret, (bind_attr character_indexes _ (after_run w1) ci Hci).
    destruct (comprehension (getitem (combine names preds0)) ci) as [cn|];
      [|reflexivity].
    rewrite bind_lift_Ok. cbn [Pure.bind].
    destruct cm; [|reflexivity].
    destruct (mcut_threshold (map snd cn)); reflexivity. }
  destruct gm.
  - destruct (mcut_threshold (map snd gn)) as [t|]; [|reflexivity].
    cbn [Pure.bind]. apply (Htail t).
  - cbn [Pure.bind]. apply (Htail gt).
Qed.

Lemma predict_inv ext image model_repo gt gm ct cm w out w' :
  predict ext image model_repo gt gm ct cm w = (Ok out, w') ->
  exists w1 names preds0 ri gi ci,
    reaches_labels ext image model_repo w w1 names preds0 ri gi ci /\
    predict_from_labels (combine names preds0) ri gi ci gt gm ct cm = Ok out /\
    w' = after_run w1.
Proof.
  intros H. pose proof H as H0. unfold predict in H.
  destruct (load_model ext model_repo w) as [[[]|e] w1] eqn:Hload;
    [rewrite (bind_eq _ _ _ _ _ Hload) in H
    |rewrite (bind_raise _ _ _ _ _ Hload) in H; discriminate].
  pose proof (prepare_image_world ext image w1) as Hw.
  destruct (prepare_image ext image w1) as [[img|e] w2] eqn:Hprep;
    simpl in Hw; subst w2;
    [rewrite (bind_eq _ _ _ _ _ Hprep) in H
    |rewrite (bind_raise _ _ _ _ _ Hprep) in H; discriminate].
  destruct (model (self w1)) as [session|] eqn:Hm;
    [rewrite (bind_attr _ _ _ _ Hm) in H
    |rewrite (bind_attr_None _ _ _ Hm) in H; discriminate].
  rewrite bind_emit in H. fold (after_run w1) in H.
  destruct (run session img) as [preds|e] eqn:Hrun; [|discriminate].
  rewrite bind_lift_Ok in H.
  destruct (tag_names (self w1)) as [names|] eqn:Hn;
    [rewrite (bind_attr tag_names _ (after_run w1) names Hn) in H
    |rewrite (bind_attr_None tag_names _ (after_run w1) Hn) in H; discriminate].
  destruct (getitem preds 0) as [preds0|e] eqn:Hp0; [|discriminate].
  rewrite bind_lift_Ok in H.
  destruct (rating_indexes (self w1)) as [ri|] eqn:Hri;
    [rewrite (bind_attr rating_indexes _ (after_run w1) ri Hri) in H
    |rewrite (bind_attr_None rating_indexes _ (after_run w1) Hri) in H;
     discriminate].
  destruct (comprehension (getitem (combine names preds0)) ri) as [rn|e];
    [|discriminate].
  rewrite bind_lift_Ok in H.
  destruct (general_indexes (self w1)) as [gi|] eqn:Hgi;
    [rewrite (bind_attr general_indexes _ (after_run w1) gi Hgi) in H
    |rewrite (bind_attr_None general_indexes _ (after_run w1) Hgi) in H;
     discriminate].
  destruct (comprehension (getitem (combine names preds0)) gi) as [gn|e];
    [|discriminate].
  rewrite bind_lift_Ok in H.
  assert (Hci : exists ci, character_indexes (self w1) = Some ci).
  { destruct (character_indexes (self w1)) as [ci|] eqn:Hci; [now exists ci|].
    exfalso.
    assert (Hno : forall B (k : list nat -> M B),
               Eff.bind (Eff.attr character_indexes) k (after_run w1)
               = (Raise AttributeError, after_run w1))
      by (intros; now apply bind_attr_None).
    destruct gm.
    - destruct (mcut_threshold (map snd gn)); [|discriminate].
      rewrite bind_lift_Ok, Hno in H. discriminate.
    - rewrite bind_ret, Hno in H. discriminate. }
  destruct Hci as [ci Hci].
  assert (Hr : reaches_labels ext image model_repo w w1 names preds0 ri gi ci).
  { repeat split; trivial. exists session, img, preds. auto. }
  exists w1, names, preds0, ri, gi, ci. split; [exact Hr|].
  rewrite (predict_unfold _ _ _ _ _ _ _ _ _ _ gt gm ct cm Hr) in H0.
  inversion H0. auto.
Qed.

Lemma mcut_threshold_short (probs : list Q) :
  List.length probs < 2 -> mcut_threshold probs = Raise ValueError.
Proof.
  intros Hlen. unfold mcut_threshold.
  set (s := take_indices probs (rev (argsort probs))).
  assert (Hs : List.length s = List.length probs)
    by apply Permutation_length, sorted_probs_perm.
  pose proof (consecutive_difs_length s) as Hd.
  destruct (consecutive_difs s); [reflexivity|].
  simpl in Hd. lia.
Qed.

Lemma mcut_threshold_total (probs : list Q) :
  is_ok (mcut_threshold probs) = true <-> 2 <= List.length probs.
Proof.
  split; intros H.
  - destruct (le_lt_dec 2 (List.length probs)) as [|Hlt]; trivial.
    rewrite (mcut_threshold_short _ Hlt) in H. discriminate.
  - destruct (mcut_threshold_meets_spec probs H) as (s & k & t & -> & _).
    reflexivity.
Qed.

Lemma comprehension_length {A B} (f : A -> result B) (l : list A) (bs : list B) :
  comprehension f l = Ok bs -> List.length bs = List.length l.
Proof.
  revert bs. induction l as [|a l IH]; intros bs; simpl.
  - now intros [= <-].
  - destruct (f a); [|discriminate].
    destruct (comprehension f l); [|discriminate].
    intros [= <-]. simpl. f_equal. now apply IH.
Qed.

Lemma comprehension_getitem_Ok {A} (labels : list A) (idx : list nat) (d : A) :
  Forall (fun i => i < List.length labels) idx ->
  comprehension (getitem labels) idx = Ok (map (fun i => nth i labels d) idx).
Proof.
  induction 1 as [|i idx Hi _ IH]; [reflexivity|].
  simpl. now rewrite (getitem_nth _ _ d Hi), IH.
Qed.

Lemma comprehension_getitem_Raise {A} (labels : list A) (idx : list nat) e :
  comprehension (getitem labels) idx = Raise e ->
  e = IndexError /\ Exists (fun i => List.length labels <= i) idx.
Proof.
  induction idx as [|i idx IH]; simpl; [discriminate|].
  destruct (getitem labels i) eqn:E.
  - destruct (comprehension (getitem labels) idx); [discriminate|].
    intros [= <-]. destruct IH as [-> Hex]; auto.
  - intros [= <-]. apply getitem_Raise in E. destruct E as [Hi ->]. auto.
Qed.

Lemma comprehension_getitem_inv {A} (labels : list A) (idx : list nat) l (d : A) :
  comprehension (getitem labels) idx = Ok l ->
  Forall (fun i => i < List.length labels) idx /\
  l = map (fun i => nth i labels d) idx.
Proof.
  intros H.
  assert (Hall : Forall (fun i => i < List.length labels) idx).
  { apply Forall_forall. intros i Hi.
    destruct (le_lt_dec (List.length labels) i) as [Hle|]; trivial.
    exfalso. clear d. revert l H.
    induction idx as [|j idx IH]; intros l H; [contradiction|].
    simpl in H. destruct (getitem labels j) eqn:E; [|discriminate].
    destruct (comprehension (getitem labels) idx) as [bs|] eqn:E';
      [|discriminate].
    destruct Hi as [->|Hi]; [|now apply (IH Hi bs)].
    apply getitem_Ok in E.
    apply nth_error_None in Hle. congruence. }
  split; [exact Hall|].
  rewrite (comprehension_getitem_Ok labels idx d Hall) in H. congruence.
Qed.

(** When the pure part of [predict] returns. *)
Lemma predict_from_labels_ok labels ri gi ci gt gm ct cm :
  is_ok (predict_from_labels labels ri gi ci gt gm ct cm) = true <->
  Forall (fun i => i < List.length labels) (ri ++ gi ++ ci) /\
  (gm = true -> 2 <= List.length gi) /\
  (cm = true -> 2 <= List.length ci).
Proof.
  unfold predict_from_labels. rewrite !Forall_app. split.
  - intros H.
    destruct (comprehension (getitem labels) ri) as [rn|] eqn:Er;
      [|discriminate].
    destruct (comprehension (getitem labels) gi) as [gn|] eqn:Eg;
      [|discriminate].
    cbn [Pure.bind] in H.
    assert (Hg : gm = true -> 2 <= List.length gi).
    { intros ->. rewrite <- (comprehension_length _ _ _ Eg).
      rewrite <- (length_map snd). apply mcut_threshold_total.
      destruct (mcut_threshold (map snd gn)); [reflexivity|discriminate]. }
    assert (H' : is_ok (Pure.bind (comprehension (getitem labels) ci)
                  (fun cn => if cm then mcut_threshold (map snd cn)
                             else Ok ct)) = true).
    { destruct (if gm then mcut_threshold (map snd gn) else Ok gt);
        [|discriminate].
      cbn [Pure.bind] in H.
      destruct (comprehension (getitem labels) ci) as [cn|]; [|discriminate].
      cbn [Pure.bind] in *. destruct cm; [|reflexivity].
      destruct (mcut_threshold (map snd cn)); [reflexivity|discriminate]. }
    destruct (comprehension (getitem labels) ci) as [cn|] eqn:Ec;
      [|discriminate].
    cbn [Pure.bind] in H'.
    apply (comprehension_getitem_inv _ _ _ (EmptyString, 0%Q)) in Er, Eg.
    pose proof (comprehension_length _ _ _ Ec) as Hlc.
    apply (comprehension_getitem_inv _ _ _ (EmptyString, 0%Q)) in Ec.
    repeat split; try tauto.
    intros ->. rewrite <- Hlc, <- (length_map snd).
    now apply mcut_threshold_total.
  - intros ((Hr & Hg & Hc) & Hgm & Hcm).
    rewrite (comprehension_getitem_Ok _ _ (EmptyString, 0%Q) Hr).
    rewrite (comprehension_getitem_Ok _ _ (EmptyString, 0%Q) Hg).
    rewrite (comprehension_getitem_Ok _ _ (EmptyString, 0%Q) Hc).
    cbn [Pure.bind].
    set (pg := mcut_threshold
                 (map snd (map (fun i => nth i labels (EmptyString, 0%Q)) gi))).
    set (pc := mcut_threshold
                 (map snd (map (fun i => nth i labels (EmptyString, 0%Q)) ci))).
    assert (Hmg : gm = true -> is_ok pg = true).
    { intros E. apply mcut_threshold_total. rewrite !length_map. auto. }
    assert (Hmc : cm = true -> is_ok pc = true).
    { intros E. apply mcut_threshold_total. rewrite !length_map. auto. }
    destruct gm.
    + destruct pg; [|now specialize (Hmg eq_refl)].
      cbn [Pure.bind]. destruct cm; [|reflexivity].
      destruct pc; [reflexivity|now specialize (Hmc eq_refl)].
    + cbn [Pure.bind]. destruct cm; [|reflexivity].
      destruct pc; [reflexivity|now specialize (Hmc eq_refl)].
Qed.

Lemma combine_truncates {A B} (l : list A) (l' : list B) :
  let n := Nat.min (List.length l) (List.length l') in
  List.length (combine l l') = n /\
  combine l l' = combine (firstn n l) (firstn n l').
Proof.
  split; [apply length_combine|].
  revert l'. induction l as [|a l IH]; intros [|b l']; simpl; trivial.
  f_equal. apply IH.
Qed.

(** ** Dictionaries *)

Lemma dict_get_set_same (d : dict) k v : dict_get (dict_set d k v) k = Some v.
Proof.
  induction d as [|[k' v'] d IH]; simpl.
  - now rewrite String.eqb_refl.
  - destruct (String.eqb k' k) eqn:E; simpl.
    + now rewrite String.eqb_refl.
    + now rewrite E.
Qed.

Lemma dict_get_set_other (d : dict) k v k0 :
  k0 <> k -> dict_get (dict_set d k v) k0 = dict_get d k0.
Proof.
  intros Hne. induction d as [|[k' v'] d IH]; simpl.
  - destruct (String.eqb k k0) eqn:E; trivial.
    apply String.eqb_eq in E. congruence.
  - destruct (String.eqb k' k) eqn:E; simpl.
    + apply String.eqb_eq in E. subst k'.
      destruct (String.eqb k k0) eqn:E'; trivial.
      apply String.eqb_eq in E'. congruence.
    + now rewrite IH.
Qed.

Lemma keys_dict_set (d : dict) k v k0 :
  In k0 (keys (dict_set d k v)) <-> k0 = k \/ In k0 (keys d).
Proof.
  unfold keys. induction d as [|[k' v'] d IH]; simpl.
  - intuition.
  - destruct (String.eqb k' k) eqn:E; simpl.
    + apply String.eqb_eq in E. subst. intuition.
    + rewrite IH. intuition.
Qed.

Lemma dict_set_fresh (d : dict) k v :
  ~ In k (keys d) -> dict_set d k v = d ++ [(k, v)].
Proof.
  unfold keys. induction d as [|[k' v'] d IH]; simpl; intros Hk; trivial.
  destruct (String.eqb k' k) eqn:E.
  - apply String.eqb_eq in E. tauto.
  - now rewrite IH by tauto.
Qed.

Lemma dict_set_present (d : dict) k v :
  In k (keys d) -> keys (dict_set d k v) = keys d.
Proof.
  unfold keys. induction d as [|[k' v'] d IH]; simpl; intros Hk; [tauto|].
  destruct (String.eqb k' k) eqn:E; simpl.
  - apply String.eqb_eq in E. now subst.
  - rewrite IH; trivial. destruct Hk as [->|]; trivial.
    rewrite String.eqb_refl in E. discriminate.
Qed.

Lemma NoDup_keys_dict_set (d : dict) k v :
  NoDup (keys d) -> NoDup (keys (dict_set d k v)).
Proof.
  intros Hd. destruct (in_dec string_dec k (keys d)) as [Hin|Hout].
  - now rewrite dict_set_present.
  - rewrite dict_set_fresh by exact Hout. unfold keys in *.
    rewrite map_app. simpl.
    apply NoDup_app; repeat split; trivial.
    + repeat constructor. simpl. tauto.
    + intros a Ha [<-|[]]. tauto.
Qed.

Section UpdateFacts.
Implicit Types (l : list (string * Q)) (d : dict) (k : string).

Lemma dict_update_dict_get l d k :
  dict_get (dict_update d l) k =
  match last_assoc l k with Some v => Some v | None => dict_get d k end.
Proof.
  unfold dict_update. revert d. induction l as [|[k' v] l IH]; intros d; simpl; trivial.
  rewrite IH. destruct (last_assoc l k); trivial.
  cbn [fst snd]. destruct (String.eqb k' k) eqn:E.
  - apply String.eqb_eq in E. subst. apply dict_get_set_same.
  - apply dict_get_set_other. intros ->.
    rewrite String.eqb_refl in E. discriminate.
Qed.

Lemma dict_update_keys l d k :
  In k (keys (dict_update d l)) <->
  In k (keys d) \/ In k (map fst l).
Proof.
  unfold dict_update. revert d. induction l as [|[k' v] l IH]; intros d; simpl; [tauto|].
  rewrite IH. cbn [fst snd]. rewrite keys_dict_set. intuition.
Qed.

Lemma dict_update_NoDup l d :
  NoDup (keys d) -> NoDup (keys (dict_update d l)).
Proof.
  unfold dict_update. revert d. induction l as [|[k' v] l IH]; intros d Hd; simpl; trivial.
  apply IH, NoDup_keys_dict_set, Hd.
Qed.

Lemma dict_update_distinct l d :
  NoDup (keys d ++ map fst l) -> dict_update d l = d ++ l.
Proof.
  unfold dict_update. revert d. induction l as [|[k' v] l IH]; intros d Hd; simpl.
  - now rewrite app_nil_r.
  - simpl in Hd. cbn [fst snd].
    rewrite dict_set_fresh.
    + rewrite IH, <- app_assoc; trivial.
      unfold keys in *. rewrite map_app, <- app_assoc. exact Hd.
    + apply NoDup_remove_2 in Hd. rewrite in_app_iff in Hd. tauto.
Qed.
End UpdateFacts.

Lemma py_dict_get (l : list (string * Q)) k :
  dict_get (py_dict l) k = last_assoc l k.
Proof.
  unfold py_dict. rewrite dict_update_dict_get. now destruct (last_assoc l k).
Qed.

Lemma py_dict_keys (l : list (string * Q)) k :
  In k (keys (py_dict l)) <-> In k (map fst l).
Proof.
  unfold py_dict. rewrite dict_update_keys. simpl. tauto.
Qed.

Lemma py_dict_NoDup (l : list (string * Q)) : NoDup (keys (py_dict l)).
Proof. apply dict_update_NoDup. constructor. Qed.

Lemma py_dict_distinct (l : list (string * Q)) :
  NoDup (map fst l) -> py_dict l = l.
Proof. intros H. unfold py_dict. now rewrite dict_update_distinct. Qed.

Lemma py_dict_length (l : list (string * Q)) :
  List.length (py_dict l) <= List.length l /\
  (~ NoDup (map fst l) -> List.length (py_dict l) < List.length l).
Proof.
  assert (Hk : List.length (keys (py_dict l)) = List.length (py_dict l))
    by apply length_map.
  assert (Hl : List.length (map fst l) = List.length l) by apply length_map.
  assert (Hle : List.length (keys (py_dict l)) <= List.length (map fst l)).
  { apply NoDup_incl_length; [apply py_dict_NoDup|].
    intros k. apply py_dict_keys. }
  split; [lia|]. intros Hdup.
  destruct (le_lt_dec (List.length l) (List.length (py_dict l))); [|lia].
  exfalso. apply Hdup.
  apply NoDup_incl_NoDup with (l := keys (py_dict l)).
  - apply py_dict_NoDup.
  - lia.
  - intros k. apply py_dict_keys.
Qed.

Lemma last_assoc_In (l : list (string * Q)) k v :
  last_assoc l k = Some v -> In (k, v) l.
Proof.
  induction l as [|[k' v'] l IH]; simpl; [discriminate|].
  destruct (last_assoc l k).
  - intros [= ->]. auto.
  - destruct (String.eqb k' k) eqn:E; [|discriminate].
    apply String.eqb_eq in E. intros [= ->]. subst. auto.
Qed.

(** The value kept for a name is the one after which the name does not
    occur again. *)
Lemma last_assoc_last (l1 l2 : list (string * Q)) k v :
  ~ In k (map fst l2) -> last_assoc (l1 ++ (k, v) :: l2) k = Some v.
Proof.
  intros Hout.
  assert (H2 : last_assoc l2 k = None).
  { destruct (last_assoc l2 k) eqn:E; trivial.
    apply last_assoc_In in E. apply (in_map fst) in E. tauto. }
  induction l1 as [|[k' v'] l1 IH]; simpl.
  - now rewrite H2, String.eqb_refl.
  - now rewrite IH.
Qed.

(** ** The pure part of [predict], group by group *)

Lemma accepted_spec labels idx t i :
  In i (accepted labels idx t) <-> In i idx /\ (t < prob labels i)%Q.
Proof.
  unfold accepted. now rewrite filter_In, Qgtb_lt.
Qed.

Lemma accepted_boundary labels idx t i :
  (prob labels i == t)%Q -> ~ In i (accepted labels idx t).
Proof.
  intros Heq Hin. apply accepted_spec in Hin. destruct Hin as [_ Hlt].
  rewrite Heq in Hlt. exact (Qlt_irrefl _ Hlt).
Qed.

Lemma above_group labels idx t :
  above t (group labels idx) = group labels (accepted labels idx t).
Proof. unfold above, group. apply filter_map_swap. Qed.

Lemma probs_group labels idx : map snd (group labels idx) = map (prob labels) idx.
Proof. unfold group. apply map_map. Qed.

Lemma keys_group labels idx name :
  In name (keys (py_dict (group labels idx))) <->
  exists i, In i idx /\ fst (label_at labels i) = name.
Proof.
  rewrite py_dict_keys. unfold group. rewrite map_map, in_map_iff.
  split; intros (i & H1 & H2); exists i; auto.
Qed.

Lemma predict_from_labels_eq labels ri gi ci gt gm ct cm :
  Forall (fun i => i < List.length labels) (ri ++ gi ++ ci) ->
  predict_from_labels labels ri gi ci gt gm ct cm =
  (general_thresh <-
     (if gm then mcut_threshold (map (prob labels) gi) else Ok gt) ;;
   character_thresh <-
     (if cm then m <- mcut_threshold (map (prob labels) ci) ;;
                 Ok (py_max 0.15 m)
      else Ok ct) ;;
   let general_res := py_dict (group labels (accepted labels gi general_thresh)) in
   Ok (format_general general_res,
       py_dict (group labels ri),
       py_dict (group labels (accepted labels ci character_thresh)),
       general_res))%pure.
Proof.
  rewrite !Forall_app. intros (Hr & Hg & Hc).
  unfold predict_from_labels.
  rewrite (comprehension_getitem_Ok _ _ (EmptyString, 0%Q) Hr).
  rewrite (comprehension_getitem_Ok _ _ (EmptyString, 0%Q) Hg).
  rewrite (comprehension_getitem_Ok _ _ (EmptyString, 0%Q) Hc).
  fold (label_at labels). fold (group labels ri).
  fold (group labels gi). fold (group labels ci).
  cbn [Pure.bind]. rewrite !probs_group.
  destruct (if gm then mcut_threshold (map (prob labels) gi) else Ok gt)
    as [t|]; [|reflexivity].
  cbn [Pure.bind].
  destruct (if cm then Pure.bind (mcut_threshold (map (prob labels) ci))
                         (fun m => Ok (py_max 0.15 m)) else Ok ct)
    as [t'|]; [|reflexivity].
  cbn [Pure.bind]. now rewrite !above_group.
Qed.

Lemma predict_inv_groups ext image model_repo gt gm ct cm w s rating cres gres w' :
  predict ext image model_repo gt gm ct cm w = (Ok (s, rating, cres, gres), w') ->
  exists w1 names preds0 ri gi ci general_thresh character_thresh,
    reaches_labels ext image model_repo w w1 names preds0 ri gi ci /\
    let labels := combine names preds0 in
    Forall (fun i => i < List.length labels) (ri ++ gi ++ ci) /\
    (if gm then mcut_threshold (map (prob labels) gi) = Ok general_thresh
     else general_thresh = gt) /\
    (if cm then exists m, mcut_threshold (map (prob labels) ci) = Ok m /\
                          character_thresh = py_max 0.15 m
     else character_thresh = ct) /\
    s = format_general gres /\
    rating = py_dict (group labels ri) /\
    cres = py_dict (group labels (accepted labels ci character_thresh)) /\
    gres = py_dict (group labels (accepted labels gi general_thresh)).
Proof.
  intros H. apply predict_inv in H.
  destruct H as (w1 & names & preds0 & ri & gi & ci & Hr & Hok & _).
  assert (Hall : Forall (fun i => i < List.length (combine names preds0))
                        (ri ++ gi ++ ci)).
  { apply (predict_from_labels_ok _ ri gi ci gt gm ct cm). now rewrite Hok. }
  rewrite (predict_from_labels_eq _ _ _ _ _ _ _ _ Hall) in Hok.
  destruct (if gm then mcut_threshold (map (prob (combine names preds0)) gi)
            else Ok gt) as [t|] eqn:Et; [|discriminate].
  cbn [Pure.bind] in Hok.
  destruct (if cm then Pure.bind
              (mcut_threshold (map (prob (combine names preds0)) ci))
              (fun m => Ok (py_max 0.15 m)) else Ok ct) as [t'|] eqn:Et';
    [|discriminate].
  cbn [Pure.bind] in Hok. injection Hok as <- <- <- <-.
  exists w1, names, preds0, ri, gi, ci, t, t'.
  split; [exact Hr|]. cbv zeta. split; [exact Hall|].
  repeat split.
  - destruct gm; congruence.
  - destruct cm; [|congruence].
    destruct (mcut_threshold (map (prob (combine names preds0)) ci)) as [m|];
      [|discriminate].
    exists m. cbn [Pure.bind] in Et'. split; congruence.
Qed.

(** ** [load_model] *)

Lemma repo_eqb_true model_repo last :
  repo_eqb model_repo last = true <-> last = Some model_repo.
Proof.
  unfold repo_eqb. destruct last as [r|]; [|split; discriminate].
  rewrite String.eqb_eq. split; congruence.
Qed.

Lemma load_model_hit ext model_repo w :
  last_loaded_repo (self w) = Some model_repo ->
  load_model ext model_repo w = (Ok tt, w).
Proof.
  intros H. apply repo_eqb_true in H. unfold load_model. now rewrite H.
Qed.

Lemma download_model_eq ext model_repo w :
  download_model ext model_repo w =
  match hf_hub_download ext model_repo LABEL_FILENAME with
  | Raise e =>
      (Raise e, {| self := self w;
                   trace := trace w ++ [EvDownload model_repo LABEL_FILENAME] |})
  | Ok csv_path =>
      let w' := {| self := self w;
                   trace := trace w ++ [EvDownload model_repo LABEL_FILENAME;
                                        EvDownload model_repo MODEL_FILENAME] |} in
      match hf_hub_download ext model_repo MODEL_FILENAME with
      | Raise e => (Raise e, w')
      | Ok model_path => (Ok (csv_path, model_path), w')
      end
  end.
Proof.
  unfold download_model. rewrite bind_emit.
  destruct (hf_hub_download ext model_repo LABEL_FILENAME) as [csv|e];
    [|reflexivity].
  rewrite bind_lift_Ok, bind_emit. cbn [self trace]. rewrite <- app_assoc.
  cbn [app].
  destruct (hf_hub_download ext model_repo MODEL_FILENAME); reflexivity.
Qed.

Lemma load_model_miss_eq ext model_repo w :
  last_loaded_repo (self w) <> Some model_repo ->
  let at_trace p evs := {| self := p; trace := trace w ++ evs |} in
  let ev1 := EvDownload model_repo LABEL_FILENAME in
  let ev2 := EvDownload model_repo MODEL_FILENAME in
  load_model ext model_repo w =
  match hf_hub_download ext model_repo LABEL_FILENAME with
  | Raise e => (Raise e, at_trace (self w) [ev1])
  | Ok csv_path =>
      match hf_hub_download ext model_repo MODEL_FILENAME with
      | Raise e => (Raise e, at_trace (self w) [ev1; ev2])
      | Ok model_path =>
          match read_csv ext csv_path with
          | Raise e => (Raise e, at_trace (self w) [ev1; ev2; EvReadCsv csv_path])
          | Ok tags_df =>
              match load_labels tags_df with
              | Raise e =>
                  (Raise e, at_trace (self w) [ev1; ev2; EvReadCsv csv_path])
              | Ok (names, ri, gi, ci) =>
                  let evs := load_events model_repo csv_path model_path in
                  let p := set_catalog names ri gi ci (self w) in
                  match build_session ext model_path with
                  | Raise e => (Raise e, at_trace p evs)
                  | Ok (session, target) =>
                      (Ok tt,
                       at_trace (set_classifier session target model_repo p) evs)
                  end
              end
          end
      end
  end.
Proof.
  intros Hmiss.
  assert (E : repo_eqb model_repo (last_loaded_repo (self w)) = false).
  { destruct (repo_eqb _ _) eqn:E; trivial. apply repo_eqb_true in E. tauto. }
  cbv zeta. unfold load_model. rewrite E.
  unfold Eff.bind at 1. rewrite download_model_eq.
  destruct (hf_hub_download ext model_repo LABEL_FILENAME) as [csv|e];
    [|reflexivity].
  cbv zeta.
  destruct (hf_hub_download ext model_repo MODEL_FILENAME) as [mp|e];
    [|reflexivity].
  rewrite bind_emit. cbn [self trace].
  rewrite <- app_assoc. cbn [app].
  destruct (read_csv ext csv) as [df|e]; [|reflexivity].
  rewrite bind_lift_Ok.
  destruct (load_labels df) as [[[[names ri] gi] ci]|e]; [|reflexivity].
  rewrite bind_lift_Ok.
  rewrite !bind_update, bind_emit. cbn [self trace].
  rewrite <- app_assoc. cbn [app].
  fold (load_events model_repo csv mp).
  fold (set_catalog names ri gi ci (self w)).
  unfold build_session.
  destruct (InferenceSession ext mp) as [session|e]; [|reflexivity].
  rewrite bind_lift_Ok. cbn [Pure.bind].
  destruct (unpack4 (input_shape session)) as [[[[a h] b] c]|e];
    [|reflexivity].
  rewrite bind_lift_Ok. reflexivity.
Qed.

(** A call for a repository that is not the cached one, outcome by outcome. *)
Lemma load_model_miss ext model_repo w :
  last_loaded_repo (self w) <> Some model_repo ->
  match fetch_and_parse ext model_repo with
  | Raise e =>
      exists evs,
        load_model ext model_repo w
        = (Raise e, {| self := self w; trace := trace w ++ evs |})
  | Ok (csv_path, model_path, (names, ri, gi, ci)) =>
      let evs := load_events model_repo csv_path model_path in
      let p := set_catalog names ri gi ci (self w) in
      match build_session ext model_path with
      | Raise e =>
          load_model ext model_repo w
          = (Raise e, {| self := p; trace := trace w ++ evs |})
      | Ok (session, target) =>
          load_model ext model_repo w
          = (Ok tt, {| self := set_classifier session target model_repo p;
                       trace := trace w ++ evs |})
      end
  end.
Proof.
  intros Hmiss. pose proof (load_model_miss_eq ext model_repo w Hmiss) as H.
  cbv zeta in H. unfold fetch_and_parse.
  destruct (hf_hub_download ext model_repo LABEL_FILENAME) as [csv|e];
    cbn [Pure.bind]; [|eexists; exact H].
  destruct (hf_hub_download ext model_repo MODEL_FILENAME) as [mp|e];
    cbn [Pure.bind]; [|eexists; exact H].
  destruct (read_csv ext csv) as [df|e]; cbn [Pure.bind]; [|eexists; exact H].
  destruct (load_labels df) as [[[[names ri] gi] ci]|e]; cbn [Pure.bind];
    [|eexists; exact H].
  cbv zeta.
  destruct (build_session ext mp) as [[session target]|e]; exact H.
Qed.

(** * The specification, statement by statement *)

(** ** C1 *)

(** C1, as the code has it.  [predict] never compares the length of the
    classifier's output with the length of the catalog: the (tag name,
    confidence) pairs are zipped to the shorter of the two lengths, [n], and
    what exceeds it is ignored.  Once the classifier has answered, [predict]
    returns exactly when every index of the three groups is below [n] and
    every group with MCut enabled has two members or more. *)
Theorem C1_predict_zips_to_shorter_length :
  forall ext image model_repo gt gm ct cm w w1 names preds0 ri gi ci,
    reaches_labels ext image model_repo w w1 names preds0 ri gi ci ->
    let n := Nat.min (List.length names) (List.length preds0) in
    predict ext image model_repo gt gm ct cm w =
      (predict_from_labels (combine (firstn n names) (firstn n preds0))
         ri gi ci gt gm ct cm, after_run w1) /\
    (is_ok (fst (predict ext image model_repo gt gm ct cm w)) = true <->
     Forall (fun i => i < n) (ri ++ gi ++ ci) /\
     (gm = true -> 2 <= List.length gi) /\
     (cm = true -> 2 <= List.length ci)).
Proof.
  intros * Hr n.
  destruct (combine_truncates names preds0) as [Hlen Hcut].
  fold n in Hlen, Hcut.
  rewrite (predict_unfold _ _ _ _ _ _ _ _ _ _ gt gm ct cm Hr).
  cbn [fst]. rewrite predict_from_labels_ok, Hlen, <- Hcut.
  split; [reflexivity|tauto].
Qed.

(** A catalog of two rows and a classifier that answers with three
    confidences: [predict] returns, the third confidence is dropped. *)
Lemma C1_longer_output_is_accepted :
  reaches_labels Demo.hub Demo.dot "long" Demo.fresh
    (snd (load_model Demo.hub "long" Demo.fresh))
    ["general"; "smile"]%string [0.9; 0.8; 0.7]%Q [0] [1] [] /\
  List.length [0.9; 0.8; 0.7]%Q <> List.length ["general"; "smile"]%string /\
  fst (predict Demo.hub Demo.dot "long" 0.35 false 0.85 false Demo.fresh)
  = Ok ("smile"%string, [("general"%string, 0.9%Q)], [],
        [("smile"%string, 0.8%Q)]).
Proof.
  split; [|split; [simpl; lia|reflexivity]].
  repeat split.
  exists (Demo.classifier [0.9; 0.8; 0.7]%Q).
  eexists. exists [[0.9; 0.8; 0.7]%Q].
  repeat split; reflexivity.
Qed.

Lemma C1_witness :
  is_ok (fst (predict Demo.hub Demo.dot "short" 0.35 false 0.85 false
                Demo.fresh)) = true.
Proof.
  refine (proj2 (proj2 (C1_predict_zips_to_shorter_length
            Demo.hub Demo.dot "short"%string 0.35%Q false 0.85%Q false
            Demo.fresh (snd (load_model Demo.hub "short" Demo.fresh))
            ["general"; "smile"; "meta"]%string [0.9; 0.8]%Q [0] [1] [] _)) _).
  - repeat split.
    exists (Demo.classifier [0.9; 0.8]%Q).
    eexists. exists [[0.9; 0.8]%Q].
    repeat split; reflexivity.
  - split; [|split; discriminate].
    repeat constructor.
Defined.

(** ** C3 *)

(** C3.  The arithmetic of [mcut_threshold] is that of binary64: every
    difference, the sum and its half are rounded.  For a vector of two
    confidences or more, whatever the rounding, [mcut_threshold] returns the
    rounded midpoint of [sorted[k]] and [sorted[k+1]], where [sorted] is the
    vector in descending order and [k] the first position at which the
    rounded difference [sorted[k] - sorted[k+1]] is largest.  For a rounding
    that is a function of the value, which [round64] is, this description
    determines the threshold, whatever the order given to equal confidences.
    On binary64 numbers of magnitude at most 2^1022, which all probabilities
    are, no difference and no sum exceeds 2^1023 in magnitude, so nothing
    overflows, and the threshold is such a number again.
    In binary64, for [0.9, 0.6, 0.5, 0.1] it returns 0.3, and the
    confidences strictly above it are 0.9, 0.6, 0.5; for [0.2, 0.8, 0.7] it
    returns 0.44999999999999996, the number below 0.45; for [0.7, 0.4, 0.1]
    it returns 0.25; for 0.875, 0.5, 0.375 + 2^-54, 3 * 2^-56 the third
    difference is the largest before rounding, the first and the third are
    equal after it, and it returns 0.6875. *)
Theorem C3_mcut_threshold_is_midpoint_of_first_largest_gap :
  (forall (rnd : Q -> Q) (probs : list Q),
     2 <= List.length probs ->
     exists t,
       mcut_threshold_with rnd probs = Ok t /\
       (exists sorted k, MCut_spec_with rnd probs sorted k t) /\
       ((forall a b, (a == b)%Q -> (rnd a == rnd b)%Q) ->
        forall sorted k t',
          MCut_spec_with rnd probs sorted k t' -> (t' == t)%Q)) /\
  (forall a b, (a == b)%Q -> (round64 a == round64 b)%Q) /\
  (forall probs : list Q,
     2 <= List.length probs ->
     (forall x, In x probs -> in_range x) ->
     exists t sorted k,
       mcut_threshold_with round64 probs = Ok t /\
       MCut_spec_with round64 probs sorted k t /\
       in_range t /\
       (forall j, S j < List.length sorted ->
          (Qabs (nth j sorted 0 - nth (S j) sorted 0) <= pow2 1023)%Q) /\
       (Qabs (nth k sorted 0 + nth (S k) sorted 0) <= pow2 1023)%Q) /\
  (exists t,
     mcut_threshold_with round64 (map round64 [0.9; 0.6; 0.5; 0.1]%Q) = Ok t /\
     (t == round64 0.3)%Q /\
     argmax (np_sub_with round64
               (removelast (map round64 [0.9; 0.6; 0.5; 0.1]%Q))
               (tl (map round64 [0.9; 0.6; 0.5; 0.1]%Q))) = Ok 2 /\
     above t (combine ["a"; "b"; "c"; "d"]%string
                      (map round64 [0.9; 0.6; 0.5; 0.1]%Q))
     = combine ["a"; "b"; "c"]%string (map round64 [0.9; 0.6; 0.5]%Q)) /\
  (exists t,
     mcut_threshold_with round64 (map round64 [0.2; 0.8; 0.7]%Q) = Ok t /\
     (t == 2026619832316723 # 4503599627370496)%Q /\
     (t < round64 0.45)%Q) /\
  (exists t,
     mcut_threshold_with round64 (map round64 [0.7; 0.4; 0.1]%Q) = Ok t /\
     (t == 1 # 4)%Q) /\
  (let probs := [7 # 8; 1 # 2; (3 # 8) + pow2 (-54); 3 * pow2 (-56)]%Q in
   Forall binary64 probs /\
   (gap probs 0 < gap probs 2)%Q /\
   (gap_with round64 probs 0 == gap_with round64 probs 2)%Q /\
   exists t,
     mcut_threshold_with round64 probs = Ok t /\ (t == 11 # 16)%Q).
Proof.
  split; [|split; [|split; [|split; [|split; [|split]]]]].
  - intros rnd probs Hlen.
    destruct (mcut_threshold_with_meets_spec rnd probs Hlen)
      as (s & k & t & Ht & Hspec).
    exists t. split; [exact Ht|]. split; [now exists s, k|].
    intros Hrnd s' k' t' Hspec'.
    exact (MCut_spec_with_unique _ _ _ _ _ _ _ _ Hrnd Hspec' Hspec).
  - exact round64_comp.
  - intros probs Hlen Hr.
    destruct (mcut_threshold_with_meets_spec round64 probs Hlen)
      as (s & k & t & Ht & Hspec).
    destruct (mcut_threshold_no_overflow probs s k t Hr Hspec)
      as (Hdif & Hsum & _ & Hin).
    exists t, s, k. auto.
  - exists (round64 (round64 (round64 0.5 + round64 0.1) / 2)).
    repeat split; vm_compute; reflexivity.
  - exists (round64 (round64 (round64 0.7 + round64 0.2) / 2)).
    repeat split; vm_compute; reflexivity.
  - exists (round64 (round64 (round64 0.4 + round64 0.1) / 2)).
    repeat split; vm_compute; reflexivity.
  - cbv zeta. split; [|split; [|split]].
    + repeat (apply Forall_cons; [vm_compute; reflexivity|]). apply Forall_nil.
    + vm_compute; reflexivity.
    + vm_compute; reflexivity.
    + exists (round64 (round64 ((7 # 8) + (1 # 2)) / 2)).
      split; vm_compute; reflexivity.
Qed.

Lemma C3_witness :
  exists t,
    mcut_threshold_with round64 (map round64 [0.2; 0.8; 0.7]%Q) = Ok t /\
    (exists sorted k,
       MCut_spec_with round64 (map round64 [0.2; 0.8; 0.7]%Q) sorted k t) /\
    ((forall a b, (a == b)%Q -> (round64 a == round64 b)%Q) ->
     forall sorted k t',
       MCut_spec_with round64 (map round64 [0.2; 0.8; 0.7]%Q) sorted k t' ->
       (t' == t)%Q).
Proof.
  apply (proj1 C3_mcut_threshold_is_midpoint_of_first_largest_gap round64).
  rewrite length_map. simpl. lia.
Defined.

(** ** C9 *)

(** C9.  On a vector of fewer than two confidences the array of consecutive
    differences is empty and [mcut_threshold] raises instead of returning;
    hence [predict] raises whenever MCut is enabled for a group of fewer
    than two indexes, with [ValueError] when every index is in range. *)
Theorem C9_mcut_threshold_raises_below_two_members :
  (forall probs : list Q,
     List.length probs < 2 ->
     consecutive_difs (take_indices probs (rev (argsort probs))) = [] /\
     mcut_threshold probs = Raise ValueError) /\
  (forall ext image model_repo gt gm ct cm w,
     let w1 := snd (load_model ext model_repo w) in
     (gm = true /\ exists gi, general_indexes (self w1) = Some gi /\
                              List.length gi < 2) \/
     (cm = true /\ exists ci, character_indexes (self w1) = Some ci /\
                              List.length ci < 2) ->
     is_ok (fst (predict ext image model_repo gt gm ct cm w)) = false) /\
  (forall ext image model_repo gt gm ct cm w w1 names preds0 ri gi ci,
     reaches_labels ext image model_repo w w1 names preds0 ri gi ci ->
     Forall (fun i => i < List.length (combine names preds0)) (ri ++ gi ++ ci) ->
     (gm = true /\ List.length gi < 2) \/ (cm = true /\ List.length ci < 2) ->
     fst (predict ext image model_repo gt gm ct cm w) = Raise ValueError).
Proof.
  split; [|split].
  - intros probs Hlen. split; [|now apply mcut_threshold_short].
    pose proof (consecutive_difs_length
                  (take_indices probs (rev (argsort probs)))) as Hd.
    rewrite (Permutation_length (sorted_probs_perm probs)) in Hd.
    destruct (consecutive_difs _); [reflexivity|simpl in Hd; lia].
  - intros * Hshort.
    destruct (predict ext image model_repo gt gm ct cm w) as [[out|e] w']
      eqn:Hp; [exfalso|reflexivity].
    apply predict_inv in Hp.
    destruct Hp as (w1' & names & preds0 & ri & gi & ci & Hr & Hok & _).
    assert (Hok' : is_ok (predict_from_labels (combine names preds0)
                            ri gi ci gt gm ct cm) = true)
      by now rewrite Hok.
    apply predict_from_labels_ok in Hok'.
    destruct Hok' as (_ & Hg & Hc).
    destruct Hr as (Hload & _ & _ & Hgi & Hci & _).
    subst w1. rewrite Hload in Hshort. cbn [snd] in Hshort.
    destruct Hshort as [[-> (gi' & E & Hlt)]|[-> (ci' & E & Hlt)]].
    + assert (gi' = gi) by congruence. subst. specialize (Hg eq_refl). lia.
    + assert (ci' = ci) by congruence. subst. specialize (Hc eq_refl). lia.
  - intros * Hr Hall Hshort.
    rewrite (predict_unfold _ _ _ _ _ _ _ _ _ _ gt gm ct cm Hr). cbn [fst].
    rewrite !Forall_app in Hall. destruct Hall as (Hri & Hgi & Hci).
    unfold predict_from_labels.
    rewrite (comprehension_getitem_Ok _ _ (EmptyString, 0%Q) Hri).
    rewrite (comprehension_getitem_Ok _ _ (EmptyString, 0%Q) Hgi).
    rewrite (comprehension_getitem_Ok _ _ (EmptyString, 0%Q) Hci).
    cbn [Pure.bind].
    assert (Hs : forall idx : list nat, List.length idx < 2 ->
      mcut_threshold
        (map snd (map (fun i => nth i (combine names preds0)
                                  (EmptyString, 0%Q)) idx))
      = Raise ValueError)
      by (intros idx Hlt; apply mcut_threshold_short; now rewrite !length_map).
    destruct Hshort as [[-> Hlt]|[-> Hlt]].
    + now rewrite (Hs gi Hlt).
    + rewrite (Hs ci Hlt).
      destruct gm; [|reflexivity].
      destruct (mcut_threshold _) as [t|e] eqn:E; [reflexivity|].
      cbn [Pure.bind].
      destruct (le_lt_dec 2 (List.length gi)) as [Hge|Hlt'].
      * assert (Ht : is_ok (mcut_threshold
          (map snd (map (fun i => nth i (combine names preds0)
                                    (EmptyString, 0%Q)) gi))) = true)
          by (apply mcut_threshold_total; now rewrite !length_map).
        rewrite E in Ht. discriminate.
      * rewrite (Hs gi Hlt') in E. congruence.
Qed.

Lemma C9_witness :
  is_ok (fst (predict Demo.hub Demo.dot "long" 0.35 true 0.85 false
                Demo.fresh)) = false.
Proof.
  apply (proj1 (proj2 C9_mcut_threshold_raises_below_two_members)).
  left. split; [reflexivity|].
  exists [1]. split; [reflexivity|simpl; lia].
Defined.

(** ** C4 *)

Lemma dict_values_above labels idx t name p :
  dict_get (py_dict (group labels (accepted labels idx t))) name = Some p ->
  (t < p)%Q.
Proof.
  rewrite py_dict_get. intros H. apply last_assoc_In in H.
  unfold group in H. apply in_map_iff in H. destruct H as (i & Hi & Hin).
  apply accepted_spec in Hin. destruct Hin as [_ Hlt].
  unfold prob in Hlt. now rewrite Hi in Hlt.
Qed.

Lemma keys_accepted labels idx t name :
  In name (keys (py_dict (group labels (accepted labels idx t)))) <->
  exists i, In i idx /\ fst (label_at labels i) = name /\ (t < prob labels i)%Q.
Proof.
  rewrite keys_group. split.
  - intros (i & Hin & Hn). apply accepted_spec in Hin. exists i. tauto.
  - intros (i & Hin & Hn & Hlt). exists i. split; trivial.
    apply accepted_spec. tauto.
Qed.

(** C4.  With fixed thresholds, the accepted indexes of the general and of
    the character group are exactly those with [prob[i] > t]; an index whose
    confidence equals the threshold is rejected.  The two returned maps are
    the dictionaries of the accepted labels. *)
Theorem C4_fixed_threshold_accepts_strictly_above :
  (forall ext image model_repo gt ct w w1 names preds0 ri gi ci,
     reaches_labels ext image model_repo w w1 names preds0 ri gi ci ->
     let labels := combine names preds0 in
     Forall (fun i => i < List.length labels) (ri ++ gi ++ ci) ->
     let gacc := accepted labels gi gt in
     let cacc := accepted labels ci ct in
     (forall i, In i gacc <-> In i gi /\ (gt < prob labels i)%Q) /\
     (forall i, In i cacc <-> In i ci /\ (ct < prob labels i)%Q) /\
     (forall i, (prob labels i == gt)%Q -> ~ In i gacc) /\
     (forall i, (prob labels i == ct)%Q -> ~ In i cacc) /\
     exists s rating cres gres,
       fst (predict ext image model_repo gt false ct false w)
       = Ok (s, rating, cres, gres) /\
       gres = py_dict (group labels gacc) /\
       cres = py_dict (group labels cacc) /\
       (forall name, In name (keys gres) <->
          exists i, In i gi /\ fst (label_at labels i) = name /\
                    (gt < prob labels i)%Q) /\
       (forall name, In name (keys cres) <->
          exists i, In i ci /\ fst (label_at labels i) = name /\
                    (ct < prob labels i)%Q) /\
       (forall name p, dict_get gres name = Some p -> (gt < p)%Q) /\
       (forall name p, dict_get cres name = Some p -> (ct < p)%Q)) /\
  accepted [("a", 0.35); ("b", 0.350001)]%string%Q [0; 1] 0.35 = [1].
Proof.
  split; [|reflexivity].
  intros * Hr labels Hall gacc cacc.
  split; [intros; apply accepted_spec|].
  split; [intros; apply accepted_spec|].
  split; [intros i; apply accepted_boundary|].
  split; [intros i; apply accepted_boundary|].
  rewrite (predict_unfold _ _ _ _ _ _ _ _ _ _ gt false ct false Hr).
  fold labels. rewrite (predict_from_labels_eq _ _ _ _ _ _ _ _ Hall).
  cbn [Pure.bind fst]. fold gacc cacc.
  do 4 eexists. split; [reflexivity|].
  split; [reflexivity|]. split; [reflexivity|].
  split; [intros; apply keys_accepted|].
  split; [intros; apply keys_accepted|].
  split; intros name p; apply dict_values_above.
Qed.

Lemma C4_witness :
  exists s rating cres gres,
    fst (predict Demo.hub Demo.dot "demo" 0.1 false 0.05 false Demo.fresh)
    = Ok (s, rating, cres, gres) /\
    gres = [] /\ cres = [("hatsune miku"%string, 0.1%Q)].
Proof.
  destruct (proj1 C4_fixed_threshold_accepts_strictly_above
              Demo.hub Demo.dot "demo"%string 0.1%Q 0.05%Q Demo.fresh
              (snd (load_model Demo.hub "demo" Demo.fresh))
              ["general"; "sensitive"; "long hair"; "smile";
               "hatsune miku"; "kagamine rin"]%string
              [0.7; 0.3; 0.1; 0; 0.1; 0]%Q [0; 1] [2; 3] [4; 5])
    as (_ & _ & _ & _ & s & rating & cres & gres & Hp & Hg & Hc & _).
  - repeat split.
    exists (Demo.classifier [0.7; 0.3; 0.1; 0; 0.1; 0]%Q).
    eexists. exists [[0.7; 0.3; 0.1; 0; 0.1; 0]%Q].
    repeat split; reflexivity.
  - repeat constructor.
  - exists s, rating, cres, gres. split; [exact Hp|].
    split; [exact Hg|exact Hc].
Defined.

(** ** C5 *)



(** ** C10 *)

Lemma load_labels_Ok_inv df names ri gi ci :
  load_labels df = Ok (names, ri, gi, ci) ->
  exists raw codes,
    df_name df = Some raw /\ df_category df = Some codes /\
    names = map normalize_name raw /\
    ri = np_where 9 codes /\ gi = np_where 0 codes /\ ci = np_where 4 codes.
Proof.
  unfold load_labels.
  destruct (df_name df) as [raw|]; [|discriminate].
  destruct (df_category df) as [codes|]; [|discriminate].
  intros [= <- <- <- <-]. exists raw, codes. repeat split; reflexivity.
Qed.

(** C10.  The three returned maps are dictionaries built from the lists of
    (name, confidence) pairs of their groups.  Such a dictionary holds, for
    each name, the confidence of the last pair with that name, and has fewer
    entries than the list as soon as a name occurs twice; the catalog itself
    keeps one name per row, equal names included. *)
Theorem C10_returned_maps_keep_last_of_equal_names :
  (forall ext image model_repo gt gm ct cm w s rating cres gres w',
     predict ext image model_repo gt gm ct cm w
     = (Ok (s, rating, cres, gres), w') ->
     exists w1 names preds0 ri gi ci general_thresh character_thresh,
       reaches_labels ext image model_repo w w1 names preds0 ri gi ci /\
       let labels := combine names preds0 in
       rating = py_dict (group labels ri) /\
       gres = py_dict (group labels (accepted labels gi general_thresh)) /\
       cres = py_dict (group labels (accepted labels ci character_thresh))) /\
  (forall pairs name, dict_get (py_dict pairs) name = last_assoc pairs name) /\
  (forall pairs1 pairs2 name v,
     ~ In name (map fst pairs2) ->
     dict_get (py_dict (pairs1 ++ (name, v) :: pairs2)) name = Some v) /\
  (forall pairs,
     List.length (py_dict pairs) <= List.length pairs /\
     (~ NoDup (map fst pairs) ->
      List.length (py_dict pairs) < List.length pairs)) /\
  (forall df names ri gi ci,
     load_labels df = Ok (names, ri, gi, ci) ->
     exists raw, df_name df = Some raw /\ names = map normalize_name raw /\
                 List.length names = List.length raw) /\
  (normalize_name "a_b" = "a b"%string /\
   normalize_name "a b" = "a b"%string /\
   load_labels (Demo.table ["general"; "a_b"; "a b"]%string [9; 0; 0]%Z)
   = Ok (["general"; "a b"; "a b"]%string, [0], [1; 2], []) /\
   accepted (combine ["general"; "a b"; "a b"]%string [1; 0.9; 0.5]%Q)
            [1; 2] 0.35 = [1; 2] /\
   fst (predict Demo.hub Demo.dot "dup" 0.35 false 0.85 false Demo.fresh)
   = Ok ("a b"%string, [("general"%string, 1%Q)], [],
         [("a b"%string, 0.5%Q)])).
Proof.
  split; [|split; [|split; [|split; [|split]]]].
  - intros * H. apply predict_inv_groups in H.
    destruct H as (w1 & names & preds0 & ri & gi & ci & t & t' & Hr & H).
    cbv zeta in H. destruct H as (_ & _ & _ & _ & Hrat & Hc & Hg).
    exists w1, names, preds0, ri, gi, ci, t, t'. cbv zeta. auto.
  - exact py_dict_get.
  - intros * Hout. rewrite py_dict_get. now apply last_assoc_last.
  - exact py_dict_length.
  - intros * H. apply load_labels_Ok_inv in H.
    destruct H as (raw & codes & Hn & _ & -> & _).
    exists raw. rewrite length_map. auto.
  - repeat split.
Qed.

Lemma C10_witness :
  exists w1 names preds0 ri gi ci general_thresh character_thresh,
    reaches_labels Demo.hub Demo.dot "dup" Demo.fresh w1 names preds0 ri gi ci /\
    let labels := combine names preds0 in
    [("general"%string, 1%Q)] = py_dict (group labels ri) /\
    [("a b"%string, 0.5%Q)]
    = py_dict (group labels (accepted labels gi general_thresh)) /\
    [] = py_dict (group labels (accepted labels ci character_thresh)).
Proof.
  apply (proj1 C10_returned_maps_keep_last_of_equal_names
           Demo.hub Demo.dot "dup"%string 0.35%Q false 0.85%Q false Demo.fresh
           "a b"%string [("general"%string, 1%Q)] [] [("a b"%string, 0.5%Q)]
           (snd (predict Demo.hub Demo.dot "dup" 0.35 false 0.85 false
                   Demo.fresh))).
  reflexivity.
Defined.

(** ** C7 *)

Lemma str_app_assoc (a b c : string) :
  ((a ++ b) ++ c = a ++ (b ++ c))%string.
Proof. induction a as [|x a IH]; simpl; [reflexivity|now rewrite IH]. Qed.

Lemma str_replace_app old new (a b : string) :
  str_replace old new (a ++ b)
  = (str_replace old new a ++ str_replace old new b)%string.
Proof.
  induction a as [|x a IH]; simpl; [reflexivity|].
  rewrite IH. destruct (Ascii.eqb x old); [|reflexivity].
  now rewrite str_app_assoc.
Qed.

Lemma str_replace_join old new sep (l : list string) :
  str_replace old new sep = sep ->
  str_replace old new (str_join sep l)
  = str_join sep (map (str_replace old new) l).
Proof.
  intros Hsep. induction l as [|s l IH]; [reflexivity|].
  destruct l as [|s' l]; [reflexivity|].
  change (str_join sep (s :: s' :: l))
    with (s ++ sep ++ str_join sep (s' :: l))%string.
  rewrite !str_replace_app, Hsep, IH. reflexivity.
Qed.

Lemma escape_parens_eq (s : string) :
  str_replace ")" "\)" (str_replace "(" "\(" s) = escape_parens s.
Proof.
  induction s as [|c s IH]; [reflexivity|].
  cbn [str_replace escape_parens].
  destruct (Ascii.eqb c "(") eqn:E1.
  - apply Ascii.eqb_eq in E1. subst c. cbn. now rewrite IH.
  - destruct (Ascii.eqb c ")") eqn:E2.
    + apply Ascii.eqb_eq in E2. subst c. cbn. now rewrite IH.
    + cbn [orb str_replace]. now rewrite E2, IH.
Qed.

Lemma format_general_eq (d : dict) :
  format_general d =
  str_join ", "
    (map escape_parens
       (map fst (stable_sort (fun a b => Qle_bool (snd b) (snd a)) (items d)))).
Proof.
  unfold format_general.
  rewrite !str_replace_join by reflexivity.
  rewrite map_map. f_equal. apply map_ext. intros s. apply escape_parens_eq.
Qed.

(** C7.  The string returned by [predict] is the formatting of the returned
    general map: its names in descending order of confidence, names of equal
    confidence in the order the map lists them, each name with a backslash
    before every parenthesis and otherwise unchanged, joined by a comma and
    a space.  A map built from pairs of distinct names lists them in the
    order of the pairs. *)
Theorem C7_general_tags_sorted_escaped_joined :
  (forall ext image model_repo gt gm ct cm w s rating cres gres w',
     predict ext image model_repo gt gm ct cm w
     = (Ok (s, rating, cres, gres), w') ->
     s = format_general gres) /\
  (forall d : dict,
     exists sorted,
       Permutation sorted (items d) /\
       StronglySorted (fun a b => (snd b <= snd a)%Q) sorted /\
       (forall c, filter (fun x => Qeq_bool (snd x) c) sorted
                  = filter (fun x => Qeq_bool (snd x) c) (items d)) /\
       format_general d = str_join ", " (map escape_parens (map fst sorted))) /\
  (forall pairs, NoDup (map fst pairs) -> items (py_dict pairs) = pairs) /\
  format_general (py_dict [("cat(ears)", 0.9); ("smile", 0.8)]%string%Q)
  = "cat\(ears\), smile"%string.
Proof.
  split; [|split; [|split; [exact py_dict_distinct|reflexivity]]].
  - intros * H. apply predict_inv_groups in H.
    destruct H as (w1 & names & preds0 & ri & gi & ci & t & t' & _ & H).
    cbv zeta in H. tauto.
  - intros d.
    exists (stable_sort (fun a b => Qle_bool (snd b) (snd a)) (items d)).
    split; [apply stable_sort_perm|].
    split; [|split; [|apply format_general_eq]].
    + apply StronglySorted_impl
        with (R := fun a b : string * Q => Qle_bool (snd b) (snd a) = true).
      * intros a b. apply Qle_bool_iff.
      * apply stable_sort_sorted.
        -- intros a b. rewrite !Qle_bool_iff.
           destruct (Qlt_le_dec (snd b) (snd a)); auto using Qlt_le_weak.
        -- intros a b c. rewrite !Qle_bool_iff. intros H1 H2.
           exact (Qle_trans _ _ _ H2 H1).
    + intros c. apply stable_sort_filter.
      intros a b Ha Hb. apply Qeq_bool_iff in Ha, Hb.
      apply Qle_bool_iff. rewrite Ha, Hb. apply Qle_refl.
Qed.

Lemma C7_witness :
  "long hair"%string = format_general [("long hair"%string, 0.1%Q)].
Proof.
  apply (proj1 C7_general_tags_sorted_escaped_joined
           Demo.hub Demo.dot "demo"%string 0.35%Q true 0.85%Q true Demo.fresh
           "long hair"%string
           [("general"%string, 0.7%Q); ("sensitive"%string, 0.3%Q)] []
           [("long hair"%string, 0.1%Q)]
           (snd (predict Demo.hub Demo.dot "demo" 0.35 true 0.85 true
                   Demo.fresh))).
  reflexivity.
Defined.

(** ** C2 *)

Lemma cached_dec (last : option string) (model_repo : string) :
  {last = Some model_repo} + {last <> Some model_repo}.
Proof.
  destruct last as [r|]; [|right; discriminate].
  destruct (string_dec r model_repo) as [->|Hne]; [now left|].
  right. congruence.
Qed.

(** C2, as the code has it.  When [load_model] fails while fetching the
    artifacts or parsing the label table, the attributes of the predictor
    are those before the call.  When it fails while constructing the
    classifier or reading its input shape, [model], [model_target_size] and
    [last_loaded_repo] are those before the call, and [tag_names] and the
    three index groups are those of the new label table. *)
Theorem C2_failed_load_keeps_classifier_attributes :
  forall ext model_repo w e w',
    load_model ext model_repo w = (Raise e, w') ->
    model (self w') = model (self w) /\
    model_target_size (self w') = model_target_size (self w) /\
    last_loaded_repo (self w') = last_loaded_repo (self w) /\
    match fetch_and_parse ext model_repo with
    | Raise e0 => e = e0 /\ self w' = self w
    | Ok (_, model_path, (names, ri, gi, ci)) =>
        build_session ext model_path = Raise e /\
        self w' = set_catalog names ri gi ci (self w)
    end.
Proof.
  intros * H.
  destruct (cached_dec (last_loaded_repo (self w)) model_repo) as [Hhit|Hmiss].
  - rewrite (load_model_hit _ _ _ Hhit) in H. discriminate.
  - pose proof (load_model_miss ext model_repo w Hmiss) as Hcases.
    destruct (fetch_and_parse ext model_repo)
      as [[[csv mp] [[[names ri] gi] ci]]|e0].
    + cbv zeta in Hcases.
      destruct (build_session ext mp) as [[session target]|e1];
        rewrite Hcases in H; [discriminate|].
      injection H as <- <-. repeat split.
    + destruct Hcases as [evs Hcases]. rewrite Hcases in H.
      injection H as <- <-. repeat split.
Qed.

(** The catalog of "demo" is cached; loading "broken", whose classifier
    cannot be constructed, leaves the catalog of "broken" beside the
    classifier and the identifier of "demo", and a later [predict] for
    "demo" names the first confidence of the old classifier "explicit". *)
Lemma C2_failed_load_mixes_old_and_new :
  let w := snd (load_model Demo.hub "demo" Demo.fresh) in
  let r := load_model Demo.hub "broken" w in
  fst r = Raise SessionError /\
  tag_names (self w)
  = Some ["general"; "sensitive"; "long hair"; "smile"; "hatsune miku";
          "kagamine rin"]%string /\
  tag_names (self (snd r)) = Some ["explicit"%string] /\
  rating_indexes (self (snd r)) = Some [0] /\
  general_indexes (self (snd r)) = Some [] /\
  character_indexes (self (snd r)) = Some [] /\
  model (self (snd r)) = model (self w) /\
  last_loaded_repo (self (snd r)) = Some "demo"%string /\
  self (snd r) <> self w /\
  fst (predict Demo.hub Demo.dot "demo" 0.35 false 0.85 false (snd r))
  = Ok (EmptyString, [("explicit"%string, 0.7%Q)], [], []).
Proof.
  cbv zeta. repeat split. intros H.
  apply (f_equal tag_names) in H. discriminate.
Qed.

Lemma C2_witness :
  model (self (snd (load_model Demo.hub "missing" Demo.fresh))) = None /\
  self (snd (load_model Demo.hub "missing" Demo.fresh)) = Predictor_init.
Proof.
  destruct (C2_failed_load_keeps_classifier_attributes
              Demo.hub "missing"%string Demo.fresh FetchError
              (snd (load_model Demo.hub "missing" Demo.fresh)) eq_refl)
    as (Hm & _ & _ & Hcase).
  split; [exact Hm|exact (proj2 Hcase)].
Defined.

(** ** C8 *)

(** Two calls in a row with one identifier, from any state and whatever
    fails: the external calls made are an initial part of one fetch and
    build sequence. *)
Lemma two_loads_one_sequence ext model_repo w :
  exists evs rest csv_path model_path,
    trace (snd (Eff.bind (load_model ext model_repo)
                  (fun _ => load_model ext model_repo) w))
    = trace w ++ evs /\
    evs ++ rest = load_events model_repo csv_path model_path.
Proof.
  destruct (cached_dec (last_loaded_repo (self w)) model_repo) as [Hhit|Hmiss].
  - rewrite (bind_eq _ _ _ _ _ (load_model_hit ext _ _ Hhit)).
    rewrite (load_model_hit ext _ _ Hhit).
    exists [], (load_events model_repo EmptyString EmptyString),
           EmptyString, EmptyString.
    split; [now rewrite app_nil_r|reflexivity].
  - pose proof (load_model_miss_eq ext model_repo w Hmiss) as H.
    cbv zeta in H. unfold load_events.
    destruct (hf_hub_download ext model_repo LABEL_FILENAME) as [csv|e].
    2:{ rewrite (bind_raise _ _ _ _ _ H). cbn [snd trace].
        now exists [EvDownload model_repo LABEL_FILENAME],
                   [EvDownload model_repo MODEL_FILENAME;
                    EvReadCsv EmptyString; EvSession EmptyString],
                   EmptyString, EmptyString. }
    destruct (hf_hub_download ext model_repo MODEL_FILENAME) as [mp|e].
    2:{ rewrite (bind_raise _ _ _ _ _ H). cbn [snd trace].
        now exists [EvDownload model_repo LABEL_FILENAME;
                    EvDownload model_repo MODEL_FILENAME],
                   [EvReadCsv EmptyString; EvSession EmptyString],
                   EmptyString, EmptyString. }
    assert (Hparse : forall e,
      load_model ext model_repo w
      = (Raise e,
         {| self := self w;
            trace := trace w ++ [EvDownload model_repo LABEL_FILENAME;
                                 EvDownload model_repo MODEL_FILENAME;
                                 EvReadCsv csv] |}) ->
      exists evs rest csv_path model_path,
        trace (snd (Eff.bind (load_model ext model_repo)
                      (fun _ => load_model ext model_repo) w))
        = trace w ++ evs /\
        evs ++ rest
        = [EvDownload model_repo LABEL_FILENAME;
           EvDownload model_repo MODEL_FILENAME;
           EvReadCsv csv_path; EvSession model_path]).
    { intros e He. rewrite (bind_raise _ _ _ _ _ He). cbn [snd trace].
      now exists [EvDownload model_repo LABEL_FILENAME;
                  EvDownload model_repo MODEL_FILENAME; EvReadCsv csv],
                 [EvSession EmptyString], csv, EmptyString. }
    destruct (read_csv ext csv) as [df|e]; [|exact (Hparse e H)].
    destruct (load_labels df) as [[[[names ri] gi] ci]|e];
      [|exact (Hparse e H)].
    cbv zeta in H. unfold load_events in H.
    exists [EvDownload model_repo LABEL_FILENAME;
            EvDownload model_repo MODEL_FILENAME;
            EvReadCsv csv; EvSession mp], [], csv, mp.
    split; [|reflexivity].
    destruct (build_session ext mp) as [[session target]|e].
    + rewrite (bind_eq _ _ _ _ _ H).
      rewrite load_model_hit by reflexivity. reflexivity.
    + rewrite (bind_raise _ _ _ _ _ H). reflexivity.
Qed.

(** C8.  [load_model] returns at once, without an external call and
    without touching the predictor, when the identifier is the cached one.
    Two calls in a row with one identifier make the external calls of at
    most one fetch and build sequence; after a call that returned, the
    second call is such a no-op.  With an identifier that is not the cached
    one, and a fetch and a build that succeed, it replaces the catalog, the
    classifier, the target size and the identifier. *)
Theorem C8_load_model_is_cached_by_identifier :
  (forall ext model_repo w,
     last_loaded_repo (self w) = Some model_repo ->
     load_model ext model_repo w = (Ok tt, w)) /\
  (forall ext model_repo w,
     exists evs rest csv_path model_path,
       trace (snd (Eff.bind (load_model ext model_repo)
                     (fun _ => load_model ext model_repo) w))
       = trace w ++ evs /\
       evs ++ rest = load_events model_repo csv_path model_path) /\
  (forall ext model_repo w w1,
     load_model ext model_repo w = (Ok tt, w1) ->
     Eff.bind (load_model ext model_repo) (fun _ => load_model ext model_repo) w
     = (Ok tt, w1) /\
     last_loaded_repo (self w1) = Some model_repo /\
     (trace w1 = trace w \/
      exists csv_path model_path,
        trace w1 = trace w ++ load_events model_repo csv_path model_path)) /\
  (forall ext model_repo w csv_path model_path names ri gi ci session target,
     last_loaded_repo (self w) <> Some model_repo ->
     fetch_and_parse ext model_repo
     = Ok (csv_path, model_path, (names, ri, gi, ci)) ->
     build_session ext model_path = Ok (session, target) ->
     load_model ext model_repo w
     = (Ok tt,
        {| self := {| tag_names := Some names; rating_indexes := Some ri;
                      general_indexes := Some gi;
                      character_indexes := Some ci;
                      model := Some session; model_target_size := target;
                      last_loaded_repo := Some model_repo |};
           trace := trace w ++ load_events model_repo csv_path model_path |})) /\
  (forall ext model_repo w w1,
     last_loaded_repo (self w) <> Some model_repo ->
     load_model ext model_repo w = (Ok tt, w1) ->
     exists csv_path model_path names ri gi ci session target,
       fetch_and_parse ext model_repo
       = Ok (csv_path, model_path, (names, ri, gi, ci)) /\
       build_session ext model_path = Ok (session, target) /\
       self w1 = {| tag_names := Some names; rating_indexes := Some ri;
                    general_indexes := Some gi; character_indexes := Some ci;
                    model := Some session; model_target_size := target;
                    last_loaded_repo := Some model_repo |}).
Proof.
  split; [exact load_model_hit|].
  split; [exact two_loads_one_sequence|].
  assert (Hinv : forall ext model_repo w w1,
    last_loaded_repo (self w) <> Some model_repo ->
    load_model ext model_repo w = (Ok tt, w1) ->
    exists csv_path model_path names ri gi ci session target,
      fetch_and_parse ext model_repo
      = Ok (csv_path, model_path, (names, ri, gi, ci)) /\
      build_session ext model_path = Ok (session, target) /\
      w1 = {| self := set_classifier session target model_repo
                        (set_catalog names ri gi ci (self w));
              trace := trace w ++ load_events model_repo csv_path model_path |}).
  { intros * Hmiss H.
    pose proof (load_model_miss ext model_repo w Hmiss) as Hcases.
    destruct (fetch_and_parse ext model_repo)
      as [[[csv mp] [[[names ri] gi] ci]]|e0].
    - cbv zeta in Hcases.
      destruct (build_session ext mp) as [[session target]|e1] eqn:Hb;
        rewrite Hcases in H; [|discriminate].
      injection H as <-.
      exists csv, mp, names, ri, gi, ci, session, target. auto.
    - destruct Hcases as [evs Hcases]. rewrite Hcases in H. discriminate. }
  split; [|split].
  - intros * H.
    assert (Hid : last_loaded_repo (self w1) = Some model_repo /\
                  (trace w1 = trace w \/
                   exists csv_path model_path,
                     trace w1
                     = trace w ++ load_events model_repo csv_path model_path)).
    { destruct (cached_dec (last_loaded_repo (self w)) model_repo)
        as [Hhit|Hmiss].
      - rewrite (load_model_hit _ _ _ Hhit) in H. injection H as <-. auto.
      - destruct (Hinv _ _ _ _ Hmiss H)
          as (csv & mp & names & ri & gi & ci & session & target & _ & _ & ->).
        split; [reflexivity|]. right. now exists csv, mp. }
    split; [|exact Hid].
    rewrite (bind_eq _ _ _ _ _ H). apply load_model_hit, Hid.
  - intros * Hmiss Hf Hb.
    pose proof (load_model_miss ext model_repo w Hmiss) as Hcases.
    rewrite Hf in Hcases. cbv zeta in Hcases. rewrite Hb in Hcases.
    exact Hcases.
  - intros * Hmiss H.
    destruct (Hinv _ _ _ _ Hmiss H)
      as (csv & mp & names & ri & gi & ci & session & target & Hf & Hb & ->).
    exists csv, mp, names, ri, gi, ci, session, target. auto.
Qed.

Lemma C8_witness :
  Eff.bind (load_model Demo.hub "demo") (fun _ => load_model Demo.hub "demo")
    Demo.fresh
  = (Ok tt, snd (load_model Demo.hub "demo" Demo.fresh)) /\
  trace (snd (load_model Demo.hub "demo" Demo.fresh))
  = load_events "demo" "demo/selected_tags.csv" "demo/model.onnx".
Proof.
  split; [|reflexivity].
  apply (proj1 (proj2 (proj2 C8_load_model_is_cached_by_identifier))
           Demo.hub "demo"%string Demo.fresh
           (snd (load_model Demo.hub "demo" Demo.fresh))).
  reflexivity.
Defined.

(** ** C6 *)

Lemma nth_map_seq {B} (f : nat -> B) (n i : nat) (d : B) :
  i < n -> nth i (map f (seq 0 n)) d = f i.
Proof.
  intros Hi.
  rewrite (nth_indep _ d (f 0)) by (rewrite length_map, length_seq; exact Hi).
  rewrite map_nth, seq_nth by exact Hi. reflexivity.
Qed.

Lemma asarray_shape (im : Image RGB) :
  has_shape3 (reverse_channels (asarray im)) (height im) (width im) 3.
Proof.
  unfold has_shape3, reverse_channels, asarray. split.
  - now rewrite !length_map, length_seq.
  - rewrite Forall_map, Forall_map. apply Forall_forall. intros y _.
    split; [now rewrite !length_map, length_seq|].
    rewrite Forall_map, Forall_map. apply Forall_forall. intros x _.
    now destruct (getpixel im x y) as [[r g] b].
Qed.

Lemma asarray_entry (im : Image RGB) (x y : nat) :
  x < width im -> y < height im ->
  nth x (nth y (reverse_channels (asarray im)) []) [] = bgr_of (getpixel im x y).
Proof.
  intros Hx Hy. unfold reverse_channels, asarray.
  rewrite map_map, (nth_map_seq _ _ _ _ Hy).
  rewrite map_map, (nth_map_seq _ _ _ _ Hx).
  now destruct (getpixel im x y) as [[r g] b].
Qed.

Lemma half_le (n : nat) : n / 2 <= n.
Proof. apply Nat.Div0.div_le_upper_bound. lia. Qed.

Lemma paste_inside {P} (canvas im : Image P) (x0 y0 x y : nat) :
  x < width im -> y < height im ->
  getpixel (paste canvas im (x0, y0)) (x0 + x) (y0 + y) = getpixel im x y.
Proof.
  intros Hx Hy. cbn [paste getpixel].
  replace (x0 <=? x0 + x) with true by (symmetry; apply Nat.leb_le; lia).
  replace (x0 + x <? x0 + width im) with true
    by (symmetry; apply Nat.ltb_lt; lia).
  replace (y0 <=? y0 + y) with true by (symmetry; apply Nat.leb_le; lia).
  replace (y0 + y <? y0 + height im) with true
    by (symmetry; apply Nat.ltb_lt; lia).
  cbn [andb]. f_equal; lia.
Qed.

Lemma paste_outside {P} (canvas im : Image P) (x0 y0 x y : nat) :
  ~ (x0 <= x < x0 + width im /\ y0 <= y < y0 + height im) ->
  getpixel (paste canvas im (x0, y0)) x y = getpixel canvas x y.
Proof.
  intros Hout. cbn [paste getpixel].
  destruct ((x0 <=? x) && (x <? x0 + width im)
            && (y0 <=? y) && (y <? y0 + height im)) eqn:E; [|reflexivity].
  rewrite !andb_true_iff, !Nat.leb_le, !Nat.ltb_lt in E. lia.
Qed.

(** C6.  For an image of any size and an integer target size [S],
    [prepare_image] returns one array of shape [[1, S, S, 3]].  The image is
    flattened over white and pasted, whole, on a white square of side
    [max(width, height)] at the offsets [((max_dim - width) // 2,
    (max_dim - height) // 2)]; the square is resampled only when its side
    differs from [S]; the entry at row [y] and column [x] holds the channel
    values of that pixel of the final square, unscaled, in the order blue,
    green, red. *)
Theorem C6_prepare_image_shape_padding_channels :
  forall ext (image : Image RGBA) (w : World) (S : nat),
    model_target_size (self w) = Some S ->
    (forall im sz, size (pil_resize ext im sz) = sz) ->
    let max_dim := Nat.max (width image) (height image) in
    let pad_left := (max_dim - width image) / 2 in
    let pad_top := (max_dim - height image) / 2 in
    exists (flat padded final : Image RGB) (t : Tensor),
      prepare_image ext image w = (Ok t, w) /\
      has_shape4 t 1 S S 3 /\
      (forall x y, x < S -> y < S ->
                   entry t y x = bgr_of (getpixel final x y)) /\
      size flat = size image /\
      (forall x y, getpixel flat x y
                   = rgb_of (pil_blend ext opaque_white (getpixel image x y))) /\
      size padded = (max_dim, max_dim) /\
      pad_left + width image <= max_dim /\
      pad_top + height image <= max_dim /\
      (forall x y, x < width image -> y < height image ->
                   getpixel padded (pad_left + x) (pad_top + y)
                   = getpixel flat x y) /\
      (forall x y, ~ (pad_left <= x < pad_left + width image /\
                      pad_top <= y < pad_top + height image) ->
                   getpixel padded x y = white) /\
      size final = (S, S) /\
      (max_dim = S -> final = padded) /\
      (max_dim <> S -> final = pil_resize ext padded (S, S)).
Proof.
  intros ext image w S HS Hresize max_dim pad_left pad_top.
  set (flat := convert_RGB
                 (alpha_composite (pil_blend ext)
                    (Image_new (size image) opaque_white) image)).
  set (padded := paste (Image_new (max_dim, max_dim) white) flat
                       (pad_left, pad_top)).
  set (final := if negb (max_dim =? S)
                then pil_resize ext padded (S, S) else padded).
  assert (Hfinal : size final = (S, S)).
  { unfold final. destruct (max_dim =? S) eqn:E; cbn [negb].
    - apply Nat.eqb_eq in E. now rewrite <- E.
    - apply Hresize. }
  assert (Hw : width final = S) by (unfold width; now rewrite Hfinal).
  assert (Hh : height final = S) by (unfold height; now rewrite Hfinal).
  exists flat, padded, final, (expand_dims (reverse_channels (asarray final))).
  split; [|split; [|split]].
  - unfold prepare_image. rewrite HS. reflexivity.
  - split; [reflexivity|]. constructor; [|constructor].
    rewrite <- Hw at 2. rewrite <- Hh at 1. apply asarray_shape.
  - intros x y Hx Hy. unfold entry, expand_dims. cbn [nth].
    apply asarray_entry; lia.
  - split; [reflexivity|]. split.
    { intros x y. unfold flat. cbn [convert_RGB alpha_composite getpixel
                                     Image_new].
      reflexivity. }
    split; [reflexivity|].
    assert (Hl : pad_left + width image <= max_dim).
    { unfold pad_left. pose proof (half_le (max_dim - width image)).
      unfold max_dim in *. lia. }
    assert (Ht : pad_top + height image <= max_dim).
    { unfold pad_top. pose proof (half_le (max_dim - height image)).
      unfold max_dim in *. lia. }
    split; [exact Hl|]. split; [exact Ht|].
    split; [intros x y Hx Hy; now apply paste_inside|].
    split; [intros x y Hout; unfold padded; now rewrite paste_outside|].
    split; [exact Hfinal|].
    unfold final. split; intros E.
    + apply Nat.eqb_eq in E. now rewrite E.
    + apply Nat.eqb_neq in E. now rewrite E.
Qed.

Lemma C6_witness :
  let w := {| self := set_model_target_size (Some 3) Predictor_init;
              trace := [] |} in
  exists t : Tensor,
    prepare_image Demo.hub Demo.strip w = (Ok t, w) /\
    has_shape4 t 1 3 3 3 /\
    entry t 0 1 = [7; 0; 10]%Z /\
    entry t 2 1 = [255; 255; 255]%Z.
Proof.
  intros w.
  destruct (C6_prepare_image_shape_padding_channels
              Demo.hub Demo.strip w 3 eq_refl (fun _ _ => eq_refl))
    as (flat & padded & final & t & Hp & Hs & _).
  exists t. split; [exact Hp|]. split; [exact Hs|].
  injection Hp as <-. split; reflexivity.
Defined.

(** * Further properties of the code *)

(** ** [load_labels] *)

Lemma np_where_from_In (code : Z) (column : list Z) (k i : nat) :
  In i (np_where_from k code column) <->
  k <= i /\ nth_error column (i - k) = Some code.
Proof.
  revert k. induction column as [|c column IH]; intros k; cbn [np_where_from].
  - split; [contradiction|]. intros [_ H]. now destruct (i - k).
  - assert (Hstep : In i (np_where_from (S k) code column) <->
                    k < i /\ nth_error (c :: column) (i - k) = Some code).
    { rewrite IH. split; intros [Hk Hn]; (split; [lia|]).
      - replace (i - k) with (S (i - S k)) by lia. exact Hn.
      - replace (i - k) with (S (i - S k)) in Hn by lia. exact Hn. }
    destruct (Z.eqb c code) eqn:E.
    + apply Z.eqb_eq in E. subst c. cbn [In]. rewrite Hstep. split.
      * intros [<-|[Hk Hn]]; [|split; [lia|exact Hn]].
        rewrite Nat.sub_diag. auto.
      * intros [Hk Hn]. destruct (Nat.eq_dec k i) as [|Hne]; [now left|].
        right. split; [lia|exact Hn].
    + rewrite Hstep. split; intros [Hk Hn]; split; trivial; [lia|].
      destruct (Nat.eq_dec k i) as [->|Hne]; [|lia].
      rewrite Nat.sub_diag in Hn. cbn in Hn. injection Hn as ->.
      rewrite Z.eqb_refl in E. discriminate.
Qed.

Lemma np_where_In (code : Z) (column : list Z) (i : nat) :
  In i (np_where code column) <-> nth_error column i = Some code.
Proof.
  unfold np_where. rewrite np_where_from_In, Nat.sub_0_r.
  split; [tauto|]. intros H. split; [lia|exact H].
Qed.

Lemma np_where_from_ascending (code : Z) (column : list Z) (k : nat) :
  StronglySorted lt (np_where_from k code column).
Proof.
  revert k. induction column as [|c column IH]; intros k; cbn [np_where_from];
    [constructor|].
  destruct (Z.eqb c code); [|apply IH].
  constructor; [apply IH|].
  apply Forall_forall. intros i Hi. apply np_where_from_In in Hi. lia.
Qed.

(** X1.  The catalog built from a label table: one tag name per row; row
    [i] is in the rating, general or character group exactly when its code
    is 9, 0 or 4; each group lists its rows in ascending order, below the
    number of rows; no row is in two groups. *)
Theorem X1_load_labels_groups_partition_rows :
  forall df names ri gi ci,
    load_labels df = Ok (names, ri, gi, ci) ->
    exists raw codes,
      df_name df = Some raw /\ df_category df = Some codes /\
      List.length names = List.length raw /\
      (forall i, In i ri <-> nth_error codes i = Some 9%Z) /\
      (forall i, In i gi <-> nth_error codes i = Some 0%Z) /\
      (forall i, In i ci <-> nth_error codes i = Some 4%Z) /\
      StronglySorted lt ri /\ StronglySorted lt gi /\ StronglySorted lt ci /\
      Forall (fun i => i < List.length codes) (ri ++ gi ++ ci) /\
      (forall i, ~ (In i ri /\ In i gi) /\ ~ (In i ri /\ In i ci) /\
                 ~ (In i gi /\ In i ci)).
Proof.
  intros * H. apply load_labels_Ok_inv in H.
  destruct H as (raw & codes & Hn & Hc & -> & -> & -> & ->).
  exists raw, codes.
  split; [exact Hn|]. split; [exact Hc|]. split; [apply length_map|].
  split; [intros; apply np_where_In|].
  split; [intros; apply np_where_In|].
  split; [intros; apply np_where_In|].
  split; [apply np_where_from_ascending|].
  split; [apply np_where_from_ascending|].
  split; [apply np_where_from_ascending|].
  split.
  - rewrite !Forall_app. repeat split; apply Forall_forall; intros i Hi;
      apply np_where_In in Hi; apply nth_error_Some; congruence.
  - intros i. rewrite !np_where_In. repeat split; intros [H1 H2]; congruence.
Qed.

Lemma X1_witness :
  exists raw codes,
    df_name (Demo.table ["a_b"; "^_^"; "c"]%string [4; 0; 9]%Z) = Some raw /\
    df_category (Demo.table ["a_b"; "^_^"; "c"]%string [4; 0; 9]%Z)
    = Some codes /\
    List.length ["a b"; "^_^"; "c"]%string = List.length raw /\
    (forall i, In i [2] <-> nth_error codes i = Some 9%Z) /\
    (forall i, In i [1] <-> nth_error codes i = Some 0%Z) /\
    (forall i, In i [0] <-> nth_error codes i = Some 4%Z) /\
    StronglySorted lt [2] /\ StronglySorted lt [1] /\ StronglySorted lt [0] /\
    Forall (fun i => i < List.length codes) ([2] ++ [1] ++ [0]) /\
    (forall i, ~ (In i [2] /\ In i [1]) /\ ~ (In i [2] /\ In i [0]) /\
               ~ (In i [1] /\ In i [0])).
Proof.
  apply (X1_load_labels_groups_partition_rows
           (Demo.table ["a_b"; "^_^"; "c"]%string [4; 0; 9]%Z)).
  reflexivity.
Defined.

Lemma comprehension_normalize_cell (cells : list cell) :
  (In NotStr cells /\
   comprehension normalize_cell cells = Raise AttributeError) \/
  (~ In NotStr cells /\
   exists names, comprehension normalize_cell cells = Ok names /\
                 List.length names = List.length cells).
Proof.
  induction cells as [|[s|] cells IH]; cbn [comprehension normalize_cell].
  - right. split; [intros []|]. now exists [].
  - destruct IH as [[Hin ->]|[Hout (names & -> & Hlen)]].
    + left. split; [now right|reflexivity].
    + right. split.
      * intros [H|H]; [discriminate|contradiction].
      * exists (normalize_name s :: names). split; [reflexivity|].
        cbn [List.length]. now rewrite Hlen.
  - left. split; [now left|reflexivity].
Qed.

Lemma comprehension_normalize_Str (names : list string) :
  comprehension normalize_cell (map Str names) = Ok (map normalize_name names).
Proof.
  induction names as [|s names IH]; [reflexivity|].
  cbn [map comprehension normalize_cell]. now rewrite IH.
Qed.

(** X2.  [load_labels] on a table as it is read: it raises [KeyError] when
    the [name] column is missing; [AttributeError] when the column is there
    and one of its cells is not a string, whether or not there is a
    [category] column; [KeyError] when all names are strings and the
    [category] column is missing; in no other case.  On a table whose names
    are all strings it is [load_labels] as embedded with string names. *)
Theorem X2_load_labels_raises_on_missing_column_or_non_string_name :
  (forall t e,
     load_labels_cells t = Raise e <->
     (csv_name t = None /\ e = KeyError) \/
     (exists cells, csv_name t = Some cells /\ In NotStr cells /\
                    e = AttributeError) \/
     (exists cells, csv_name t = Some cells /\ ~ In NotStr cells /\
                    csv_category t = None /\ e = KeyError)) /\
  (forall t names ri gi ci,
     load_labels_cells t = Ok (names, ri, gi, ci) ->
     exists cells codes,
       csv_name t = Some cells /\ csv_category t = Some codes /\
       ~ In NotStr cells /\ List.length names = List.length cells) /\
  (forall df, load_labels_cells (cells_of df) = load_labels df) /\
  load_labels_cells {| csv_name := Some [Str "long_hair"; NotStr];
                       csv_category := Some [0; 4]%Z |}
  = Raise AttributeError /\
  load_labels_cells {| csv_name := Some [NotStr]; csv_category := None |}
  = Raise AttributeError.
Proof.
  split; [|split; [|split; [|split; reflexivity]]].
  - intros t e. unfold load_labels_cells.
    destruct (csv_name t) as [cells|].
    + destruct (comprehension_normalize_cell cells)
        as [[Hin ->]|[Hout (names & -> & _)]].
      * split.
        -- intros H. injection H as <-. right. left. now exists cells.
        -- intros [[H _]|[(c & H & _ & ->)|(c & H & Hn & _)]];
             [discriminate|reflexivity|].
           injection H as <-. contradiction.
      * destruct (csv_category t) as [codes|].
        -- split; [discriminate|].
           intros [[H _]|[(c & H & Hn & _)|(c & _ & _ & H & _)]];
             [discriminate| |discriminate].
           injection H as <-. contradiction.
        -- split.
           ++ intros H. injection H as <-. right. right. now exists cells.
           ++ intros [[H _]|[(c & H & Hn & _)|(c & _ & _ & _ & ->)]];
                [discriminate| |reflexivity].
              injection H as <-. contradiction.
    + split.
      * intros H. injection H as <-. now left.
      * intros [[_ ->]|[(c & H & _)|(c & H & _)]];
          [reflexivity|discriminate|discriminate].
  - intros t names ri gi ci. unfold load_labels_cells.
    destruct (csv_name t) as [cells|]; [|discriminate].
    destruct (comprehension_normalize_cell cells)
      as [[Hin ->]|[Hout (names' & -> & Hlen)]]; [discriminate|].
    destruct (csv_category t) as [codes|]; [|discriminate].
    intros H. injection H as <- _ _ _.
    exists cells, codes. auto.
  - intros df. unfold load_labels_cells, cells_of, load_labels.
    cbn [csv_name csv_category].
    destruct (df_name df) as [names|]; [|reflexivity].
    cbn [option_map]. now rewrite comprehension_normalize_Str.
Qed.

(** ** [normalize_name] *)

Lemma str_replace_length (old c : ascii) (s : string) :
  String.length (str_replace old (String c EmptyString) s) = String.length s.
Proof.
  induction s as [|x s IH]; [reflexivity|].
  cbn [str_replace]. destruct (Ascii.eqb x old); cbn; now rewrite IH.
Qed.

Lemma str_replace_removes (old c : ascii) (s : string) :
  c <> old ->
  contains_char old (str_replace old (String c EmptyString) s) = false.
Proof.
  intros Hne. induction s as [|x s IH]; [reflexivity|].
  cbn [str_replace]. destruct (Ascii.eqb x old) eqn:E; cbn; rewrite IH.
  - destruct (Ascii.eqb c old) eqn:E'; [|reflexivity].
    apply Ascii.eqb_eq in E'. contradiction.
  - now rewrite E.
Qed.

Lemma str_replace_absent (old : ascii) (new s : string) :
  contains_char old s = false -> str_replace old new s = s.
Proof.
  induction s as [|x s IH]; [reflexivity|].
  cbn. destruct (Ascii.eqb x old); [discriminate|].
  cbn. intros H. now rewrite IH.
Qed.

Lemma str_in_In (x : string) (l : list string) :
  str_in x l = true <-> In x l.
Proof.
  unfold str_in. rewrite existsb_exists. split.
  - intros (y & Hy & E). apply String.eqb_eq in E. now subst.
  - intros H. exists x. split; [exact H|apply String.eqb_refl].
Qed.

Lemma kaomojis_have_underscore (x : string) :
  In x kaomojis -> contains_char "_" x = true.
Proof.
  assert (H : forallb (contains_char "_") kaomojis = true) by reflexivity.
  rewrite forallb_forall in H. apply H.
Qed.

(** X3.  Name normalisation keeps the nineteen emoticons as they are and
    removes every underscore from any other name, without changing its
    length; normalising twice is normalising once. *)
Theorem X3_normalize_name_kaomoji_or_no_underscore :
  forall x,
    (In x kaomojis -> normalize_name x = x) /\
    (~ In x kaomojis -> contains_char "_" (normalize_name x) = false) /\
    String.length (normalize_name x) = String.length x /\
    normalize_name (normalize_name x) = normalize_name x.
Proof.
  intros x.
  assert (Hcases :
    (In x kaomojis /\ normalize_name x = x) \/
    (~ In x kaomojis /\ normalize_name x = str_replace "_" " " x)).
  { unfold normalize_name. destruct (str_in x kaomojis) eqn:E; cbn [negb].
    - left. split; [now apply str_in_In|reflexivity].
    - right. split; [|reflexivity].
      intros H. apply str_in_In in H. congruence. }
  destruct Hcases as [[Hin ->]|[Hout Hx]].
  - split; [reflexivity|]. split; [tauto|]. split; [reflexivity|].
    unfold normalize_name. apply str_in_In in Hin. now rewrite Hin.
  - assert (Hclean : contains_char "_" (str_replace "_" " " x) = false)
      by (apply str_replace_removes; discriminate).
    rewrite Hx. split; [tauto|]. split; [intros _; exact Hclean|].
    split; [apply str_replace_length|].
    unfold normalize_name.
    destruct (str_in (str_replace "_" " " x) kaomojis) eqn:E'; cbn [negb].
    + apply str_in_In, kaomojis_have_underscore in E'. congruence.
    + now apply str_replace_absent.
Qed.

Lemma X3_witness :
  normalize_name "^_^" = "^_^"%string /\
  contains_char "_" (normalize_name "long_hair") = false.
Proof.
  split.
  - apply (proj1 (X3_normalize_name_kaomoji_or_no_underscore "^_^")).
    unfold kaomojis. cbn [In]. do 13 right. left. reflexivity.
  - apply (proj1 (proj2 (X3_normalize_name_kaomoji_or_no_underscore
                           "long_hair"))).
    unfold kaomojis. cbn [In]. intuition discriminate.
Defined.

(** ** [mcut_threshold] *)

Lemma midpoint_between (hi lo : Q) :
  (lo <= hi -> lo <= (hi + lo) / 2 /\ (hi + lo) / 2 <= hi)%Q.
Proof.
  intros H. split.
  - apply Qle_shift_div_l; lra.
  - apply Qle_shift_div_r; lra.
Qed.

Lemma descending_nth (s : list Q) :
  StronglySorted (fun a b => (b <= a)%Q) s ->
  forall i j, i <= j -> j < List.length s -> (nth j s 0 <= nth i s 0)%Q.
Proof.
  induction 1 as [|a s Hs IH Ha]; intros i j Hij Hj; simpl in Hj; [lia|].
  destruct i as [|i], j as [|j]; cbn [nth]; try lia.
  - apply Qle_refl.
  - rewrite Forall_forall in Ha. apply Ha, nth_In. lia.
  - apply IH; lia.
Qed.

(** X4.  The threshold does not depend on the order of the confidences:
    two vectors that are rearrangements of one another get equal
    thresholds. *)
Theorem X4_mcut_threshold_ignores_order :
  forall probs probs' : list Q,
    Permutation probs probs' ->
    2 <= List.length probs ->
    exists t t',
      mcut_threshold probs = Ok t /\ mcut_threshold probs' = Ok t' /\
      (t == t')%Q.
Proof.
  intros probs probs' Hp Hlen.
  destruct (mcut_threshold_meets_spec probs Hlen) as (s & k & t & Ht & Hspec).
  destruct (mcut_threshold_meets_spec probs') as (s' & k' & t' & Ht' & Hspec').
  { now rewrite <- (Permutation_length Hp). }
  exists t, t'. split; [exact Ht|]. split; [exact Ht'|].
  apply (MCut_spec_unique probs s s' k k'); [exact Hspec|].
  destruct Hspec' as (Hp' & Hrest). split; [|exact Hrest].
  rewrite Hp'. now symmetry.
Qed.

Lemma X4_witness :
  exists t t',
    mcut_threshold [0.1; 0.9; 0.5]%Q = Ok t /\
    mcut_threshold [0.9; 0.5; 0.1]%Q = Ok t' /\ (t == t')%Q.
Proof.
  apply X4_mcut_threshold_ignores_order.
  - apply Permutation_cons_append with (l := [0.9; 0.5]%Q) (x := 0.1%Q).
  - simpl. lia.
Defined.

Lemma mcut_threshold_between (probs : list Q) (t : Q) :
  mcut_threshold probs = Ok t ->
  exists lo hi, In lo probs /\ In hi probs /\ (lo <= t)%Q /\ (t <= hi)%Q.
Proof.
  intros Ht.
  assert (Hlen : 2 <= List.length probs)
    by (apply mcut_threshold_total; now rewrite Ht).
  destruct (mcut_threshold_meets_spec probs Hlen) as (s & k & t0 & Ht0 & Hspec).
  assert (t0 = t) by congruence. subst t0.
  destruct Hspec as (Hp & Hs & Hk & _ & _ & Heq).
  assert (Hdesc : (nth (S k) s 0 <= nth k s 0)%Q)
    by (apply descending_nth; trivial; lia).
  exists (nth (S k) s 0%Q), (nth k s 0%Q).
  split; [apply (Permutation_in _ Hp), nth_In; lia|].
  split; [apply (Permutation_in _ Hp), nth_In; lia|].
  subst t. now apply midpoint_between.
Qed.

Lemma filter_length_lt {A} (f : A -> bool) (l : list A) (x : A) :
  In x l -> f x = false -> List.length (filter f l) < List.length l.
Proof.
  induction l as [|y l IH]; intros Hin Hx; [contradiction|].
  cbn [filter List.length].
  pose proof (filter_length_le f l) as Hle.
  destruct Hin as [->|Hin].
  - rewrite Hx. lia.
  - specialize (IH Hin Hx). destruct (f y); cbn [List.length]; lia.
Qed.

Lemma mcut_threshold_binary64_between (probs : list Q) (t : Q) :
  (forall x, In x probs -> binary64 x) ->
  mcut_threshold_with round64 probs = Ok t ->
  exists lower upper,
    In lower probs /\ In upper probs /\ (lower <= t)%Q /\ (t <= upper)%Q.
Proof.
  intros Hb Ht.
  assert (Hlen : 2 <= List.length probs).
  { destruct (le_lt_dec 2 (List.length probs)) as [|Hlt]; trivial.
    rewrite (mcut_threshold_with_short round64 probs Hlt) in Ht. discriminate. }
  destruct (mcut_threshold_with_meets_spec round64 probs Hlen)
    as (s & k & t0 & Ht0 & Hspec).
  assert (t0 = t) by congruence. subst t0.
  destruct Hspec as (Hp & Hs & Hk & _ & _ & Heq).
  set (hi := nth k s 0%Q) in *. set (lo := nth (S k) s 0%Q) in *.
  assert (Hdesc : (lo <= hi)%Q) by (apply descending_nth; trivial; lia).
  assert (Hlo : In lo probs) by (apply (Permutation_in _ Hp), nth_In; lia).
  assert (Hhi : In hi probs) by (apply (Permutation_in _ Hp), nth_In; lia).
  exists lo, hi. split; [exact Hlo|]. split; [exact Hhi|].
  pose proof (Hb lo Hlo) as Blo. pose proof (Hb hi Hhi) as Bhi.
  pose proof (binary64_double lo Blo) as Dlo.
  pose proof (binary64_double hi Bhi) as Dhi.
  unfold binary64 in *.
  assert (H1 : (lo + lo <= round64 (hi + lo))%Q)
    by (rewrite <- Dlo; apply round64_mono; lra).
  assert (H2 : (round64 (hi + lo) <= hi + hi)%Q)
    by (rewrite <- Dhi; apply round64_mono; lra).
  subst t. split.
  - rewrite <- Blo at 1. apply round64_mono.
    apply Qle_shift_div_l; lra.
  - rewrite <- Bhi at 2. apply round64_mono.
    apply Qle_shift_div_r; lra.
Qed.

(** X5.  In binary64, on a vector of binary64 numbers of magnitude at most
    2^1022, a threshold returned by [mcut_threshold] is such a number and
    lies between two of the confidences, so at least one confidence is not
    strictly above it: MCut never accepts every label of a group.  It can accept none although the
    confidences differ: the midpoint of the adjacent numbers
    0.7500000000000002 and 0.7500000000000001 rounds to the larger one. *)
Theorem X5_mcut_threshold_lies_between_confidences :
  (forall (probs : list Q) (t : Q),
     (forall x, In x probs -> in_range x) ->
     mcut_threshold_with round64 probs = Ok t ->
     in_range t /\
     (exists lower upper,
        In lower probs /\ In upper probs /\ (lower <= t)%Q /\ (t <= upper)%Q) /\
     List.length (filter (fun x => Qgtb x t) probs) < List.length probs) /\
  (let upper := (3377699720527873 # 4503599627370496)%Q in
   let lower := (6755399441055745 # 9007199254740992)%Q in
   binary64 upper /\ binary64 lower /\ (lower < upper)%Q /\
   exists t,
     mcut_threshold_with round64 [upper; lower] = Ok t /\ (t == upper)%Q /\
     filter (fun x => Qgtb x t) [upper; lower] = []).
Proof.
  split.
  - intros probs t Hr Ht.
    destruct (mcut_threshold_binary64_between probs t
                (fun x Hx => proj1 (Hr x Hx)) Ht)
      as (lo & hi & Hlo & Hhi & H1 & H2).
    split; [|split].
    + assert (Hlen : 2 <= List.length probs).
      { destruct (le_lt_dec 2 (List.length probs)) as [|Hlt]; trivial.
        rewrite (mcut_threshold_with_short round64 probs Hlt) in Ht.
        discriminate. }
      destruct (mcut_threshold_with_meets_spec round64 probs Hlen)
        as (s & k & t0 & Ht0 & Hspec).
      assert (t0 = t) by congruence. subst t0.
      apply (mcut_threshold_no_overflow probs s k t Hr Hspec).
    + now exists lo, hi.
    + apply (filter_length_lt _ _ lo Hlo). now apply Qgtb_le.
  - cbv zeta. split; [|split; [|split]]; try (vm_compute; reflexivity).
    exists (round64 (round64 ((3377699720527873 # 4503599627370496)
                              + (6755399441055745 # 9007199254740992)) / 2)).
    repeat split; vm_compute; reflexivity.
Qed.

Lemma X5_witness :
  List.length
    (filter (fun x =>
               Qgtb x (round64 (round64 (round64 0.5 + round64 0.1) / 2)))
            (map round64 [0.9; 0.6; 0.5; 0.1]%Q))
  < List.length (map round64 [0.9; 0.6; 0.5; 0.1]%Q).
Proof.
  refine (proj2 (proj2 (proj1 X5_mcut_threshold_lies_between_confidences
            (map round64 [0.9; 0.6; 0.5; 0.1]%Q)
            (round64 (round64 (round64 0.5 + round64 0.1) / 2)) _ _))).
  - intros x Hx. cbn [map In] in Hx.
    repeat (destruct Hx as [<-|Hx];
            [split; [vm_compute; reflexivity|vm_compute; discriminate]|]).
    contradiction.
  - vm_compute. reflexivity.
Defined.

(** X6.  When all the confidences of a group are equal, the MCut threshold
    equals them and nothing is strictly above it: MCut accepts no label of
    such a group. *)
Theorem X6_mcut_on_constant_vector_accepts_nothing :
  forall (probs : list Q) (t : Q),
    mcut_threshold probs = Ok t ->
    (forall a b, In a probs -> In b probs -> (a == b)%Q) ->
    (forall x, In x probs -> (x == t)%Q) /\
    filter (fun x => Qgtb x t) probs = [].
Proof.
  intros probs t Ht Hconst.
  destruct (mcut_threshold_between probs t Ht)
    as (lo & hi & Hlo & Hhi & H1 & H2).
  assert (Hall : forall x, In x probs -> (x == t)%Q).
  { intros x Hx. apply Qle_antisym.
    - rewrite (Hconst x lo Hx Hlo). exact H1.
    - rewrite (Hconst x hi Hx Hhi). exact H2. }
  split; [exact Hall|].
  clear -Hall. induction probs as [|x probs IH]; [reflexivity|].
  cbn [filter].
  replace (Qgtb x t) with false.
  - apply IH. intros y Hy. apply Hall. now right.
  - symmetry. apply Qgtb_le. rewrite (Hall x) by now left. apply Qle_refl.
Qed.

Lemma X6_witness :
  (forall x, In x [0.5; 0.5; 0.5]%Q -> (x == 100 # 200)%Q) /\
  filter (fun x => Qgtb x (100 # 200)) [0.5; 0.5; 0.5]%Q = [].
Proof.
  apply X6_mcut_on_constant_vector_accepts_nothing; [reflexivity|].
  cbn [In]. intros a b Ha Hb.
  assert (Ea : a = 0.5%Q) by intuition congruence.
  assert (Eb : b = 0.5%Q) by intuition congruence.
  subst. reflexivity.
Defined.

(** ** [predict] *)

Lemma reaches_labels_unique ext image model_repo w
      w1 names preds0 ri gi ci w1' names' preds0' ri' gi' ci' :
  reaches_labels ext image model_repo w w1 names preds0 ri gi ci ->
  reaches_labels ext image model_repo w w1' names' preds0' ri' gi' ci' ->
  w1 = w1' /\ names = names' /\ preds0 = preds0' /\
  ri = ri' /\ gi = gi' /\ ci = ci'.
Proof.
  intros (Hl & Hn & Hr & Hg & Hc & session & img & preds & Hm & Hp & Hrun & H0)
         (Hl' & Hn' & Hr' & Hg' & Hc' & session' & img' & preds' & Hm' & Hp'
          & Hrun' & H0').
  assert (w1 = w1') by congruence. subst w1'.
  assert (session = session') by congruence. subst session'.
  assert (img = img') by congruence. subst img'.
  assert (preds = preds') by congruence. subst preds'.
  repeat split; congruence.
Qed.

Lemma load_model_Ok_cached ext model_repo w w1 :
  load_model ext model_repo w = (Ok tt, w1) ->
  last_loaded_repo (self w1) = Some model_repo.
Proof.
  intros H.
  destruct (cached_dec (last_loaded_repo (self w)) model_repo) as [Hhit|Hmiss].
  - rewrite (load_model_hit _ _ _ Hhit) in H. now injection H as <-.
  - pose proof (load_model_miss ext model_repo w Hmiss) as Hcases.
    destruct (fetch_and_parse ext model_repo)
      as [[[csv mp] [[[names ri] gi] ci]]|e0].
    + cbv zeta in Hcases.
      destruct (build_session ext mp) as [[session target]|e1];
        rewrite Hcases in H; [|discriminate].
      now injection H as <-.
    + destruct Hcases as [evs Hcases]. rewrite Hcases in H. discriminate.
Qed.

Lemma prepare_image_self ext image w w2 :
  self w = self w2 ->
  fst (prepare_image ext image w) = fst (prepare_image ext image w2).
Proof.
  intros H. unfold prepare_image. rewrite H.
  now destruct (model_target_size (self w2)).
Qed.

(** X7.  The rating map is not thresholded: whatever the thresholds and
    the MCut switches, a [predict] that returns gives the same rating map,
    and every row of the rating group has its name among the keys. *)
Theorem X7_rating_map_ignores_thresholds :
  forall ext image model_repo w
         gt gm ct cm s rating cres gres w'
         gt2 gm2 ct2 cm2 s2 rating2 cres2 gres2 w2,
    predict ext image model_repo gt gm ct cm w
    = (Ok (s, rating, cres, gres), w') ->
    predict ext image model_repo gt2 gm2 ct2 cm2 w
    = (Ok (s2, rating2, cres2, gres2), w2) ->
    rating = rating2 /\
    exists w1 names preds0 ri gi ci,
      reaches_labels ext image model_repo w w1 names preds0 ri gi ci /\
      forall i, In i ri ->
        In (fst (label_at (combine names preds0) i)) (keys rating).
Proof.
  intros * H1 H2.
  apply predict_inv_groups in H1, H2.
  destruct H1 as (w1 & names & preds0 & ri & gi & ci & t & t' & Hr & H1).
  destruct H2 as (w1' & names' & preds0' & ri' & gi' & ci' & u & u' & Hr' & H2).
  cbv zeta in H1, H2.
  destruct H1 as (_ & _ & _ & _ & -> & _), H2 as (_ & _ & _ & _ & -> & _).
  destruct (reaches_labels_unique _ _ _ _ _ _ _ _ _ _ _ _ _ _ _ _ Hr Hr')
    as (_ & <- & <- & <- & _).
  split; [reflexivity|].
  exists w1, names, preds0, ri, gi, ci. split; [exact Hr|].
  intros i Hi. apply keys_group. now exists i.
Qed.

Lemma X7_witness :
  [("general"%string, 0.7%Q); ("sensitive"%string, 0.3%Q)]
  = [("general"%string, 0.7%Q); ("sensitive"%string, 0.3%Q)] /\
  exists w1 names preds0 ri gi ci,
    reaches_labels Demo.hub Demo.dot "demo" Demo.fresh w1 names preds0 ri gi ci /\
    forall i, In i ri ->
      In (fst (label_at (combine names preds0) i))
         (keys [("general"%string, 0.7%Q); ("sensitive"%string, 0.3%Q)]).
Proof.
  apply (X7_rating_map_ignores_thresholds
           Demo.hub Demo.dot "demo"%string Demo.fresh
           0.35%Q true 0.85%Q true "long hair"%string
           [("general"%string, 0.7%Q); ("sensitive"%string, 0.3%Q)] []
           [("long hair"%string, 0.1%Q)]
           (snd (predict Demo.hub Demo.dot "demo" 0.35 true 0.85 true
                   Demo.fresh))
           0.05%Q false 0.05%Q false "long hair"%string
           [("general"%string, 0.7%Q); ("sensitive"%string, 0.3%Q)]
           [("hatsune miku"%string, 0.1%Q)] [("long hair"%string, 0.1%Q)]
           (snd (predict Demo.hub Demo.dot "demo" 0.05 false 0.05 false
                   Demo.fresh)));
    reflexivity.
Defined.

(** X8.  Raising a fixed threshold can only remove tags: with MCut off,
    the general (character) map returned for a higher general (character)
    threshold has its keys among those returned for the lower one. *)
Theorem X8_higher_fixed_threshold_accepts_fewer :
  forall ext image model_repo w
         gt ct s rating cres gres w'
         gt2 ct2 s2 rating2 cres2 gres2 w2,
    predict ext image model_repo gt false ct false w
    = (Ok (s, rating, cres, gres), w') ->
    predict ext image model_repo gt2 false ct2 false w
    = (Ok (s2, rating2, cres2, gres2), w2) ->
    ((gt <= gt2)%Q -> incl (keys gres2) (keys gres) /\
                      List.length gres2 <= List.length gres) /\
    ((ct <= ct2)%Q -> incl (keys cres2) (keys cres) /\
                      List.length cres2 <= List.length cres).
Proof.
  intros * H1 H2.
  apply predict_inv_groups in H1, H2.
  destruct H1 as (w1 & names & preds0 & ri & gi & ci & t & t' & Hr & H1).
  destruct H2 as (w1' & names' & preds0' & ri' & gi' & ci' & u & u' & Hr' & H2).
  cbv zeta in H1, H2.
  destruct H1 as (_ & -> & -> & _ & _ & -> & ->).
  destruct H2 as (_ & -> & -> & _ & _ & -> & ->).
  destruct (reaches_labels_unique _ _ _ _ _ _ _ _ _ _ _ _ _ _ _ _ Hr Hr')
    as (_ & <- & <- & _ & <- & <-).
  assert (Hmono : forall idx a b, (a <= b)%Q ->
    incl (keys (py_dict (group (combine names preds0)
                           (accepted (combine names preds0) idx b))))
         (keys (py_dict (group (combine names preds0)
                           (accepted (combine names preds0) idx a)))) /\
    List.length (py_dict (group (combine names preds0)
                            (accepted (combine names preds0) idx b)))
    <= List.length (py_dict (group (combine names preds0)
                               (accepted (combine names preds0) idx a)))).
  { intros idx a b Hab.
    assert (Hincl : incl
      (keys (py_dict (group (combine names preds0)
                        (accepted (combine names preds0) idx b))))
      (keys (py_dict (group (combine names preds0)
                        (accepted (combine names preds0) idx a))))).
    { intros name Hin. apply keys_accepted in Hin. apply keys_accepted.
      destruct Hin as (i & Hi & Hn & Hlt). exists i.
      split; [exact Hi|]. split; [exact Hn|].
      exact (Qle_lt_trans _ _ _ Hab Hlt). }
    split; [exact Hincl|].
    unfold keys in Hincl.
    rewrite <- (length_map fst (py_dict (group _ (accepted _ idx b)))).
    rewrite <- (length_map fst (py_dict (group _ (accepted _ idx a)))).
    apply NoDup_incl_length; [apply py_dict_NoDup|exact Hincl]. }
  split; intros Hle; now apply Hmono.
Qed.

Lemma X8_witness :
  incl (keys (@nil (string * Q))) (keys [("long hair"%string, 0.1%Q)]) /\
  List.length (@nil (string * Q)) <= List.length [("long hair"%string, 0.1%Q)].
Proof.
  apply (proj1 (X8_higher_fixed_threshold_accepts_fewer
           Demo.hub Demo.dot "demo"%string Demo.fresh
           0.05%Q 0.05%Q "long hair"%string
           [("general"%string, 0.7%Q); ("sensitive"%string, 0.3%Q)]
           [("hatsune miku"%string, 0.1%Q)] [("long hair"%string, 0.1%Q)]
           (snd (predict Demo.hub Demo.dot "demo" 0.05 false 0.05 false
                   Demo.fresh))
           0.35%Q 0.85%Q EmptyString
           [("general"%string, 0.7%Q); ("sensitive"%string, 0.3%Q)] [] []
           (snd (predict Demo.hub Demo.dot "demo" 0.35 false 0.85 false
                   Demo.fresh))
           eq_refl eq_refl)).
  discriminate.
Defined.

Lemma accepted_none labels idx t :
  (forall i, In i idx -> (prob labels i <= t)%Q) -> accepted labels idx t = [].
Proof.
  intros H. unfold accepted. induction idx as [|i idx IH]; [reflexivity|].
  cbn [filter]. replace (Qgtb (prob labels i) t) with false.
  - apply IH. intros j Hj. apply H. now right.
  - symmetry. apply Qgtb_le, H. now left.
Qed.

(** X9.  A group in which no confidence exceeds its fixed threshold is no
    error: [predict] returns, with an empty map for that group and, for the
    general group, the empty string. *)
Theorem X9_nothing_accepted_is_not_an_error :
  forall ext image model_repo gt ct w w1 names preds0 ri gi ci,
    reaches_labels ext image model_repo w w1 names preds0 ri gi ci ->
    let labels := combine names preds0 in
    Forall (fun i => i < List.length labels) (ri ++ gi ++ ci) ->
    exists s rating cres gres,
      fst (predict ext image model_repo gt false ct false w)
      = Ok (s, rating, cres, gres) /\
      ((forall i, In i gi -> (prob labels i <= gt)%Q) ->
       gres = [] /\ s = EmptyString) /\
      ((forall i, In i ci -> (prob labels i <= ct)%Q) -> cres = []).
Proof.
  intros * Hr labels Hall.
  rewrite (predict_unfold _ _ _ _ _ _ _ _ _ _ gt false ct false Hr).
  fold labels. rewrite (predict_from_labels_eq _ _ _ _ _ _ _ _ Hall).
  cbn [Pure.bind fst]. do 4 eexists. split; [reflexivity|].
  split; intros H; rewrite (accepted_none _ _ _ H); auto.
Qed.

Lemma X9_witness :
  exists s rating cres gres,
    fst (predict Demo.hub Demo.dot "demo" 0.9 false 0.9 false Demo.fresh)
    = Ok (s, rating, cres, gres) /\
    gres = [] /\ s = EmptyString /\ cres = [].
Proof.
  destruct (X9_nothing_accepted_is_not_an_error
              Demo.hub Demo.dot "demo"%string 0.9%Q 0.9%Q Demo.fresh
              (snd (load_model Demo.hub "demo" Demo.fresh))
              ["general"; "sensitive"; "long hair"; "smile";
               "hatsune miku"; "kagamine rin"]%string
              [0.7; 0.3; 0.1; 0; 0.1; 0]%Q [0; 1] [2; 3] [4; 5])
    as (s & rating & cres & gres & Hp & Hg & Hc).
  - repeat split.
    exists (Demo.classifier [0.7; 0.3; 0.1; 0; 0.1; 0]%Q).
    eexists. exists [[0.7; 0.3; 0.1; 0; 0.1; 0]%Q].
    repeat split; reflexivity.
  - repeat constructor.
  - exists s, rating, cres, gres. split; [exact Hp|].
    assert (Hlow : forall idx, incl idx [2; 3; 4; 5] ->
      forall i, In i idx ->
        (prob (combine ["general"; "sensitive"; "long hair"; "smile";
                        "hatsune miku"; "kagamine rin"]%string
                       [0.7; 0.3; 0.1; 0; 0.1; 0]%Q) i <= 0.9)%Q).
    { intros idx Hincl i Hi. apply Hincl in Hi. cbn [In] in Hi.
      destruct Hi as [<-|[<-|[<-|[<-|[]]]]]; vm_compute; discriminate. }
    destruct Hg as [-> ->].
    { apply Hlow. intros i Hi. cbn [In] in *. tauto. }
    rewrite Hc; [auto|].
    apply Hlow. intros i Hi. cbn [In] in *. tauto.
Defined.

(** X13.  With MCut enabled for the character group, every confidence in
    the returned character map is strictly above 0.15. *)
Theorem X13_mcut_characters_are_above_floor :
  forall ext image model_repo gt gm ct w s rating cres gres w',
    predict ext image model_repo gt gm ct true w
    = (Ok (s, rating, cres, gres), w') ->
    forall name p, In (name, p) cres -> (0.15 < p)%Q.
Proof.
  intros * H name p Hin.
  apply predict_inv_groups in H.
  destruct H as (w1 & names & preds0 & ri & gi & ci & t & t' & _ & H).
  cbv zeta in H. destruct H as (_ & _ & (m & _ & ->) & _ & _ & -> & _).
  assert (Hget : dict_get (py_dict (group (combine names preds0)
                   (accepted (combine names preds0) ci (py_max 0.15 m)))) name
                 = Some p).
  { pose proof (py_dict_NoDup (group (combine names preds0)
                  (accepted (combine names preds0) ci (py_max 0.15 m)))) as Hnd.
    revert Hin Hnd. generalize (py_dict (group (combine names preds0)
                  (accepted (combine names preds0) ci (py_max 0.15 m)))).
    intros d. unfold keys. induction d as [|[k v] d IH]; [contradiction|].
    cbn [In map fst dict_get]. intros Hin Hnd. inversion Hnd as [|? ? Hk Hd].
    subst. destruct Hin as [[= -> ->]|Hin].
    - now rewrite String.eqb_refl.
    - destruct (String.eqb k name) eqn:E; [|now apply IH].
      apply String.eqb_eq in E. subst k. exfalso. apply Hk.
      apply (in_map fst) in Hin. exact Hin. }
  apply dict_values_above in Hget.
  eapply Qle_lt_trans; [|exact Hget]. apply py_max_spec.
Qed.

Lemma X13_witness : (0.15 < 0.9)%Q.
Proof.
  apply (X13_mcut_characters_are_above_floor
           BatchDemo.hub Demo.dot "chars"%string 0.35%Q false 0.85%Q Demo.fresh
           "smile"%string [("general"%string, 1%Q)]
           [("miku"%string, 0.9%Q)] [("smile"%string, 0.8%Q)]
           (snd (predict BatchDemo.hub Demo.dot "chars" 0.35 false 0.85 true
                   Demo.fresh))
           eq_refl "miku"%string 0.9%Q).
  now left.
Defined.

(** *** What [predict] does to the world *)

Lemma silent_ret {A} (a : A) : silent (Eff.ret a).
Proof. intros w. reflexivity. Qed.

Lemma silent_lift {A} (r : result A) : silent (Eff.lift r).
Proof. intros w. reflexivity. Qed.

Lemma silent_attr {A} (field : Predictor -> option A) : silent (Eff.attr field).
Proof. intros w. unfold Eff.attr. now destruct (field (self w)). Qed.

Lemma silent_bind {A B} (m : M A) (k : A -> M B) :
  silent m -> (forall a, silent (k a)) -> silent (Eff.bind m k).
Proof.
  intros Hm Hk w. unfold Eff.bind. specialize (Hm w).
  destruct (m w) as [[a|e] w']; cbn [snd] in *; subst w'; [apply Hk|reflexivity].
Qed.

Ltac silent_tac :=
  repeat first
    [ apply silent_ret | apply silent_lift | apply silent_attr
    | apply silent_bind; [|intro]
    | match goal with |- silent (if ?b then _ else _) => destruct b end
    | progress cbv zeta ].

(** After the load, [predict] writes at most the call of the classifier to
    the trace and assigns no attribute. *)
Lemma predict_world ext image model_repo gt gm ct cm w :
  let w1 := snd (load_model ext model_repo w) in
  snd (predict ext image model_repo gt gm ct cm w) = w1 \/
  (fst (load_model ext model_repo w) = Ok tt /\
   is_ok (fst (prepare_image ext image w1)) = true /\
   model (self w1) <> None /\
   snd (predict ext image model_repo gt gm ct cm w) = after_run w1).
Proof.
  unfold predict.
  destruct (load_model ext model_repo w) as [[[]|e] w1] eqn:Hload; cbn [snd fst];
    [rewrite (bind_eq _ _ _ _ _ Hload)
    |rewrite (bind_raise _ _ _ _ _ Hload); now left].
  pose proof (prepare_image_world ext image w1) as Hw.
  destruct (prepare_image ext image w1) as [[img|e] w2] eqn:Hprep;
    cbn [snd] in Hw; subst w2;
    [rewrite (bind_eq _ _ _ _ _ Hprep)
    |rewrite (bind_raise _ _ _ _ _ Hprep); now left].
  destruct (model (self w1)) as [session|] eqn:Hm;
    [rewrite (bind_attr _ _ _ _ Hm)
    |rewrite (bind_attr_None _ _ _ Hm); now left].
  right. split; [reflexivity|]. split; [reflexivity|]. split; [discriminate|].
  rewrite bind_emit. fold (after_run w1).
  match goal with |- snd (?m (after_run w1)) = _ =>
    assert (Hs : silent m) by silent_tac; apply Hs end.
Qed.

(** *** The attributes exist whenever an identifier is cached *)

Lemma load_model_coherent ext model_repo w :
  coherent (self w) ->
  coherent (self (snd (load_model ext model_repo w))) /\
  (fst (load_model ext model_repo w) = Ok tt ->
   loaded (self (snd (load_model ext model_repo w)))).
Proof.
  intros Hc.
  destruct (cached_dec (last_loaded_repo (self w)) model_repo) as [Hhit|Hmiss].
  - rewrite (load_model_hit _ _ _ Hhit). cbn [fst snd]. split; [exact Hc|].
    intros _. destruct Hc as [Hc|Hc]; [congruence|exact Hc].
  - rewrite (load_model_miss_eq ext model_repo w Hmiss). cbv zeta.
    destruct (hf_hub_download ext model_repo LABEL_FILENAME) as [csv|e];
      [|split; [exact Hc|discriminate]].
    destruct (hf_hub_download ext model_repo MODEL_FILENAME) as [mp|e];
      [|split; [exact Hc|discriminate]].
    destruct (read_csv ext csv) as [df|e]; [|split; [exact Hc|discriminate]].
    destruct (load_labels df) as [[[[names ri] gi] ci]|e];
      [|split; [exact Hc|discriminate]].
    destruct (build_session ext mp) as [[session target]|e]; cbn [fst snd self].
    + assert (Hl : loaded (set_classifier session target model_repo
                             (set_catalog names ri gi ci (self w))))
        by (repeat split; discriminate).
      split; [now right|intros _; exact Hl].
    + split; [|discriminate].
      destruct Hc as [Hc|(_ & _ & _ & _ & Hmodel)].
      * left. exact Hc.
      * right. repeat split; try discriminate. exact Hmodel.
Qed.

(** X10.  A predictor created by [Predictor()] and used through
    [load_model] and [predict] only has all the attributes that [predict]
    reads as soon as an identifier is cached, whichever calls failed on the
    way.  On such a predictor, once the load has returned, the image is
    prepared and the classifier has answered, [predict] reads its labels
    without an [AttributeError]. *)
Theorem X10_attributes_exist_once_an_identifier_is_cached :
  coherent Predictor_init /\
  (forall ext model_repo w,
     coherent (self w) ->
     coherent (self (snd (load_model ext model_repo w)))) /\
  (forall ext image model_repo gt gm ct cm w,
     coherent (self w) ->
     coherent (self (snd (predict ext image model_repo gt gm ct cm w)))) /\
  (forall ext image model_repo w w1 img,
     coherent (self w) ->
     load_model ext model_repo w = (Ok tt, w1) ->
     prepare_image ext image w1 = (Ok img, w1) ->
     exists session names ri gi ci,
       model (self w1) = Some session /\
       forall preds0 rest,
         run session img = Ok (preds0 :: rest) ->
         reaches_labels ext image model_repo w w1 names preds0 ri gi ci).
Proof.
  split; [now left|]. split; [|split].
  - intros * Hc. now apply load_model_coherent.
  - intros * Hc.
    pose proof (proj1 (load_model_coherent ext model_repo w Hc)) as H1.
    destruct (predict_world ext image model_repo gt gm ct cm w)
      as [->|(_ & _ & _ & ->)]; exact H1.
  - intros * Hc Hload Hprep.
    pose proof (proj2 (load_model_coherent ext model_repo w Hc)) as Hl.
    rewrite Hload in Hl. cbn [fst snd] in Hl.
    destruct (Hl eq_refl) as (Hn & Hr & Hg & Hci & Hm).
    destruct (tag_names (self w1)) as [names|] eqn:En; [|congruence].
    destruct (rating_indexes (self w1)) as [ri|] eqn:Er; [|congruence].
    destruct (general_indexes (self w1)) as [gi|] eqn:Eg; [|congruence].
    destruct (character_indexes (self w1)) as [ci|] eqn:Ec; [|congruence].
    destruct (model (self w1)) as [session|] eqn:Em; [|congruence].
    exists session, names, ri, gi, ci. split; [reflexivity|].
    intros preds0 rest Hrun. repeat split; trivial.
    exists session, img, (preds0 :: rest). repeat split; trivial.
Qed.

Lemma X10_witness :
  coherent (self (snd (load_model Demo.hub "broken"
                         (snd (load_model Demo.hub "demo" Demo.fresh))))) /\
  coherent (self (snd (load_model Demo.hub "broken" Demo.fresh))).
Proof.
  split.
  - apply (proj1 (proj2 X10_attributes_exist_once_an_identifier_is_cached)).
    right. repeat split; discriminate.
  - apply (proj1 (proj2 X10_attributes_exist_once_an_identifier_is_cached)).
    now left.
Defined.

(** X12.  A [predict] that returned is repeatable: called again with the
    same arguments it returns the same four values, and any further call
    for the same identifier, whatever the image and the thresholds, makes
    one call of the classifier and no other external call, and assigns no
    attribute. *)
Theorem X12_predict_again_uses_the_cache :
  forall ext image model_repo gt gm ct cm w out w',
    predict ext image model_repo gt gm ct cm w = (Ok out, w') ->
    predict ext image model_repo gt gm ct cm w' = (Ok out, after_run w') /\
    forall image2 gt2 gm2 ct2 cm2,
      snd (predict ext image2 model_repo gt2 gm2 ct2 cm2 w') = after_run w'.
Proof.
  intros * H. apply predict_inv in H.
  destruct H as (w1 & names & preds0 & ri & gi & ci & Hr & Hout & ->).
  pose proof Hr as
    (Hload & Hn & Hri & Hgi & Hci & session & img & preds & Hm & Hprep & Hrun & H0).
  pose proof (load_model_Ok_cached _ _ _ _ Hload) as Hcached.
  assert (Hhit : load_model ext model_repo (after_run w1)
                 = (Ok tt, after_run w1))
    by (apply load_model_hit; exact Hcached).
  assert (Hprep_any : forall im,
    is_ok (fst (prepare_image ext im (after_run w1))) = true).
  { intros im. unfold prepare_image. cbn [after_run self].
    unfold prepare_image in Hprep.
    destruct (model_target_size (self w1)); [reflexivity|discriminate]. }
  split.
  - assert (Hr2 : reaches_labels ext image model_repo (after_run w1)
                    (after_run w1) names preds0 ri gi ci).
    { repeat split; trivial. exists session, img, preds. repeat split; trivial.
      pose proof (prepare_image_world ext image (after_run w1)) as Hw.
      pose proof (prepare_image_self ext image (after_run w1) w1 eq_refl) as Hf.
      rewrite Hprep in Hf. cbn [fst] in Hf.
      destruct (prepare_image ext image (after_run w1)) as [r w2].
      cbn [fst snd] in *. congruence. }
    rewrite (predict_unfold _ _ _ _ _ _ _ _ _ _ gt gm ct cm Hr2).
    now rewrite Hout.
  - intros *.
    destruct (predict_world ext image2 model_repo gt2 gm2 ct2 cm2 (after_run w1))
      as [Hstop|(_ & _ & _ & Hgo)]; rewrite Hhit in *; cbn [snd] in *;
      [|exact Hgo].
    exfalso. revert Hstop. unfold predict.
    rewrite (bind_eq _ _ _ _ _ Hhit).
    pose proof (prepare_image_world ext image2 (after_run w1)) as Hw.
    specialize (Hprep_any image2).
    destruct (prepare_image ext image2 (after_run w1)) as [[img2|e] w2] eqn:Hp2;
      cbn [fst snd] in *; [subst w2|discriminate].
    rewrite (bind_eq _ _ _ _ _ Hp2).
    rewrite (bind_attr model _ (after_run w1) session Hm), bind_emit.
    match goal with |- snd (?m ?w0) = _ -> _ =>
      assert (Hs : silent m) by silent_tac; rewrite (Hs w0) end.
    intros Hbad. apply (f_equal (fun x => List.length (trace x))) in Hbad.
    cbn [trace after_run self] in Hbad. rewrite !length_app in Hbad.
    cbn in Hbad. lia.
Qed.

Lemma X12_witness :
  predict Demo.hub Demo.dot "demo" 0.35 true 0.85 true
    (snd (predict Demo.hub Demo.dot "demo" 0.35 true 0.85 true Demo.fresh))
  = (Ok ("long hair"%string,
         [("general"%string, 0.7%Q); ("sensitive"%string, 0.3%Q)], [],
         [("long hair"%string, 0.1%Q)]),
     after_run
       (snd (predict Demo.hub Demo.dot "demo" 0.35 true 0.85 true Demo.fresh))).
Proof.
  apply (proj1 (X12_predict_again_uses_the_cache
                  Demo.hub Demo.dot "demo"%string 0.35%Q true 0.85%Q true
                  Demo.fresh
                  ("long hair"%string,
                   [("general"%string, 0.7%Q); ("sensitive"%string, 0.3%Q)],
                   [], [("long hair"%string, 0.1%Q)])
                  (snd (predict Demo.hub Demo.dot "demo" 0.35 true 0.85 true
                          Demo.fresh))
                  eq_refl)).
Defined.

(** X14.  For a catalog parsed from a table whose two columns have the
    same number of rows, and a classifier that answers with at least as
    many confidences as the catalog has names, [predict] with fixed
    thresholds returns: no index of a group is out of range. *)
Theorem X14_predict_returns_when_output_covers_the_catalog :
  forall ext image model_repo gt ct w w1 names preds0 ri gi ci df raw codes,
    reaches_labels ext image model_repo w w1 names preds0 ri gi ci ->
    load_labels df = Ok (names, ri, gi, ci) ->
    df_name df = Some raw -> df_category df = Some codes ->
    List.length raw = List.length codes ->
    List.length names <= List.length preds0 ->
    is_ok (fst (predict ext image model_repo gt false ct false w)) = true.
Proof.
  intros * Hr Hl Hraw Hcodes Hrows Hcover.
  rewrite (predict_unfold _ _ _ _ _ _ _ _ _ _ gt false ct false Hr).
  cbn [fst]. apply predict_from_labels_ok.
  split; [|split; discriminate].
  apply load_labels_Ok_inv in Hl.
  destruct Hl as (raw' & codes' & Hn & Hc & -> & -> & -> & ->).
  assert (raw' = raw) by congruence. assert (codes' = codes) by congruence.
  subst raw' codes'.
  rewrite length_combine, length_map in *.
  rewrite !Forall_app. repeat split; apply Forall_forall; intros i Hi;
    apply np_where_In in Hi;
    assert (i < List.length codes) by (apply nth_error_Some; congruence); lia.
Qed.

Lemma X14_witness :
  is_ok (fst (predict Demo.hub Demo.dot "long" 0.35 false 0.85 false
                Demo.fresh)) = true.
Proof.
  apply (X14_predict_returns_when_output_covers_the_catalog
           Demo.hub Demo.dot "long"%string 0.35%Q 0.85%Q Demo.fresh
           (snd (load_model Demo.hub "long" Demo.fresh))
           ["general"; "smile"]%string [0.9; 0.8; 0.7]%Q [0] [1] []
           (Demo.table ["general"; "smile"]%string [9; 0]%Z)
           ["general"; "smile"]%string [9; 0]%Z);
    try reflexivity.
  - repeat split.
    exists (Demo.classifier [0.9; 0.8; 0.7]%Q).
    eexists. exists [[0.9; 0.8; 0.7]%Q].
    repeat split; reflexivity.
  - simpl. lia.
Defined.

(** ** [prepare_image] *)

(** X15.  A classifier whose declared input height is not an integer can
    be loaded, but it is never called: every [predict] raises at the
    resize of [prepare_image], before the classifier is reached. *)
Theorem X15_symbolic_input_size_fails_before_the_classifier :
  forall ext image model_repo gt gm ct cm w w1,
    load_model ext model_repo w = (Ok tt, w1) ->
    model_target_size (self w1) = None ->
    predict ext image model_repo gt gm ct cm w = (Raise TypeError, w1).
Proof.
  intros * Hload Hsize. unfold predict.
  rewrite (bind_eq _ _ _ _ _ Hload).
  apply bind_raise. unfold prepare_image. now rewrite Hsize.
Qed.

Lemma X15_witness :
  predict BatchDemo.hub Demo.dot "dynamic" 0.35 false 0.85 false Demo.fresh
  = (Raise TypeError, snd (load_model BatchDemo.hub "dynamic" Demo.fresh)).
Proof.
  apply X15_symbolic_input_size_fails_before_the_classifier; reflexivity.
Defined.

(** X16.  When the longer side of the image equals the target size [S],
    the array is written pixel by pixel: inside the pasted rectangle the
    entry at row [y] and column [x] is the flattened pixel at
    [(x - pad_left, y - pad_top)], blue first, and outside it is white.
    The rectangle touches the border along its longer side, and along the
    other side the margin after it exceeds the margin before it by at most
    one. *)
Theorem X16_prepare_image_without_resampling :
  forall ext (image : Image RGBA) (w : World) (S : nat),
    model_target_size (self w) = Some S ->
    Nat.max (width image) (height image) = S ->
    let pad_left := (S - width image) / 2 in
    let pad_top := (S - height image) / 2 in
    exists t,
      prepare_image ext image w = (Ok t, w) /\
      (forall x y, x < S -> y < S ->
         entry t y x =
         if (pad_left <=? x) && (x <? pad_left + width image)
            && (pad_top <=? y) && (y <? pad_top + height image)
         then bgr_of (rgb_of (pil_blend ext opaque_white
                                (getpixel image (x - pad_left) (y - pad_top))))
         else [255; 255; 255]%Z) /\
      (pad_left = 0 \/ pad_top = 0) /\
      pad_left <= S - width image - pad_left <= pad_left + 1 /\
      pad_top <= S - height image - pad_top <= pad_top + 1.
Proof.
  intros ext image w S HS Hmax pad_left pad_top.
  eexists. split; [|split; [|split]].
  - unfold prepare_image. rewrite HS.
    change (fst (size (convert_RGB
                        (alpha_composite (pil_blend ext)
                           (Image_new (size image) (255, 255, 255, 255)%Z)
                           image)))) with (width image).
    change (snd (size (convert_RGB
                        (alpha_composite (pil_blend ext)
                           (Image_new (size image) (255, 255, 255, 255)%Z)
                           image)))) with (height image).
    rewrite Hmax, Nat.eqb_refl. cbn [negb]. reflexivity.
  - intros x y Hx Hy. unfold entry, expand_dims. cbn [nth].
    rewrite asarray_entry by (cbn; lia).
    cbn [paste getpixel].
    change (width (convert_RGB
                     (alpha_composite (pil_blend ext)
                        (Image_new (size image) (255, 255, 255, 255)%Z)
                        image))) with (width image).
    change (height (convert_RGB
                      (alpha_composite (pil_blend ext)
                         (Image_new (size image) (255, 255, 255, 255)%Z)
                         image))) with (height image).
    subst pad_left pad_top.
    destruct (((S - width image) / 2 <=? x)
              && (x <? (S - width image) / 2 + width image)
              && ((S - height image) / 2 <=? y)
              && (y <? (S - height image) / 2 + height image));
      [|reflexivity].
    cbn [getpixel convert_RGB alpha_composite Image_new].
    unfold rgb_of, opaque_white.
    now destruct (pil_blend ext (255, 255, 255, 255)%Z
                    (getpixel image (x - (S - width image) / 2)
                                    (y - (S - height image) / 2)))
      as [[[r g] b] a].
  - unfold pad_left, pad_top.
    destruct (Nat.max_dec (width image) (height image)) as [E|E];
      rewrite E in Hmax; rewrite <- Hmax, Nat.sub_diag; auto.
  - unfold pad_left, pad_top.
    pose proof (Nat.div_mod_eq (S - width image) 2) as H1.
    pose proof (Nat.mod_upper_bound (S - width image) 2 ltac:(lia)) as H2.
    pose proof (Nat.div_mod_eq (S - height image) 2) as H3.
    pose proof (Nat.mod_upper_bound (S - height image) 2 ltac:(lia)) as H4.
    lia.
Qed.

Lemma X16_witness :
  let w := {| self := set_model_target_size (Some 3) Predictor_init;
              trace := [] |} in
  exists t,
    prepare_image Demo.hub Demo.strip w = (Ok t, w) /\
    entry t 1 2 = [7; 1; 20]%Z /\ entry t 2 2 = [255; 255; 255]%Z.
Proof.
  intros w.
  destruct (X16_prepare_image_without_resampling
              Demo.hub Demo.strip w 3 eq_refl eq_refl)
    as (t & Hp & Hentry & _).
  exists t. split; [exact Hp|].
  rewrite (Hentry 2 1), (Hentry 2 2) by lia. split; reflexivity.
Defined.

(** ** [save_caption_to_file] and [process_batch_images] *)

Section TryLaws.
Context {A B : Type}.
Implicit Types (k : A -> T B) (b : Batch).

Lemma try_bind_eq (m : T A) k b a b' :
  m b = (Done a, b') -> Try.bind m k b = k a b'.
Proof. unfold Try.bind. now intros ->. Qed.

Lemma try_bind_thrown (m : T A) k b e b' :
  m b = (Thrown e, b') -> Try.bind m k b = (Thrown e, b').
Proof. unfold Try.bind. now intros ->. Qed.
End TryLaws.

(** [save_caption_to_file], outcome by outcome. *)
Lemma save_caption_to_file_eq host image_path caption output_dir b :
  save_caption_to_file host image_path caption output_dir b =
  if negb (truthy output_dir) then (Done tt, b)
  else
    let b1 := {| world := world b;
                 host_log := host_log b ++ [HvMakedirs output_dir] |} in
    match makedirs host output_dir with
    | Thrown e => (Thrown (HostExn e), b1)
    | Done _ =>
        match open_write host (caption_path host output_dir image_path) with
        | Thrown e => (Thrown (HostExn e), b1)
        | Done _ =>
            (Done tt,
             {| world := world b;
                host_log := host_log b
                            ++ [HvMakedirs output_dir;
                                HvWrite (caption_path host output_dir image_path)
                                        caption] |})
        end
    end.
Proof.
  unfold save_caption_to_file. fold (caption_path host output_dir image_path).
  destruct (truthy output_dir); cbn [negb]; [|reflexivity].
  unfold Try.bind, Try.log, Try.host. cbn [world host_log].
  destruct (makedirs host output_dir) as [[]|e]; [|reflexivity].
  destruct (open_write host (caption_path host output_dir image_path))
    as [[]|e]; [|reflexivity].
  cbn [world host_log]. now rewrite <- app_assoc.
Qed.

(** One attempt on an image, outcome by outcome. *)
Lemma caption_of_eq host ext img_path model_repo gt gm ct cm output_dir b :
  caption_of host ext img_path model_repo gt gm ct cm output_dir b =
  let b1 := {| world := world b; host_log := host_log b ++ [HvOpen img_path] |} in
  match image_open host img_path with
  | Thrown e => (Thrown (HostExn e), b1)
  | Done img =>
      match ensure_RGBA host img with
      | Thrown e => (Thrown (HostExn e), b1)
      | Done im =>
          match predict ext im model_repo gt gm ct cm (world b) with
          | (Raise e, w') =>
              (Thrown (PredictExn e),
               {| world := w'; host_log := host_log b1 |})
          | (Ok (caption, _, _, _), w') =>
              let b2 := {| world := w'; host_log := host_log b1 |} in
              match (if truthy output_dir
                     then save_caption_to_file host img_path caption
                                               output_dir b2
                     else (Done tt, b2)) with
              | (Done _, b3) => (Done caption, b3)
              | (Thrown e, b3) => (Thrown e, b3)
              end
          end
      end
  end.
Proof.
  unfold caption_of. unfold Try.bind at 1. cbn [Try.log].
  unfold Try.bind at 1. unfold Try.host at 1.
  destruct (image_open host img_path) as [img|e]; [|reflexivity].
  unfold Try.bind at 1. unfold Try.host at 1.
  destruct (ensure_RGBA host img) as [im|e]; [|reflexivity].
  unfold Try.bind at 1. unfold Try.method. cbn [world host_log].
  destruct (predict ext im model_repo gt gm ct cm (world b))
    as [[[[[caption rating] cres] gres]|e] w']; [|reflexivity].
  cbv zeta. unfold Try.bind, Try.ret.
  destruct (truthy output_dir); [|reflexivity].
  now destruct (save_caption_to_file host img_path caption output_dir _)
    as [[[]|e] b3].
Qed.

Lemma writes_app (l l' : list host_event) :
  writes (l ++ l') = writes l ++ writes l'.
Proof.
  induction l as [|ev l IH]; [reflexivity|].
  destruct ev; cbn; now rewrite IH.
Qed.

Lemma made_dirs_app (l l' : list host_event) :
  made_dirs (l ++ l') = made_dirs l ++ made_dirs l'.
Proof.
  induction l as [|ev l IH]; [reflexivity|].
  destruct ev; cbn; now rewrite IH.
Qed.

Lemma opened_app (l l' : list host_event) :
  opened (l ++ l') = opened l ++ opened l'.
Proof.
  induction l as [|ev l IH]; [reflexivity|].
  destruct ev; cbn; now rewrite IH.
Qed.

(** One turn of the loop.  [ok] tells whether the image went through;
    [line] is what the turn appends to [results]. *)
Lemma iteration_spec host ext model_repo gt gm ct cm output_dir
      total idx img_path results b :
  exists (ok : bool) (line : string) (b' : Batch),
    iteration host ext model_repo gt gm ct cm output_dir total idx img_path
              results b
    = ((if ok then processing_text host total idx img_path
        else error_text total idx,
        str_join blank_line (results ++ [line])),
       results ++ [line], b') /\
    (ok = false -> exists e, line = error_line host img_path e) /\
    (ok = true ->
     exists im rating cres gres w',
       usable host img_path = Some im /\
       predict ext im model_repo gt gm ct cm (world b)
       = (Ok (line, rating, cres, gres), w')) /\
    writes (host_log b')
    = writes (host_log b)
      ++ (if ok && truthy output_dir
          then [(caption_path host output_dir img_path, line)] else []) /\
    (exists dirs, made_dirs (host_log b') = made_dirs (host_log b) ++ dirs /\
                  (dirs = [] \/ (truthy output_dir = true /\
                                 dirs = [output_dir]))) /\
    opened (host_log b') = opened (host_log b) ++ [img_path] /\
    world b' = match usable host img_path with
               | Some im => snd (predict ext im model_repo gt gm ct cm (world b))
               | None => world b
               end.
Proof.
  unfold iteration, usable. rewrite caption_of_eq. cbv zeta.
  destruct (image_open host img_path) as [img|e].
  2:{ exists false, (error_line host img_path (HostExn e)). eexists.
      split; [reflexivity|]. split; [now eexists|]. split; [discriminate|].
      cbn [host_log world]. rewrite writes_app, made_dirs_app, opened_app.
      cbn. rewrite !app_nil_r. repeat split; trivial. exists []. 
      rewrite app_nil_r. auto. }
  destruct (ensure_RGBA host img) as [im|e].
  2:{ exists false, (error_line host img_path (HostExn e)). eexists.
      split; [reflexivity|]. split; [now eexists|]. split; [discriminate|].
      cbn [host_log world]. rewrite writes_app, made_dirs_app, opened_app.
      cbn. rewrite !app_nil_r. repeat split; trivial. exists [].
      rewrite app_nil_r. auto. }
  destruct (predict ext im model_repo gt gm ct cm (world b))
    as [[[[[caption rating] cres] gres]|e] w'] eqn:Hpred.
  2:{ exists false, (error_line host img_path (PredictExn e)). eexists.
      split; [reflexivity|]. split; [now eexists|]. split; [discriminate|].
      cbn [host_log world snd]. rewrite writes_app, made_dirs_app, opened_app.
      cbn. rewrite !app_nil_r. repeat split; trivial. exists [].
      rewrite app_nil_r. auto. }
  cbn [snd]. destruct (truthy output_dir) eqn:Hdir.
  2:{ exists true, caption. eexists. split; [reflexivity|].
      split; [discriminate|].
      split; [intros _; now exists im, rating, cres, gres, w'|].
      cbn [host_log world andb].
      rewrite !writes_app, !made_dirs_app, !opened_app.
      cbn. rewrite !app_nil_r. repeat split; trivial. exists [].
      rewrite app_nil_r. auto. }
  rewrite save_caption_to_file_eq, Hdir. cbn [negb]. cbv zeta.
  cbn [host_log world].
  destruct (makedirs host output_dir) as [[]|e].
  2:{ exists false, (error_line host img_path (HostExn e)). eexists.
      split; [reflexivity|]. split; [now eexists|]. split; [discriminate|].
      cbn [host_log world andb].
      rewrite !writes_app, !made_dirs_app, !opened_app.
      cbn. rewrite !app_nil_r. repeat split; trivial.
      exists [output_dir]. auto. }
  destruct (open_write host (caption_path host output_dir img_path)) as [[]|e].
  2:{ exists false, (error_line host img_path (HostExn e)). eexists.
      split; [reflexivity|]. split; [now eexists|]. split; [discriminate|].
      cbn [host_log world andb].
      rewrite !writes_app, !made_dirs_app, !opened_app.
      cbn. rewrite !app_nil_r. repeat split; trivial.
      exists [output_dir]. auto. }
  exists true, caption. eexists. split; [reflexivity|].
  split; [discriminate|].
  split; [intros _; now exists im, rating, cres, gres, w'|].
  cbn [host_log world andb].
  rewrite !writes_app, !made_dirs_app, !opened_app.
  cbn. rewrite !app_nil_r. repeat split; trivial.
  exists [output_dir]. auto.
Qed.

(** The loop, from any turn on. *)
Lemma batch_loop_spec host ext model_repo gt gm ct cm output_dir total :
  forall images idx results b,
  exists (oks : list bool) (lines : list string)
         (ys : list (string * string)) (b' : Batch),
    batch_loop host ext model_repo gt gm ct cm output_dir total idx images
               results b
    = (ys, results ++ lines, b') /\
    List.length oks = List.length images /\
    List.length lines = List.length images /\
    List.length ys = List.length images /\
    (forall k p, nth_error images k = Some p ->
       exists ok line,
         nth_error oks k = Some ok /\ nth_error lines k = Some line /\
         nth_error ys k
         = Some (if ok then processing_text host total (idx + k) p
                 else error_text total (idx + k),
                 str_join blank_line (results ++ firstn (S k) lines)) /\
         (ok = false -> exists e, line = error_line host p e) /\
         (ok = true ->
          exists im rating cres gres w',
            usable host p = Some im /\
            predict ext im model_repo gt gm ct cm
              (batch_world host ext model_repo gt gm ct cm (firstn k images)
                           (world b))
            = (Ok (line, rating, cres, gres), w'))) /\
    writes (host_log b')
    = writes (host_log b)
      ++ (if truthy output_dir
          then written_by host output_dir images oks lines else []) /\
    (forall d, In d (made_dirs (host_log b')) ->
               In d (made_dirs (host_log b)) \/
               (truthy output_dir = true /\ d = output_dir)) /\
    opened (host_log b') = opened (host_log b) ++ images /\
    world b' = batch_world host ext model_repo gt gm ct cm images (world b).
Proof.
  induction images as [|p images IH]; intros idx results b.
  - exists [], [], [], b. cbn [batch_loop List.length batch_world].
    rewrite !app_nil_r. repeat split; trivial.
    + intros k q Hk. now destruct k.
    + destruct (truthy output_dir); cbn [written_by]; now rewrite app_nil_r.
    + auto.
  - destruct (iteration_spec host ext model_repo gt gm ct cm output_dir
                total idx p results b)
      as (ok & line & b1 & Hit & Herr & Hok & Hw & (dirs & Hd & Hdirs) & Ho
          & Hwd).
    destruct (IH (S idx) (results ++ [line]) b1)
      as (oks & lines & ys & b' & Hloop & Hlo & Hll & Hly & Hnth & Hw' & Hd'
          & Ho' & Hwd').
    exists (ok :: oks), (line :: lines),
      ((if ok then processing_text host total idx p else error_text total idx,
        str_join blank_line (results ++ [line])) :: ys), b'.
    split.
    { cbn [batch_loop]. rewrite Hit, Hloop. now rewrite <- app_assoc. }
    cbn [List.length]. do 3 (split; [congruence|]).
    split.
    { intros k q Hk. destruct k as [|k]; cbn [nth_error] in *.
      - injection Hk as <-. exists ok, line.
        rewrite Nat.add_0_r. cbn [firstn batch_world]. auto.
      - destruct (Hnth k q Hk) as (ok' & line' & H1 & H2 & H3 & H4 & H5).
        exists ok', line'. split; [exact H1|]. split; [exact H2|].
        split; [|split; [exact H4|]].
        + rewrite H3. replace (S idx + k) with (idx + S k) by lia.
          rewrite <- app_assoc. reflexivity.
        + cbn [firstn batch_world]. rewrite <- Hwd. exact H5. }
    split.
    { rewrite Hw', Hw, <- app_assoc. f_equal.
      cbn [written_by]. destruct ok, (truthy output_dir); reflexivity. }
    split.
    { intros d Hin. apply Hd' in Hin. destruct Hin as [Hin|Hin]; [|now right].
      rewrite Hd in Hin. apply in_app_or in Hin.
      destruct Hin as [Hin|Hin]; [now left|].
      destruct Hdirs as [->|[Ht ->]]; [contradiction|].
      destruct Hin as [<-|[]]. now right. }
    split.
    { rewrite Ho', Ho, <- app_assoc. reflexivity. }
    cbn [batch_world]. now rewrite Hwd', Hwd.
Qed.

Lemma texts_differ host total idx p total' idx' :
  processing_text host total idx p <> error_text total' idx'.
Proof. unfold processing_text, error_text. cbn. discriminate. Qed.

Lemma process_batch_images_eq host ext images model_repo gt gm ct cm output_dir :
  process_batch_images host ext (Some images) model_repo gt gm ct cm output_dir
  = (Ok (fst (fst (batch_run host ext images model_repo gt gm ct cm output_dir)),
         ("Done!"%string,
          str_join blank_line
            (snd (fst (batch_run host ext images model_repo gt gm ct cm
                         output_dir))))),
     snd (batch_run host ext images model_repo gt gm ct cm output_dir)).
Proof.
  unfold process_batch_images, batch_run.
  now destruct (batch_loop _ _ _ _ _ _ _ _ _ _ _ _ _) as [[ys results] b].
Qed.

(** X17.  The generator yields once per image, in order, whatever fails,
    and then returns "Done!" with the whole transcript.  The text of the
    yield for image [k] is the first [k] lines of the final transcript,
    joined by blank lines; its progress is "Processing <name> (k/n)", or
    "Error (k/n)" with a transcript line "Error processing <name>: <message>".
    [Image.open] is called once per image, in order. *)
Theorem X17_batch_yields_a_growing_transcript :
  forall host ext images model_repo gt gm ct cm output_dir,
    let n := List.length images in
    exists ys lines b,
      process_batch_images host ext (Some images) model_repo gt gm ct cm
                           output_dir
      = (Ok (ys, ("Done!"%string, str_join blank_line lines)), b) /\
      List.length ys = n /\ List.length lines = n /\
      opened (host_log b) = images /\
      forall k p, nth_error images k = Some p ->
        exists y,
          nth_error ys k = Some y /\
          snd y = str_join blank_line (firstn (S k) lines) /\
          (fst y = processing_text host n (S k) p \/
           (fst y = error_text n (S k) /\
            exists e, nth_error lines k = Some (error_line host p e))).
Proof.
  intros host ext images model_repo gt gm ct cm output_dir n.
  rewrite process_batch_images_eq. unfold batch_run.
  destruct (batch_loop_spec host ext model_repo gt gm ct cm output_dir n
              images 1 [] batch_start)
    as (oks & lines & ys & b & Hloop & _ & Hll & Hly & Hnth & _ & _ & Ho & _).
  fold n. rewrite Hloop. cbn [fst snd app].
  exists ys, lines, b. split; [reflexivity|].
  split; [exact Hly|]. split; [exact Hll|]. split; [exact Ho|].
  intros k p Hk.
  destruct (Hnth k p Hk) as (ok & line & _ & Hline & Hy & Herr & _).
  eexists. split; [exact Hy|]. cbn [fst snd app]. split; [reflexivity|].
  destruct ok; [now left|]. right. split; [reflexivity|].
  destruct (Herr eq_refl) as [e ->]. now exists e.
Qed.

Lemma process_batch_images_example :
  fst (process_batch_images BatchDemo.host BatchDemo.hub
         (Some ["in/cat.png"; "in/notes.txt"]%string) "chars" 0.35 false
         0.85 true "out")
  = Ok ([("Processing cat.png (1/2)", "smile");
         ("Error (2/2)",
          "smile" ++ blank_line
          ++ "Error processing notes.txt: cannot identify image file")],
        ("Done!",
         "smile" ++ blank_line
         ++ "Error processing notes.txt: cannot identify image file"))%string.
Proof. reflexivity. Qed.

Lemma batch_world_filter host ext model_repo gt gm ct cm images w :
  batch_world host ext model_repo gt gm ct cm images w
  = batch_world host ext model_repo gt gm ct cm
      (filter (is_usable host) images) w.
Proof.
  revert w. induction images as [|p images IH]; intros w; [reflexivity|].
  cbn [batch_world filter]. unfold is_usable at 1.
  destruct (usable host p) as [im|] eqn:E; [|apply IH].
  cbn [batch_world]. rewrite E. apply IH.
Qed.

Lemma batch_run_world host ext images model_repo gt gm ct cm output_dir :
  world (snd (batch_run host ext images model_repo gt gm ct cm output_dir))
  = batch_world host ext model_repo gt gm ct cm images
      {| self := Predictor_init; trace := [] |}.
Proof.
  unfold batch_run.
  destruct (batch_loop_spec host ext model_repo gt gm ct cm output_dir
              (List.length images) images 1 [] batch_start)
    as (oks & lines & ys & b & Hloop & _ & _ & _ & _ & _ & _ & _ & Hw).
  rewrite Hloop. exact Hw.
Qed.

(** X18.  Files that cannot be opened or converted, and the output
    directory, leave no mark on the predictor: the batch ends with the
    predictor and with the external calls for the model that it would have
    without those files and with any other output directory. *)
Theorem X18_unreadable_files_do_not_touch_the_predictor :
  forall host ext images model_repo gt gm ct cm output_dir output_dir',
    world (snd (process_batch_images host ext (Some images) model_repo
                  gt gm ct cm output_dir))
    = world (snd (process_batch_images host ext
                    (Some (filter (is_usable host) images)) model_repo
                    gt gm ct cm output_dir')).
Proof.
  intros *. rewrite !process_batch_images_eq. cbn [snd].
  rewrite !batch_run_world. apply batch_world_filter.
Qed.

(** X19.  Caption files.  With an empty output directory the batch creates
    no directory and writes no file.  Otherwise [os.makedirs] is called with
    the output directory only, and a file is written exactly for the images
    that yield "Processing ...": the file of image [p] is
    [output_dir / (stem of p + ".txt")] and holds the transcript line of
    [p].  Two images with one stem are written to one file. *)
Theorem X19_captions_are_written_for_processed_images_only :
  forall host ext images model_repo gt gm ct cm output_dir,
    let n := List.length images in
    exists ys lines b,
      process_batch_images host ext (Some images) model_repo gt gm ct cm
                           output_dir
      = (Ok (ys, ("Done!"%string, str_join blank_line lines)), b) /\
      (truthy output_dir = false ->
       writes (host_log b) = [] /\ made_dirs (host_log b) = []) /\
      (forall d, In d (made_dirs (host_log b)) -> d = output_dir) /\
      (forall path text, In (path, text) (writes (host_log b)) ->
         exists k p,
           nth_error images k = Some p /\
           path = caption_path host output_dir p /\
           nth_error lines k = Some text /\
           nth_error (map fst ys) k = Some (processing_text host n (S k) p)) /\
      (forall k p,
         truthy output_dir = true ->
         nth_error images k = Some p ->
         nth_error (map fst ys) k = Some (processing_text host n (S k) p) ->
         exists text,
           nth_error lines k = Some text /\
           In (caption_path host output_dir p, text) (writes (host_log b))) /\
      (forall p q, path_stem host p = path_stem host q ->
                   caption_path host output_dir p
                   = caption_path host output_dir q).
Proof.
  intros host ext images model_repo gt gm ct cm output_dir n.
  rewrite process_batch_images_eq. unfold batch_run.
  destruct (batch_loop_spec host ext model_repo gt gm ct cm output_dir n
              images 1 [] batch_start)
    as (oks & lines & ys & b & Hloop & Hlo & Hll & Hly & Hnth & Hw & Hd & _ & _).
  fold n. rewrite Hloop. cbn [fst snd app].
  cbn [batch_start host_log writes made_dirs app] in Hw, Hd.
  exists ys, lines, b. split; [reflexivity|].
  assert (Hin : forall path text,
    In (path, text) (written_by host output_dir images oks lines) <->
    exists k p, nth_error images k = Some p /\
                path = caption_path host output_dir p /\
                nth_error lines k = Some text /\ nth_error oks k = Some true).
  { clear. intros path text. revert oks lines.
    induction images as [|q images IH]; intros oks lines.
    - cbn [written_by]. split; [contradiction|].
      intros (k & p & Hk & _). now destruct k.
    - destruct oks as [|ok oks], lines as [|line lines]; cbn [written_by].
      + split; [contradiction|]. intros (k & p & _ & _ & Hk & _).
        now destruct k.
      + split; [contradiction|]. intros (k & p & _ & _ & _ & Hk).
        now destruct k.
      + split; [contradiction|]. intros (k & p & _ & _ & Hk & _).
        now destruct k.
      + rewrite in_app_iff, IH. split.
        * intros [H|(k & p & H1 & H2 & H3 & H4)].
          -- destruct ok; [|contradiction]. destruct H as [[= <- <-]|[]].
             now exists 0, q.
          -- now exists (S k), p.
        * intros (k & p & H1 & H2 & H3 & H4). destruct k as [|k].
          -- cbn [nth_error] in *. injection H1 as ->. injection H3 as ->.
             injection H4 as ->. left. subst path. now left.
          -- right. now exists k, p. }
  assert (Hfst : forall k p ok, nth_error images k = Some p ->
    nth_error oks k = Some ok ->
    nth_error (map fst ys) k
    = Some (if ok then processing_text host n (S k) p else error_text n (S k))).
  { intros k p ok Hk Hok.
    destruct (Hnth k p Hk) as (ok' & line & H1 & _ & H3 & _).
    assert (ok' = ok) by congruence. subst ok'.
    rewrite nth_error_map, H3. now destruct ok. }
  split; [|split; [|split; [|split]]];
    [| | | |intros p q E; unfold caption_path; now rewrite E].
  - intros Hdir. rewrite Hdir in Hw. split; [exact Hw|].
    destruct (made_dirs (host_log b)) as [|d ds]; [reflexivity|].
    destruct (Hd d (or_introl eq_refl)) as [[]|[Ht _]]. congruence.
  - intros d Hin'. destruct (Hd d Hin') as [[]|[_ ->]]. reflexivity.
  - intros path text Hpt. rewrite Hw in Hpt.
    destruct (truthy output_dir); [|contradiction].
    apply Hin in Hpt. destruct Hpt as (k & p & H1 & H2 & H3 & H4).
    exists k, p. repeat split; trivial. now rewrite (Hfst k p true H1 H4).
  - intros k p Hdir Hk Hy.
    destruct (Hnth k p Hk) as (ok & line & H1 & H2 & _).
    rewrite (Hfst k p ok Hk H1) in Hy.
    destruct ok;
      [|exfalso; apply (texts_differ host n (S k) p n (S k)); congruence].
    exists line. split; [exact H2|].
    rewrite Hw, Hdir. apply Hin. now exists k, p.
Qed.

Lemma X19_witness :
  exists b,
    snd (process_batch_images BatchDemo.host BatchDemo.hub
           (Some ["in/cat.png"; "in/notes.txt"]%string) "chars" 0.35 false
           0.85 true "") = b /\
    writes (host_log b) = [] /\ made_dirs (host_log b) = [].
Proof.
  destruct (X19_captions_are_written_for_processed_images_only
              BatchDemo.host BatchDemo.hub
              ["in/cat.png"; "in/notes.txt"]%string "chars"%string
              0.35%Q false 0.85%Q true EmptyString)
    as (ys & lines & b & Hrun & Hempty & _).
  exists b. split; [now rewrite Hrun|]. apply Hempty. reflexivity.
Defined.

(** *** The cache across a batch *)

Lemma filter_non_run_app (l l' : list event) :
  filter (fun ev => negb (is_run ev)) (l ++ l')
  = filter (fun ev => negb (is_run ev)) l
    ++ filter (fun ev => negb (is_run ev)) l'.
Proof. apply filter_app. Qed.

(** One [predict] of the batch, for a repository that loads. *)
Lemma predict_keeps_one_load ext im model_repo gt gm ct cm w
      csv_path model_path names ri gi ci session target :
  fetch_and_parse ext model_repo
  = Ok (csv_path, model_path, (names, ri, gi, ci)) ->
  build_session ext model_path = Ok (session, target) ->
  (last_loaded_repo (self w) = None /\
   filter (fun ev => negb (is_run ev)) (trace w) = []) \/
  (last_loaded_repo (self w) = Some model_repo /\
   filter (fun ev => negb (is_run ev)) (trace w)
   = load_events model_repo csv_path model_path) ->
  let w' := snd (predict ext im model_repo gt gm ct cm w) in
  last_loaded_repo (self w') = Some model_repo /\
  filter (fun ev => negb (is_run ev)) (trace w')
  = load_events model_repo csv_path model_path.
Proof.
  intros Hf Hb Hstate. cbv zeta.
  assert (Hload : last_loaded_repo (self (snd (load_model ext model_repo w)))
                  = Some model_repo /\
                  filter (fun ev => negb (is_run ev))
                         (trace (snd (load_model ext model_repo w)))
                  = load_events model_repo csv_path model_path).
  { destruct Hstate as [[Hnone Htr]|[Hsome Htr]].
    - assert (Hmiss : last_loaded_repo (self w) <> Some model_repo)
        by congruence.
      pose proof (load_model_miss ext model_repo w Hmiss) as Hcases.
      rewrite Hf in Hcases. cbv zeta in Hcases. rewrite Hb in Hcases.
      rewrite Hcases. cbn [snd self trace]. split; [reflexivity|].
      rewrite filter_non_run_app, Htr. reflexivity.
    - rewrite (load_model_hit _ _ _ Hsome). cbn [snd]. auto. }
  destruct (predict_world ext im model_repo gt gm ct cm w)
    as [->|(_ & _ & _ & ->)]; [exact Hload|].
  cbn [after_run self trace]. split; [apply Hload|].
  rewrite filter_non_run_app, (proj2 Hload). reflexivity.
Qed.

(** X20.  For a repository that can be fetched and built, a batch loads the
    model once, however many images it has: apart from the calls of the
    classifier, the external calls of the whole batch are those of one fetch
    and build sequence (none when no image could be opened), and the
    classifier is called at most once per image that could be opened. *)
Theorem X20_batch_loads_the_model_once :
  forall host ext images model_repo gt gm ct cm output_dir
         csv_path model_path names ri gi ci session target,
    fetch_and_parse ext model_repo
    = Ok (csv_path, model_path, (names, ri, gi, ci)) ->
    build_session ext model_path = Ok (session, target) ->
    let w := world (snd (process_batch_images host ext (Some images)
                           model_repo gt gm ct cm output_dir)) in
    filter (fun ev => negb (is_run ev)) (trace w)
    = (if existsb (is_usable host) images
       then load_events model_repo csv_path model_path else []) /\
    List.length (filter is_run (trace w))
    <= List.length (filter (is_usable host) images).
Proof.
  intros * Hf Hb. cbv zeta.
  rewrite process_batch_images_eq. cbn [snd]. rewrite batch_run_world.
  assert (Hgen : forall imgs w0,
    (last_loaded_repo (self w0) = None /\
     filter (fun ev => negb (is_run ev)) (trace w0) = []) \/
    (last_loaded_repo (self w0) = Some model_repo /\
     filter (fun ev => negb (is_run ev)) (trace w0)
     = load_events model_repo csv_path model_path) ->
    let w1 := batch_world host ext model_repo gt gm ct cm imgs w0 in
    ((last_loaded_repo (self w0) = None /\
      existsb (is_usable host) imgs = false /\
      filter (fun ev => negb (is_run ev)) (trace w1) = []) \/
     ((last_loaded_repo (self w0) = Some model_repo \/
       existsb (is_usable host) imgs = true) /\
      filter (fun ev => negb (is_run ev)) (trace w1)
      = load_events model_repo csv_path model_path)) /\
    List.length (filter is_run (trace w1))
    <= List.length (filter is_run (trace w0))
       + List.length (filter (is_usable host) imgs)).
  { induction imgs as [|p imgs IH]; intros w0 Hstate; cbv zeta.
    - cbn [batch_world existsb filter List.length]. split; [|lia].
      destruct Hstate as [[H1 H2]|[H1 H2]]; [left|right]; auto.
    - cbn [batch_world existsb filter]. unfold is_usable at 1 3 5.
      destruct (usable host p) as [im|] eqn:E; cbn [orb].
      + pose proof (predict_keeps_one_load ext im model_repo gt gm ct cm w0
                      _ _ _ _ _ _ _ _ Hf Hb Hstate) as Hstep.
        cbv zeta in Hstep.
        destruct (IH _ (or_intror Hstep)) as [Hcase Hcount].
        cbv zeta in Hcase, Hcount. split.
        * right. split; [now right|].
          destruct Hcase as [(Hnone & _)|(_ & Htr)]; [|exact Htr].
          rewrite (proj1 Hstep) in Hnone. discriminate.
        * cbn [List.length]. etransitivity; [exact Hcount|].
          assert (Hone : List.length (filter is_run
                     (trace (snd (predict ext im model_repo gt gm ct cm w0))))
                   <= S (List.length (filter is_run (trace w0)))).
          { destruct (predict_world ext im model_repo gt gm ct cm w0)
              as [->|(Hok & _ & _ & ->)].
            - destruct (cached_dec (last_loaded_repo (self w0)) model_repo)
                as [Hhit|Hmiss].
              + rewrite (load_model_hit _ _ _ Hhit). cbn [snd]. lia.
              + pose proof (load_model_miss ext model_repo w0 Hmiss) as Hc.
                rewrite Hf in Hc. cbv zeta in Hc. rewrite Hb in Hc.
                rewrite Hc. cbn [snd trace].
                rewrite filter_app, length_app. cbn. lia.
            - cbn [after_run trace]. rewrite filter_app, length_app.
              destruct (cached_dec (last_loaded_repo (self w0)) model_repo)
                as [Hhit|Hmiss].
              + rewrite (load_model_hit _ _ _ Hhit). cbn. lia.
              + pose proof (load_model_miss ext model_repo w0 Hmiss) as Hc.
                rewrite Hf in Hc. cbv zeta in Hc. rewrite Hb in Hc.
                rewrite Hc. cbn [snd trace].
                rewrite filter_app, length_app. cbn. lia. }
          lia.
      + destruct (IH w0 Hstate) as [Hcase Hcount]. split; assumption. }
  destruct (Hgen images {| self := Predictor_init; trace := [] |})
    as [Hcase Hcount]; [left; split; reflexivity|].
  cbv zeta in Hcase, Hcount. split; [|exact Hcount].
  destruct Hcase as [(_ & -> & Htr)|([Hbad| ->] & Htr)]; trivial.
  discriminate.
Qed.

Lemma X20_witness :
  let w := world (snd (process_batch_images BatchDemo.host BatchDemo.hub
                         (Some ["in/cat.png"; "in/notes.txt"; "in/dog.jpg"]%string)
                         "chars" 0.35 false 0.85 true "out")) in
  filter (fun ev => negb (is_run ev)) (trace w)
  = load_events "chars" "chars/selected_tags.csv" "chars/model.onnx" /\
  List.length (filter is_run (trace w)) <= 2.
Proof.
  apply (X20_batch_loads_the_model_once
           BatchDemo.host BatchDemo.hub
           ["in/cat.png"; "in/notes.txt"; "in/dog.jpg"]%string
           "chars"%string 0.35%Q false 0.85%Q true "out"%string
           "chars/selected_tags.csv"%string "chars/model.onnx"%string
           ["general"; "miku"; "rin"; "smile"]%string [0] [3] [1; 2]
           (Demo.classifier [1; 0.9; 0.2; 0.8]%Q) (Some 2));
    reflexivity.
Defined.

(** *** A repository that cannot be fetched *)

Lemma predict_fetch_fails ext im model_repo gt gm ct cm w e :
  last_loaded_repo (self w) <> Some model_repo ->
  hf_hub_download ext model_repo LABEL_FILENAME = Raise e ->
  predict ext im model_repo gt gm ct cm w
  = (Raise e, {| self := self w;
                 trace := trace w ++ [EvDownload model_repo LABEL_FILENAME] |}).
Proof.
  intros Hmiss Hf. unfold predict. apply bind_raise.
  rewrite (load_model_miss_eq ext model_repo w Hmiss). cbv zeta.
  now rewrite Hf.
Qed.

Lemma iteration_raise host ext model_repo gt gm ct cm output_dir
      total idx p results b im e w' :
  usable host p = Some im ->
  predict ext im model_repo gt gm ct cm (world b) = (Raise e, w') ->
  iteration host ext model_repo gt gm ct cm output_dir total idx p results b
  = ((error_text total idx,
      str_join blank_line (results ++ [error_line host p (PredictExn e)])),
     results ++ [error_line host p (PredictExn e)],
     {| world := w'; host_log := host_log b ++ [HvOpen p] |}).
Proof.
  intros Hu Hp. unfold iteration. rewrite caption_of_eq. cbv zeta.
  unfold usable in Hu.
  destruct (image_open host p) as [img|]; [|discriminate].
  destruct (ensure_RGBA host img) as [im'|]; [|discriminate].
  injection Hu as ->. rewrite Hp. reflexivity.
Qed.

Lemma batch_loop_fetch_fails host ext model_repo gt gm ct cm output_dir
      total e :
  hf_hub_download ext model_repo LABEL_FILENAME = Raise e ->
  forall images idx results b,
    last_loaded_repo (self (world b)) = None ->
    exists lines ys b',
      batch_loop host ext model_repo gt gm ct cm output_dir total idx images
                 results b
      = (ys, results ++ lines, b') /\
      self (world b') = self (world b) /\
      trace (world b')
      = trace (world b)
        ++ map (fun _ => EvDownload model_repo LABEL_FILENAME)
               (filter (is_usable host) images) /\
      forall k p, nth_error images k = Some p ->
        nth_error (map fst ys) k = Some (error_text total (idx + k)) /\
        (is_usable host p = true ->
         nth_error lines k = Some (error_line host p (PredictExn e))).
Proof.
  intros Hf. induction images as [|p images IH]; intros idx results b Hnone.
  - exists [], [], b. cbn [batch_loop filter map]. rewrite !app_nil_r.
    repeat split; trivial; intros; now destruct k.
  - assert (Hstep : exists line b1,
      iteration host ext model_repo gt gm ct cm output_dir total idx p
                results b
      = ((error_text total idx, str_join blank_line (results ++ [line])),
         results ++ [line], b1) /\
      self (world b1) = self (world b) /\
      trace (world b1)
      = trace (world b)
        ++ (if is_usable host p
            then [EvDownload model_repo LABEL_FILENAME] else []) /\
      (is_usable host p = true -> line = error_line host p (PredictExn e))).
    { unfold is_usable. destruct (usable host p) as [im|] eqn:Hu.
      - assert (Hmiss : last_loaded_repo (self (world b)) <> Some model_repo)
          by congruence.
        pose proof (predict_fetch_fails ext im model_repo gt gm ct cm
                      (world b) e Hmiss Hf) as Hp.
        rewrite (iteration_raise _ _ _ _ _ _ _ _ _ _ _ _ _ _ _ _ Hu Hp).
        do 2 eexists. split; [reflexivity|]. cbn [world self trace]. auto.
      - destruct (iteration_spec host ext model_repo gt gm ct cm output_dir
                    total idx p results b)
          as (ok & line & b1 & Hit & _ & Hok & _ & _ & _ & Hw).
        rewrite Hu in Hw.
        destruct ok.
        + destruct (Hok eq_refl) as (im & _ & _ & _ & _ & Hbad & _).
          congruence.
        + exists line, b1. split; [exact Hit|]. rewrite Hw, app_nil_r.
          repeat split. discriminate. }
    destruct Hstep as (line & b1 & Hit & Hself & Htrace & Hline).
    destruct (IH (S idx) (results ++ [line]) b1) as
      (lines & ys & b' & Hloop & Hself' & Htrace' & Hnth);
      [congruence|].
    exists (line :: lines),
      ((error_text total idx, str_join blank_line (results ++ [line])) :: ys),
      b'.
    split; [cbn [batch_loop]; rewrite Hit, Hloop; now rewrite <- app_assoc|].
    split; [congruence|]. split.
    + rewrite Htrace', Htrace, <- app_assoc. f_equal. cbn [filter].
      now destruct (is_usable host p).
    + intros k q Hk. destruct k as [|k]; cbn [nth_error map fst] in *.
      * injection Hk as <-. rewrite Nat.add_0_r. split; [reflexivity|].
        intros Hu. now rewrite (Hline Hu).
      * replace (idx + S k) with (S idx + k) by lia. now apply Hnth.
Qed.

(** X21.  A failed load is not cached.  When the label file of the
    repository cannot be fetched, the download is attempted again for every
    image that could be opened: the batch makes as many download calls as it
    has such images, never calls the classifier, leaves the predictor as
    created, and every yield is an "Error (k/n)" whose transcript line, for
    an image that could be opened, carries the message of the fetch error. *)
Theorem X21_batch_retries_a_failed_fetch_for_every_image :
  forall host ext images model_repo gt gm ct cm output_dir e,
    hf_hub_download ext model_repo LABEL_FILENAME = Raise e ->
    let n := List.length images in
    exists ys lines b,
      process_batch_images host ext (Some images) model_repo gt gm ct cm
                           output_dir
      = (Ok (ys, ("Done!"%string, str_join blank_line lines)), b) /\
      self (world b) = Predictor_init /\
      trace (world b)
      = map (fun _ => EvDownload model_repo LABEL_FILENAME)
            (filter (is_usable host) images) /\
      forall k p, nth_error images k = Some p ->
        nth_error (map fst ys) k = Some (error_text n (S k)) /\
        (is_usable host p = true ->
         nth_error lines k = Some (error_line host p (PredictExn e))).
Proof.
  intros host ext images model_repo gt gm ct cm output_dir e Hf n.
  rewrite process_batch_images_eq. unfold batch_run.
  destruct (batch_loop_fetch_fails host ext model_repo gt gm ct cm output_dir
              n e Hf images 1 [] batch_start eq_refl)
    as (lines & ys & b & Hloop & Hself & Htrace & Hnth).
  fold n. rewrite Hloop. cbn [fst snd app].
  exists ys, lines, b. split; [reflexivity|].
  split; [exact Hself|]. split; [exact Htrace|]. exact Hnth.
Qed.

Lemma X21_witness :
  exists ys lines b,
    process_batch_images BatchDemo.host BatchDemo.hub
      (Some ["in/cat.png"; "in/notes.txt"; "in/dog.jpg"]%string)
      "missing" 0.35 false 0.85 false ""
    = (Ok (ys, ("Done!"%string, str_join blank_line lines)), b) /\
    self (world b) = Predictor_init /\
    trace (world b)
    = [EvDownload "missing" LABEL_FILENAME;
       EvDownload "missing" LABEL_FILENAME].
Proof.
  destruct (X21_batch_retries_a_failed_fetch_for_every_image
              BatchDemo.host BatchDemo.hub
              ["in/cat.png"; "in/notes.txt"; "in/dog.jpg"]%string
              "missing"%string 0.35%Q false 0.85%Q false EmptyString
              FetchError eq_refl)
    as (ys & lines & b & Hrun & Hself & Htrace & _).
  exists ys, lines, b. split; [exact Hrun|]. split; [exact Hself|].
  exact Htrace.
Defined.

(** ** The returned maps and their groups *)

Lemma In_dict_get (d : dict) k v :
  NoDup (keys d) -> In (k, v) d -> dict_get d k = Some v.
Proof.
  unfold keys. induction d as [|[k' v'] d IH]; [contradiction|].
  cbn [In map fst dict_get]. intros Hnd Hin. inversion Hnd as [|? ? Hk Hd].
  subst. destruct Hin as [[= -> ->]|Hin].
  - now rewrite String.eqb_refl.
  - destruct (String.eqb k' k) eqn:E; [|now apply IH].
    apply String.eqb_eq in E. subst k'. exfalso. apply Hk.
    apply (in_map fst) in Hin. exact Hin.
Qed.

Lemma py_dict_In (pairs : list (string * Q)) k v :
  In (k, v) (py_dict pairs) -> In (k, v) pairs.
Proof.
  intros H. apply last_assoc_In. rewrite <- py_dict_get.
  apply In_dict_get; [apply py_dict_NoDup|exact H].
Qed.

Lemma py_dict_group_In labels idx k v :
  In (k, v) (py_dict (group labels idx)) ->
  exists i, In i idx /\ label_at labels i = (k, v).
Proof.
  intros H. apply py_dict_In in H. unfold group in H.
  apply in_map_iff in H. destruct H as (i & Hi & Hin). now exists i.
Qed.

Lemma py_dict_group_length labels idx :
  List.length (py_dict (group labels idx)) <= List.length idx.
Proof.
  etransitivity; [apply py_dict_length|]. unfold group.
  now rewrite length_map.
Qed.

(** X11.  Whatever the thresholds and the MCut switches, each of the three
    returned maps is made of rows of its own group: an entry of the general
    (character, rating) map is the name and the confidence of a row of the
    general (character, rating) group; a map has no name twice and no more
    entries than its group has rows. *)
Theorem X11_returned_maps_hold_rows_of_their_group :
  forall ext image model_repo gt gm ct cm w s rating cres gres w',
    predict ext image model_repo gt gm ct cm w
    = (Ok (s, rating, cres, gres), w') ->
    exists w1 names preds0 ri gi ci,
      reaches_labels ext image model_repo w w1 names preds0 ri gi ci /\
      let labels := combine names preds0 in
      (forall name p, In (name, p) rating ->
                      exists i, In i ri /\ label_at labels i = (name, p)) /\
      (forall name p, In (name, p) gres ->
                      exists i, In i gi /\ label_at labels i = (name, p)) /\
      (forall name p, In (name, p) cres ->
                      exists i, In i ci /\ label_at labels i = (name, p)) /\
      NoDup (keys rating) /\ NoDup (keys gres) /\ NoDup (keys cres) /\
      List.length rating <= List.length ri /\
      List.length gres <= List.length gi /\
      List.length cres <= List.length ci.
Proof.
  intros * H. apply predict_inv_groups in H.
  destruct H as (w1 & names & preds0 & ri & gi & ci & t & t' & Hr & H).
  cbv zeta in H. destruct H as (_ & _ & _ & _ & -> & -> & ->).
  exists w1, names, preds0, ri, gi, ci. split; [exact Hr|]. cbv zeta.
  assert (Hsub : forall idx u i,
            In i (accepted (combine names preds0) idx u) -> In i idx)
    by (intros idx u i Hi; now apply accepted_spec in Hi).
  assert (Hlen : forall idx u,
            List.length (accepted (combine names preds0) idx u)
            <= List.length idx)
    by (intros; apply filter_length_le).
  split; [intros name p Hin; now apply py_dict_group_In|].
  split.
  { intros name p Hin. apply py_dict_group_In in Hin.
    destruct Hin as (i & Hi & E). exists i. split; [eapply Hsub; eauto|exact E]. }
  split.
  { intros name p Hin. apply py_dict_group_In in Hin.
    destruct Hin as (i & Hi & E). exists i. split; [eapply Hsub; eauto|exact E]. }
  do 3 (split; [apply py_dict_NoDup|]).
  split; [apply py_dict_group_length|].
  split; (etransitivity; [apply py_dict_group_length|apply Hlen]).
Qed.

Lemma X11_witness :
  exists w1 names preds0 ri gi ci,
    reaches_labels BatchDemo.hub Demo.dot "chars" Demo.fresh w1 names preds0
                   ri gi ci /\
    List.length [("miku"%string, 0.9%Q)] <= List.length ci.
Proof.
  destruct (X11_returned_maps_hold_rows_of_their_group
              BatchDemo.hub Demo.dot "chars"%string 0.35%Q false 0.85%Q true
              Demo.fresh "smile"%string [("general"%string, 1%Q)]
              [("miku"%string, 0.9%Q)] [("smile"%string, 0.8%Q)]
              (snd (predict BatchDemo.hub Demo.dot "chars" 0.35 false 0.85 true
                      Demo.fresh)) eq_refl)
    as (w1 & names & preds0 & ri & gi & ci & Hr & H).
  exists w1, names, preds0, ri, gi, ci. split; [exact Hr|]. apply H.
Defined.

Lemma X17_witness :
  exists ys lines b,
    process_batch_images BatchDemo.host BatchDemo.hub
      (Some ["in/cat.png"; "in/notes.txt"]%string) "chars" 0.35 false
      0.85 true "out"
    = (Ok (ys, ("Done!"%string, str_join blank_line lines)), b) /\
    exists y, nth_error ys 1 = Some y /\
              snd y = str_join blank_line (firstn 2 lines).
Proof.
  destruct (X17_batch_yields_a_growing_transcript
              BatchDemo.host BatchDemo.hub
              ["in/cat.png"; "in/notes.txt"]%string "chars"%string
              0.35%Q false 0.85%Q true "out"%string)
    as (ys & lines & b & Hrun & _ & _ & _ & Hnth).
  exists ys, lines, b. split; [exact Hrun|].
  destruct (Hnth 1 "in/notes.txt"%string eq_refl) as (y & Hy & Htext & _).
  now exists y.
Defined.
